(** * Auth-profile rotation and the embedded agent run loop

    A shallow embedding of the credential store ([auth-profiles.ts]), of the
    error classifiers ([pi-embedded-helpers.ts]) and of the retry loop of
    [runEmbeddedPiAgent] ([pi-embedded-runner.ts]), with the properties the
    design document states about them.

    Conventions.
    - JavaScript numbers that hold timestamps, counters and durations are
      integers here ([Z]); [Date.now()] is an explicit argument [now].
    - A JavaScript object that is enumerated ([Object.entries]) is an
      association list in enumeration order; an object that is only indexed
      ([usageStats], [lastGood]) is a [gmap string _].
    - Strings are sequences of 8-bit characters; case folding and the
      whitespace class are the ASCII ones. *)

From Stdlib Require Import ZArith Lia String Ascii List Bool Permutation Sorted.
From stdpp Require Import base option list gmap strings sorting.

Local Open Scope string_scope.
Local Open Scope Z_scope.

(* ===================================================================== *)
(** * Part I: definitions                                                 *)
(* ===================================================================== *)

(** ** Cooldown schedule *)

(** [calculateAuthProfileCooldownMs], auth-profiles.ts:
    [Math.min(60*60*1000, 60*1000 * 5 ** Math.min(Math.max(1, n) - 1, 3))]. *)
Definition calculateAuthProfileCooldownMs (errorCount : Z) : Z :=
  let normalized := Z.max 1 errorCount in
  Z.min (60 * 60 * 1000) (60 * 1000 * 5 ^ Z.min (normalized - 1) 3).

(** ** JavaScript objects used as ordered records *)

Section Obj.
Context {V : Type}.

(** [obj[key]]: the value stored under [key], [undefined] when absent. *)
Fixpoint obj_get (o : list (string * V)) (key : string) : option V :=
  match o with
  | [] => None
  | (k, v) :: o' => if String.eqb k key then Some v else obj_get o' key
  end.

(** [obj[key] = v]: an existing key keeps its place in the enumeration order,
    a new key is appended. *)
Fixpoint obj_set (o : list (string * V)) (key : string) (v : V)
  : list (string * V) :=
  match o with
  | [] => [(key, v)]
  | (k, w) :: o' =>
      if String.eqb k key then (k, v) :: o' else (k, w) :: obj_set o' key v
  end.

End Obj.

(** ** Credentials, usage statistics, store and config *)

(** The [type] tag of a stored credential; also the [mode] of a configured
    profile (config/types.ts, [AuthProfileConfig]). *)
Inductive CredType := api_key | oauth | token.

#[global] Instance CredType_eq_dec : EqDecision CredType.
Proof. solve_decision. Defined.

Record ApiKeyCredential := {
  ak_provider : string;
  ak_key : string;
  ak_email : option string;
}.

Record TokenCredential := {
  tk_provider : string;
  tk_token : string;
  tk_expires : option Z;
  tk_email : option string;
}.

Record OAuthCredential := {
  oa_provider : string;
  oa_access : string;
  oa_refresh : string;
  oa_expires : Z;
  oa_email : option string;
  oa_enterpriseUrl : option string;
  oa_projectId : option string;
  oa_accountId : option string;
}.

Inductive AuthProfileCredential :=
| ApiKey (c : ApiKeyCredential)
| Token (c : TokenCredential)
| OAuth (c : OAuthCredential).

Definition cred_type (c : AuthProfileCredential) : CredType :=
  match c with ApiKey _ => api_key | Token _ => token | OAuth _ => oauth end.

Definition cred_provider (c : AuthProfileCredential) : string :=
  match c with
  | ApiKey k => ak_provider k
  | Token t => tk_provider t
  | OAuth o => oa_provider o
  end.

Definition cred_email (c : AuthProfileCredential) : option string :=
  match c with
  | ApiKey k => ak_email k
  | Token t => tk_email t
  | OAuth o => oa_email o
  end.

Record ProfileUsageStats := {
  lastUsed : option Z;
  cooldownUntil : option Z;
  errorCount : option Z;
}.

Definition emptyStats : ProfileUsageStats :=
  {| lastUsed := None; cooldownUntil := None; errorCount := None |}.

Record AuthProfileStore := {
  version : Z;
  profiles : list (string * AuthProfileCredential);
  lastGood : gmap string string;
  usageStats : gmap string ProfileUsageStats;
}.

Record AuthProfileConfig := {
  pc_provider : string;
  pc_mode : CredType;
  pc_email : option string;
}.

Record AuthConfig := {
  auth_profiles : option (list (string * AuthProfileConfig));
  auth_order : option (list (string * list string));
}.

Record ClawdbotConfig := {
  cfg_auth : option AuthConfig;
  (** [agent.model.fallbacks] *)
  cfg_fallbacks : list string;
}.

(** [cfg?.auth?.profiles] and [cfg?.auth?.order]. *)
Definition cfg_profiles (cfg : option ClawdbotConfig)
  : option (list (string * AuthProfileConfig)) :=
  match cfg with
  | Some c => match cfg_auth c with Some a => auth_profiles a | None => None end
  | None => None
  end.

Definition cfg_order (cfg : option ClawdbotConfig)
  : option (list (string * list string)) :=
  match cfg with
  | Some c => match cfg_auth c with Some a => auth_order a | None => None end
  | None => None
  end.

(** A JavaScript string used as a condition: [undefined] and the empty string
    are falsy. *)
Definition truthy (s : option string) : bool :=
  match s with Some (String _ _) => true | _ => false end.

(** ** Profile order *)

(** [Array.prototype.sort] with a comparator: the sort is stable, so for a
    comparator that is a total preorder its result is the one of a stable
    insertion sort. A non-positive result of [cmp a b] keeps [a] before [b]. *)
Section JsSort.
Context {A : Type} (cmp : A → A → Z).

Fixpoint sort_insert (x : A) (l : list A) : list A :=
  match l with
  | [] => [x]
  | y :: l' => if cmp x y <=? 0 then x :: y :: l' else y :: sort_insert x l'
  end.

Definition js_sort (l : list A) : list A := foldr sort_insert [] l.

End JsSort.

(** [deduped]: the loop [if (!deduped.includes(entry)) deduped.push(entry)]. *)
Fixpoint dedupe_into (deduped : list string) (entries : list string)
  : list string :=
  match entries with
  | [] => deduped
  | e :: rest =>
      if existsb (String.eqb e) deduped then dedupe_into deduped rest
      else dedupe_into (deduped ++ [e]) rest
  end.

Definition includes (l : list string) (x : string) : bool :=
  existsb (String.eqb x) l.

(** [store.usageStats?.[profileId]] *)
Definition statsOf (store : AuthProfileStore) (profileId : string)
  : option ProfileUsageStats :=
  usageStats store !! profileId.

(** [isProfileInCooldown]: [if (!stats?.cooldownUntil) return false;
    return Date.now() < stats.cooldownUntil]. *)
Definition isProfileInCooldown (now : Z) (store : AuthProfileStore)
    (profileId : string) : bool :=
  match statsOf store profileId ≫= cooldownUntil with
  | None => false
  | Some c => if c =? 0 then false else now <? c
  end.

Record ScoredProfile := {
  sp_profileId : string;
  sp_typeScore : Z;
  sp_lastUsed : Z;
}.

Record CoolingProfile := {
  cp_profileId : string;
  cp_cooldownUntil : Z;
}.

Definition typeScore (store : AuthProfileStore) (profileId : string) : Z :=
  match cred_type <$> obj_get (profiles store) profileId with
  | Some oauth => 0
  | Some token => 1
  | Some api_key => 2
  | None => 3
  end.

Definition lastUsedOf (store : AuthProfileStore) (profileId : string) : Z :=
  default 0 (statsOf store profileId ≫= lastUsed).

Definition cooldownUntilOf (now : Z) (store : AuthProfileStore)
    (profileId : string) : Z :=
  default now (statsOf store profileId ≫= cooldownUntil).

Definition score (store : AuthProfileStore) (profileId : string)
  : ScoredProfile :=
  {| sp_profileId := profileId;
     sp_typeScore := typeScore store profileId;
     sp_lastUsed := lastUsedOf store profileId |}.

Definition compareScored (a b : ScoredProfile) : Z :=
  if negb (sp_typeScore a =? sp_typeScore b)
  then sp_typeScore a - sp_typeScore b
  else sp_lastUsed a - sp_lastUsed b.

Definition cooling (now : Z) (store : AuthProfileStore) (profileId : string)
  : CoolingProfile :=
  {| cp_profileId := profileId;
     cp_cooldownUntil := cooldownUntilOf now store profileId |}.

Definition compareCooling (a b : CoolingProfile) : Z :=
  cp_cooldownUntil a - cp_cooldownUntil b.

(** [orderProfilesByMode]: the loop that partitions pushes each id, in order,
    to [inCooldown] or [available]. *)
Definition orderProfilesByMode (now : Z) (order : list string)
    (store : AuthProfileStore) : list string :=
  let available :=
    List.filter (fun p => negb (isProfileInCooldown now store p)) order in
  let inCooldown := List.filter (isProfileInCooldown now store) order in
  let sorted :=
    map sp_profileId (js_sort compareScored (map (score store) available)) in
  let cooldownSorted :=
    map cp_profileId
      (js_sort compareCooling (map (cooling now store) inCooldown)) in
  sorted ++ cooldownSorted.

(** [[preferredProfile, ...list.filter(e => e !== preferredProfile)]] when the
    preferred profile is a non-empty string that the list includes. *)
Definition preferFirst (preferredProfile : option string) (l : list string)
  : list string :=
  match preferredProfile with
  | Some p =>
      if truthy preferredProfile && includes l p
      then p :: List.filter (fun e => negb (String.eqb e p)) l
      else l
  | None => l
  end.

Section Resolver.

(** [normalizeProviderId] lives in model-selection.ts, which is not part of
    the sources at hand: it is a parameter of the resolver. *)
Variable normalizeProviderId : string → string.

Definition listProfilesForProvider (store : AuthProfileStore)
    (provider : string) : list string :=
  let providerKey := normalizeProviderId provider in
  map fst
    (List.filter
       (fun e => String.eqb (normalizeProviderId (cred_provider (snd e)))
                   providerKey)
       (profiles store)).

Definition configuredOrderOf (cfg : option ClawdbotConfig)
    (providerKey : string) : option (list string) :=
  match cfg_order cfg with
  | None => None
  | Some order =>
      snd <$> List.find
        (fun e => String.eqb (normalizeProviderId (fst e)) providerKey) order
  end.

Definition explicitProfilesOf (cfg : option ClawdbotConfig)
    (providerKey : string) : list string :=
  match cfg_profiles cfg with
  | Some ps =>
      map fst
        (List.filter
           (fun e => String.eqb (normalizeProviderId (pc_provider (snd e)))
                       providerKey)
           ps)
  | None => []
  end.

(** The [filter] over [baseOrder]: an id with no stored credential is kept,
    an id whose credential is for another provider is dropped. *)
Definition providerMatches (store : AuthProfileStore) (providerKey : string)
    (profileId : string) : bool :=
  match obj_get (profiles store) profileId with
  | Some cred => String.eqb (normalizeProviderId (cred_provider cred)) providerKey
  | None => true
  end.

Definition resolveAuthProfileOrder (now : Z) (cfg : option ClawdbotConfig)
    (store : AuthProfileStore) (provider : string)
    (preferredProfile : option string) : list string :=
  let providerKey := normalizeProviderId provider in
  let configuredOrder := configuredOrderOf cfg providerKey in
  let explicitProfiles := explicitProfilesOf cfg providerKey in
  let baseOrder :=
    match configuredOrder with
    | Some o => o
    | None =>
        match explicitProfiles with
        | _ :: _ => explicitProfiles
        | [] => listProfilesForProvider store providerKey
        end
    end in
  match baseOrder with
  | [] => []
  | _ :: _ =>
      let filtered := List.filter (providerMatches store providerKey) baseOrder in
      let deduped := dedupe_into [] filtered in
      match configuredOrder with
      | Some (_ :: _) => preferFirst preferredProfile deduped
      | _ =>
          let sorted := orderProfilesByMode now deduped store in
          preferFirst preferredProfile sorted
      end
  end.

End Resolver.

(** ** Strings *)

(** A JavaScript string is taken as the string of its characters, each one
    byte: this is exact for strings whose characters are all below 128, and
    on those [toLowerCase], [trim], the lengths and the character classes
    below are the ones of the source. (Beyond them the source counts UTF-16
    units, folds the case of other letters, and takes U+00A0 and other
    blanks for white space.) *)

Definition char_code (c : ascii) : nat := nat_of_ascii c.

(** The strings on which the functions below are exact. *)
Fixpoint asciiOnly (s : string) : bool :=
  match s with
  | EmptyString => true
  | String c rest => (nat_of_ascii c <? 128)%nat && asciiOnly rest
  end.

Definition is_upper (c : ascii) : bool :=
  (65 <=? char_code c)%nat && (char_code c <=? 90)%nat.

Definition is_lower (c : ascii) : bool :=
  (97 <=? char_code c)%nat && (char_code c <=? 122)%nat.

Definition is_digit (c : ascii) : bool :=
  (48 <=? char_code c)%nat && (char_code c <=? 57)%nat.

(** [[a-zA-Z]] *)
Definition is_letter (c : ascii) : bool := is_upper c || is_lower c.

(** [\w]: letters, digits and the underscore. *)
Definition is_word_char (c : ascii) : bool :=
  is_letter c || is_digit c || (char_code c =? 95)%nat.

(** [\s], and what [trim] removes: tab, line feed, vertical tab, form feed,
    carriage return and space. *)
Definition is_space (c : ascii) : bool :=
  ((9 <=? char_code c)%nat && (char_code c <=? 13)%nat)
  || (char_code c =? 32)%nat.

Definition lower_char (c : ascii) : ascii :=
  if is_upper c then ascii_of_nat (char_code c + 32) else c.

Fixpoint toLowerCase (s : string) : string :=
  match s with
  | EmptyString => EmptyString
  | String c s' => String (lower_char c) (toLowerCase s')
  end.

Fixpoint trimStart (s : string) : string :=
  match s with
  | String c s' => if is_space c then trimStart s' else s
  | EmptyString => EmptyString
  end.

(** [trimEnd]: a character is dropped when it is a space and everything after
    it was dropped. *)
Fixpoint trimEnd (s : string) : string :=
  match s with
  | EmptyString => EmptyString
  | String c s' =>
      match trimEnd s' with
      | EmptyString => if is_space c then EmptyString else String c EmptyString
      | t => String c t
      end
  end.

Definition trim (s : string) : string := trimEnd (trimStart s).

(** [s.includes(sub)] *)
Fixpoint str_includes (sub s : string) : bool :=
  String.prefix sub s
  || match s with
     | EmptyString => false
     | String _ s' => str_includes sub s'
     end.

(** [/\bsub\b/.test(s)] for a [sub] made of word characters: an occurrence
    with no word character right before it and none right after it.
    [prevWord] tells whether the character before [s] is a word character. *)
Definition boundary_after (s : string) : bool :=
  match s with
  | EmptyString => true
  | String c _ => negb (is_word_char c)
  end.

Fixpoint drop_prefix (n : nat) (s : string) : string :=
  match n, s with
  | S n', String _ s' => drop_prefix n' s'
  | _, _ => s
  end.

Fixpoint word_includes_from (prevWord : bool) (sub s : string) : bool :=
  (negb prevWord && String.prefix sub s
   && boundary_after (drop_prefix (String.length sub) s))
  || match s with
     | EmptyString => false
     | String c s' => word_includes_from (is_word_char c) sub s'
     end.

Definition word_includes (sub s : string) : bool :=
  word_includes_from false sub s.

(** Modelled from the spec: [normalizeProviderId] (model-selection.ts) is
    missing from the sources; the tests of the resolver show that it folds the
    case of a provider id and maps the alias [z.ai] to [zai]. It instantiates
    the resolver's parameter in closed examples only. *)
Definition normalizeProviderId_model (provider : string) : string :=
  let normalized := toLowerCase (trim provider) in
  if String.eqb normalized "z.ai" then "zai" else normalized.


(** ** Fixtures: the stores and configs of auth-profiles.test.ts *)

Definition mkApiKey (provider key : string) : AuthProfileCredential :=
  ApiKey {| ak_provider := provider; ak_key := key; ak_email := None |}.

Definition mkToken (provider tok : string) (expires : option Z)
  : AuthProfileCredential :=
  Token {| tk_provider := provider; tk_token := tok; tk_expires := expires;
           tk_email := None |}.

Definition mkOAuthCred (provider access refresh : string) (expires : Z)
  : OAuthCredential :=
  {| oa_provider := provider; oa_access := access; oa_refresh := refresh;
     oa_expires := expires; oa_email := None; oa_enterpriseUrl := None;
     oa_projectId := None; oa_accountId := None |}.

Definition mkOAuth (provider : string) (expires : Z) : AuthProfileCredential :=
  OAuth (mkOAuthCred provider "access-token" "refresh-token" expires).

Definition mkStore (ps : list (string * AuthProfileCredential))
    (stats : list (string * ProfileUsageStats)) : AuthProfileStore :=
  {| version := 1; profiles := ps; lastGood := ∅;
     usageStats := list_to_map stats |}.

Definition usedAt (t : Z) : ProfileUsageStats :=
  {| lastUsed := Some t; cooldownUntil := None; errorCount := None |}.

Definition coolingUntil (t : Z) : ProfileUsageStats :=
  {| lastUsed := None; cooldownUntil := Some t; errorCount := None |}.

Definition mkConfig (ps : option (list (string * AuthProfileConfig)))
    (order : option (list (string * list string))) : option ClawdbotConfig :=
  Some {| cfg_auth := Some {| auth_profiles := ps; auth_order := order |};
          cfg_fallbacks := [] |}.

Definition apiKeyMode (provider : string) : AuthProfileConfig :=
  {| pc_provider := provider; pc_mode := api_key; pc_email := None |}.

(** The store of the first tests: two anthropic API keys. *)
Definition anthropicStore : AuthProfileStore :=
  mkStore [("anthropic:default", mkApiKey "anthropic" "sk-default");
           ("anthropic:work", mkApiKey "anthropic" "sk-work")] [].

Definition anthropicProfilesCfg : list (string * AuthProfileConfig) :=
  [("anthropic:default", apiKeyMode "anthropic");
   ("anthropic:work", apiKeyMode "anthropic")].

(** A store that holds one credential of another provider. *)
Definition mixedProviderStore : AuthProfileStore :=
  mkStore [("openai:default", mkApiKey "openai" "sk-openai");
           ("anthropic:work", mkApiKey "anthropic" "sk-work")] [].

Definition crossProviderOrderCfg : option ClawdbotConfig :=
  mkConfig None (Some [("anthropic", ["openai:default"; "anthropic:work"])]).


(** ** Thrown values and results *)

(** The falsy values other than the empty string: [undefined], [null],
    [false], [0] (and [-0]), [NaN] and [0n]. *)
Inductive FalsyValue :=
| JsUndefined | JsNull | JsFalse | JsZero | JsNaN | JsBigZero.

(** What a [catch] clause may receive: an [Error] with its message, a string,
    some other truthy value with what [JSON.stringify] makes of it ([None]
    when it yields [undefined] or throws), or a falsy value. *)
Inductive Thrown :=
| ErrorObject (message : string)
| ThrownString (s : string)
| ThrownOther (serialized : option string)
| ThrownFalsy (v : FalsyValue).

(** Whether a caught value passes a test such as [if (promptError)]. *)
Definition thrownTruthy (e : Thrown) : bool :=
  match e with
  | ErrorObject _ => true
  | ThrownString s => match s with EmptyString => false | _ => true end
  | ThrownOther _ => true
  | ThrownFalsy _ => false
  end.

(** The result of a call that may throw. *)
Inductive Result (A : Type) :=
| Returned (a : A)
| Threw (e : Thrown).
Arguments Returned {A} a.
Arguments Threw {A} e.

(** ** Resolving the API key of a profile *)

Record ResolvedKey := {
  rk_apiKey : string;
  rk_provider : string;
  rk_email : option string;
}.

(** [cfg?.auth?.profiles?.[profileId]] *)
Definition profileConfigOf (cfg : option ClawdbotConfig) (profileId : string)
  : option AuthProfileConfig :=
  match cfg_profiles cfg with
  | Some ps => obj_get ps profileId
  | None => None
  end.

Section ResolveApiKey.

(** [JSON.stringify({ token, projectId })], a built-in. *)
Variable stringifyTokenProject : string → option string → string.

(** The path taken for an expired OAuth credential
    ([refreshOAuthTokenWithLock] and the recovery in its [catch] clause): it
    locks the store file and calls the provider's token endpoint, so its
    outcome is an input here. *)
Variable refreshExpired :
  option ClawdbotConfig → AuthProfileStore → string → OAuthCredential →
  Result (option ResolvedKey).

Definition buildOAuthApiKey (provider : string) (credentials : OAuthCredential)
  : string :=
  let needsProjectId :=
    String.eqb provider "google-gemini-cli"
    || String.eqb provider "google-antigravity" in
  if needsProjectId
  then stringifyTokenProject (oa_access credentials) (oa_projectId credentials)
  else oa_access credentials.

(** The part of [resolveApiKeyForProfile] after the checks against the
    config. *)
Definition resolveStoredCredential (now : Z) (cfg : option ClawdbotConfig)
    (store : AuthProfileStore) (profileId : string)
    (cred : AuthProfileCredential) : Result (option ResolvedKey) :=
  match cred with
  | ApiKey k =>
      Returned (Some {| rk_apiKey := ak_key k; rk_provider := ak_provider k;
                        rk_email := ak_email k |})
  | Token t =>
      let tok := trim (tk_token t) in
      if String.eqb tok "" then Returned None
      else
        match tk_expires t with
        | Some e =>
            if (0 <? e) && (e <=? now) then Returned None
            else Returned (Some {| rk_apiKey := tok;
                                   rk_provider := tk_provider t;
                                   rk_email := tk_email t |})
        | None =>
            Returned (Some {| rk_apiKey := tok; rk_provider := tk_provider t;
                              rk_email := tk_email t |})
        end
  | OAuth o =>
      if now <? oa_expires o
      then Returned (Some {| rk_apiKey := buildOAuthApiKey (oa_provider o) o;
                             rk_provider := oa_provider o;
                             rk_email := oa_email o |})
      else refreshExpired cfg store profileId o
  end.

Definition resolveApiKeyForProfile (now : Z) (cfg : option ClawdbotConfig)
    (store : AuthProfileStore) (profileId : string)
  : Result (option ResolvedKey) :=
  match obj_get (profiles store) profileId with
  | None => Returned None
  | Some cred =>
      let profileConfig := profileConfigOf cfg profileId in
      match profileConfig with
      | Some pc =>
          if negb (String.eqb (pc_provider pc) (cred_provider cred))
          then Returned None
          else if negb (bool_decide (pc_mode pc = cred_type cred))
                  && negb (bool_decide (pc_mode pc = oauth)
                           && bool_decide (cred_type cred = token))
          then Returned None
          else resolveStoredCredential now cfg store profileId cred
      | None => resolveStoredCredential now cfg store profileId cred
      end
  end.

End ResolveApiKey.

(** ** Syncing the credentials of external CLI tools *)

Definition CLAUDE_CLI_PROFILE_ID : string := "anthropic:claude-cli".
Definition CODEX_CLI_PROFILE_ID : string := "openai-codex:codex-cli".

Definition shallowEqualOAuthCredentials (a : option OAuthCredential)
    (b : OAuthCredential) : bool :=
  match a with
  | None => false
  | Some a =>
      String.eqb (oa_provider a) (oa_provider b)
      && String.eqb (oa_access a) (oa_access b)
      && String.eqb (oa_refresh a) (oa_refresh b)
      && (oa_expires a =? oa_expires b)
      && bool_decide (oa_email a = oa_email b)
      && bool_decide (oa_enterpriseUrl a = oa_enterpriseUrl b)
      && bool_decide (oa_projectId a = oa_projectId b)
      && bool_decide (oa_accountId a = oa_accountId b)
  end.

Definition shallowEqualTokenCredentials (a : option TokenCredential)
    (b : TokenCredential) : bool :=
  match a with
  | None => false
  | Some a =>
      String.eqb (tk_provider a) (tk_provider b)
      && String.eqb (tk_token a) (tk_token b)
      && bool_decide (tk_expires a = tk_expires b)
      && bool_decide (tk_email a = tk_email b)
  end.

Definition setProfile (store : AuthProfileStore) (profileId : string)
    (cred : AuthProfileCredential) : AuthProfileStore :=
  {| version := version store;
     profiles := obj_set (profiles store) profileId cred;
     lastGood := lastGood store;
     usageStats := usageStats store |}.

(** The Claude CLI half of [syncExternalCliCredentials]; [claudeCreds] is what
    [readClaudeCliCredentials] read. *)
Definition syncClaudeCli (now : Z) (claudeCreds : TokenCredential)
    (store : AuthProfileStore) : AuthProfileStore * bool :=
  let existing := obj_get (profiles store) CLAUDE_CLI_PROFILE_ID in
  let existingToken :=
    match existing with Some (Token t) => Some t | _ => None end in
  let claudeExpires := default 0 (tk_expires claudeCreds) in
  let shouldUpdate :=
    match existingToken with
    | None => true
    | Some t =>
        negb (String.eqb (tk_provider t) "anthropic")
        || (default 0 (tk_expires t) <=? now)
        || ((now <? claudeExpires)
            && (default 0 (tk_expires t) <? claudeExpires))
    end in
  if shouldUpdate && negb (shallowEqualTokenCredentials existingToken claudeCreds)
  then (setProfile store CLAUDE_CLI_PROFILE_ID (Token claudeCreds), true)
  else (store, false).

(** The Codex CLI half; [codexCreds] is what [readCodexCliCredentials] read. *)
Definition syncCodexCli (now : Z) (codexCreds : OAuthCredential)
    (store : AuthProfileStore) : AuthProfileStore * bool :=
  let existing := obj_get (profiles store) CODEX_CLI_PROFILE_ID in
  let existingOAuth :=
    match existing with Some (OAuth o) => Some o | _ => None end in
  let shouldUpdate :=
    match existingOAuth with
    | None => true
    | Some o =>
        negb (String.eqb (oa_provider o) "openai-codex")
        || (oa_expires o <=? now)
        || (oa_expires o <? oa_expires codexCreds)
    end in
  if shouldUpdate && negb (shallowEqualOAuthCredentials existingOAuth codexCreds)
  then (setProfile store CODEX_CLI_PROFILE_ID (OAuth codexCreds), true)
  else (store, false).

(** [syncExternalCliCredentials]: the store after the sync and [mutated]. The
    two readers' results are inputs ([None] for [null]). *)
Definition syncExternalCliCredentials (now : Z)
    (claudeCreds : option TokenCredential)
    (codexCreds : option OAuthCredential)
    (store : AuthProfileStore) : AuthProfileStore * bool :=
  let '(store1, mutated1) :=
    match claudeCreds with
    | Some c => syncClaudeCli now c store
    | None => (store, false)
    end in
  let '(store2, mutated2) :=
    match codexCreds with
    | Some c => syncCodexCli now c store1
    | None => (store1, false)
    end in
  (store2, mutated1 || mutated2).


(** ** Fixtures for key resolution and sync *)

Definition plainStringify (tok : string) (projectId : option string) : string :=
  tok.

Definition refreshAlwaysFails (cfg : option ClawdbotConfig)
    (store : AuthProfileStore) (profileId : string) (cred : OAuthCredential)
  : Result (option ResolvedKey) :=
  Threw (ErrorObject "OAuth token refresh failed").

(** A token profile that the config declares as an API key. *)
Definition claudeTokenStore : AuthProfileStore :=
  mkStore [(CLAUDE_CLI_PROFILE_ID, mkToken "anthropic" "store-access" (Some 5000))]
          [].

Definition claudeAsApiKeyCfg : option ClawdbotConfig :=
  mkConfig (Some [(CLAUDE_CLI_PROFILE_ID, apiKeyMode "anthropic")]) None.

(** Stores for the sync: at time 1000 the stored Claude CLI token expired at
    900, a later expiry than the 800 of the token in the CLI's file. *)
Definition expiredTokenStore : AuthProfileStore :=
  mkStore [(CLAUDE_CLI_PROFILE_ID, mkToken "anthropic" "store-access" (Some 900))]
          [].

Definition staleCliToken : TokenCredential :=
  {| tk_provider := "anthropic"; tk_token := "cli-access";
     tk_expires := Some 800; tk_email := None |}.

(** A store that holds an OAuth credential under the Claude CLI profile id. *)
Definition oauthUnderClaudeIdStore : AuthProfileStore :=
  mkStore [(CLAUDE_CLI_PROFILE_ID, mkOAuth "anthropic" 9000)] [].

Definition freshCliToken : TokenCredential :=
  {| tk_provider := "anthropic"; tk_token := "cli-access";
     tk_expires := Some 2800; tk_email := None |}.


(** ** Error classifiers (pi-embedded-helpers.ts) *)

(** The double quote, which a string literal here cannot hold. *)
Definition dquote : string := String (ascii_of_nat 34) EmptyString.

(** [p] holds at some position of [s]. *)
Fixpoint anywhere (p : string → bool) (s : string) : bool :=
  p s
  || match s with
     | EmptyString => false
     | String _ s' => anywhere p s'
     end.

(** [isContextOverflowError] *)
Definition isContextOverflowError (errorMessage : option string) : bool :=
  match errorMessage with
  | None => false
  | Some EmptyString => false
  | Some m =>
      let lower := toLowerCase m in
      str_includes "request_too_large" lower
      || str_includes "request exceeds the maximum size" lower
      || str_includes "context length exceeded" lower
      || str_includes "maximum context length" lower
      || (str_includes "413" lower && str_includes "too large" lower)
  end.

(** [isRateLimitErrorMessage]: [/rate[_ ]limit|too many requests|429/] or the
    quota phrase. *)
Definition isRateLimitErrorMessage (raw : string) : bool :=
  let value := toLowerCase raw in
  (str_includes "rate_limit" value
   || str_includes "rate limit" value
   || str_includes "too many requests" value
   || str_includes "429" value)
  || str_includes "exceeded your current quota" value.

(** The remainders of [s] after an optional [_] or space. *)
Definition after_optional_separator (s : string) : list string :=
  s :: match s with
       | String c s' =>
           if (char_code c =? 95)%nat || (char_code c =? 32)%nat
           then [s'] else []
       | EmptyString => []
       end.

(** [/invalid[_ ]?api[_ ]?key/] at the start of [s]. *)
Definition invalid_api_key_at (s : string) : bool :=
  String.prefix "invalid" s
  && existsb
       (λ r1, String.prefix "api" r1
              && existsb (String.prefix "key")
                   (after_optional_separator (drop_prefix 3 r1)))
       (after_optional_separator (drop_prefix 7 s)).

(** [isAuthErrorMessage] *)
Definition isAuthErrorMessage (raw : string) : bool :=
  let value := toLowerCase raw in
  match value with
  | EmptyString => false
  | _ =>
      anywhere invalid_api_key_at value
      || str_includes "incorrect api key" value
      || str_includes "invalid token" value
      || str_includes "authentication" value
      || str_includes "unauthorized" value
      || str_includes "forbidden" value
      || str_includes "access denied" value
      || word_includes "401" value
      || word_includes "403" value
  end.

(** The [stopReason] of an assistant message. *)
Inductive StopReason :=
| StopNormal | StopLength | StopToolUse | StopError | StopAborted.

Record AssistantMessage := {
  stopReason : StopReason;
  errorMessage : option string;
}.

Definition stoppedWithError (msg : AssistantMessage) : bool :=
  match stopReason msg with StopError => true | _ => false end.

(** [isRateLimitAssistantError] *)
Definition isRateLimitAssistantError (msg : option AssistantMessage) : bool :=
  match msg with
  | None => false
  | Some m =>
      if negb (stoppedWithError m) then false
      else
        match toLowerCase (default "" (errorMessage m)) with
        | EmptyString => false
        | raw => isRateLimitErrorMessage raw
        end
  end.

(** [isAuthAssistantError] *)
Definition isAuthAssistantError (msg : option AssistantMessage) : bool :=
  match msg with
  | None => false
  | Some m =>
      if negb (stoppedWithError m) then false
      else isAuthErrorMessage (default "" (errorMessage m))
  end.

Fixpoint take_while (p : ascii → bool) (s : string) : string :=
  match s with
  | String c s' => if p c then String c (take_while p s') else EmptyString
  | EmptyString => EmptyString
  end.

Fixpoint drop_while (p : ascii → bool) (s : string) : string :=
  match s with
  | String c s' => if p c then drop_while p s' else s
  | EmptyString => EmptyString
  end.

(** Drops the characters at the end that satisfy [p]. *)
Fixpoint drop_end_while (p : ascii → bool) (s : string) : string :=
  match s with
  | EmptyString => EmptyString
  | String c s' =>
      match drop_end_while p s' with
      | EmptyString => if p c then EmptyString else String c EmptyString
      | t => String c t
      end
  end.

Definition is_dquote (c : ascii) : bool := (char_code c =? 34)%nat.

(** [.] of a regular expression: any character but a line terminator. *)
Definition is_line_terminator (c : ascii) : bool :=
  (char_code c =? 10)%nat || (char_code c =? 13)%nat.

Definition invalidRequestType : string :=
  dquote +:+ "type" +:+ dquote +:+ ":" +:+ dquote +:+ "invalid_request_error"
  +:+ dquote.

Definition messageKey : string :=
  dquote +:+ "message" +:+ dquote +:+ ":" +:+ dquote.

(** The lazy part of the invalid-request pattern, at the start of [s]: the
    first position, reached without crossing a line terminator, where the
    message key is followed by a non-empty run of non-quote characters and a
    closing quote. *)
Fixpoint lazy_message (s : string) : option string :=
  let here :=
    if String.prefix messageKey s then
      let rest := drop_prefix (String.length messageKey) s in
      let run := take_while (λ c, negb (is_dquote c)) rest in
      match run, drop_while (λ c, negb (is_dquote c)) rest with
      | String _ _, String _ _ => Some run
      | _, _ => None
      end
    else None in
  match here with
  | Some m => Some m
  | None =>
      match s with
      | String c s' => if is_line_terminator c then None else lazy_message s'
      | EmptyString => None
      end
  end.

(** The first group of the invalid-request pattern: the type key with value
    [invalid_request_error], then lazily anything on the line up to the
    message key, whose quoted value is captured. *)
Fixpoint matchInvalidRequest (s : string) : option string :=
  let here :=
    if String.prefix invalidRequestType s
    then lazy_message (drop_prefix (String.length invalidRequestType) s)
    else None in
  match here with
  | Some m => Some m
  | None =>
      match s with
      | String _ s' => matchInvalidRequest s'
      | EmptyString => None
      end
  end.

Definition contextOverflowText : string :=
  "Context overflow: the conversation history is too large. "
  +:+ "Use /new or /reset to start a fresh session.".

(** [formatAssistantErrorText]; the cut at 600 counts characters, which for
    the strings of this development are bytes. *)
Definition formatAssistantErrorText (msg : AssistantMessage) : option string :=
  if negb (stoppedWithError msg) then None
  else
    let raw := trim (default "" (errorMessage msg)) in
    match raw with
    | EmptyString => Some "LLM request failed with an unknown error."
    | _ =>
        if isContextOverflowError (Some raw) then Some contextOverflowText
        else
          match matchInvalidRequest raw with
          | Some m => Some ("LLM request rejected: " +:+ m)
          | None =>
              if (600 <? String.length raw)%nat
              then Some (String.substring 0 600 raw +:+ "…")
              else Some raw
          end
    end.


(** ** Thinking levels and the capability fallback *)

(** [ThinkLevel] (auto-reply/thinking.ts is not among the sources; the five
    levels are the ones config/types.ts lists for [thinkingDefault]). *)
Inductive ThinkLevel := off | minimal | low | medium | high.

#[global] Instance ThinkLevel_eq_dec : EqDecision ThinkLevel.
Proof. solve_decision. Defined.

Definition allThinkLevels : list ThinkLevel := [off; minimal; low; medium; high].

(** [attempted.has(level)] and [attempted.add(level)] on a [Set], kept in
    insertion order. *)
Definition set_has (attempted : list ThinkLevel) (level : ThinkLevel) : bool :=
  bool_decide (level ∈ attempted).

Definition set_add (attempted : list ThinkLevel) (level : ThinkLevel)
  : list ThinkLevel :=
  if set_has attempted level then attempted else attempted ++ [level].

Definition not_newline_or_dot (c : ascii) : bool :=
  negb ((char_code c =? 10)%nat || (char_code c =? 46)%nat).

(** The group [([^\n.]+)] at the start of [s]. *)
Definition capture_run (s : string) : option string :=
  match take_while not_newline_or_dot s with
  | EmptyString => None
  | run => Some run
  end.

(** [\s*([^\n.]+)] at the start of [s]: the spaces are taken greedily and
    given back one by one when the group cannot start after them. *)
Fixpoint spaces_then_capture (s : string) : option string :=
  match s with
  | String c s' =>
      if is_space c then
        match spaces_then_capture s' with
        | Some run => Some run
        | None => capture_run s
        end
      else capture_run s
  | EmptyString => None
  end.

(** [raw.match(/lit\s*([^\n.]+)/i)?.[1]] for a lower-case literal [lit]: the
    leftmost position where the whole pattern matches. *)
Fixpoint match_after_literal (lit : string) (s : string) : option string :=
  let here :=
    if String.prefix lit (toLowerCase s)
    then spaces_then_capture (drop_prefix (String.length lit) s)
    else None in
  match here with
  | Some run => Some run
  | None =>
      match s with
      | String _ s' => match_after_literal lit s'
      | EmptyString => None
      end
  end.

Definition is_quote (c : ascii) : bool :=
  (char_code c =? 39)%nat || (char_code c =? 34)%nat.

(** The first groups of all matches of the global pattern "a quote (single or
    double), one or more characters that are no quotes, a quote": [inside] is
    the text since the last opening quote, if one is open. An opening quote that
    is followed at once by a quote opens nothing, and the scan goes on from
    that second quote. *)
Fixpoint quoted_values (inside : option string) (s : string) : list string :=
  match s with
  | EmptyString => []
  | String c s' =>
      match inside with
      | None =>
          if is_quote c then quoted_values (Some EmptyString) s'
          else quoted_values None s'
      | Some acc =>
          if is_quote c then
            match acc with
            | EmptyString => quoted_values (Some EmptyString) s'
            | _ => acc :: quoted_values None s'
            end
          else quoted_values (Some (acc +:+ String c EmptyString)) s'
      end
  end.

Definition is_comma (c : ascii) : bool := (char_code c =? 44)%nat.

Definition is_char_ci (lowerCode : nat) (c : ascii) : bool :=
  (char_code (lower_char c) =? lowerCode)%nat.

(** [fragment.split(/,|\band\b/gi)]: [prevWord] tells whether the character
    before [s] is a word character, [cur] is the piece being read. *)
Fixpoint split_values (prevWord : bool) (cur : string) (s : string)
  : list string :=
  match s with
  | EmptyString => [cur]
  | String c s' =>
      if is_comma c then cur :: split_values false EmptyString s'
      else
        match s' with
        | String c2 (String c3 s3) =>
            if negb prevWord && is_char_ci 97 c && is_char_ci 110 c2
               && is_char_ci 100 c3 && boundary_after s3
            then cur :: split_values true EmptyString s3
            else split_values (is_word_char c) (cur +:+ String c EmptyString) s'
        | _ => split_values (is_word_char c) (cur +:+ String c EmptyString) s'
        end
  end.

(** [entry.replace(/^[^a-zA-Z]+|[^a-zA-Z]+$/g, empty).trim()] *)
Definition strip_non_letters (entry : string) : string :=
  trim (drop_end_while (λ c, negb (is_letter c))
          (drop_while (λ c, negb (is_letter c)) entry)).

Definition non_empty (s : string) : bool :=
  match s with EmptyString => false | _ => true end.

(** [extractSupportedValues] *)
Definition extractSupportedValues (raw : string) : list string :=
  let matched :=
    match match_after_literal "supported values are:" raw with
    | Some fragment => Some fragment
    | None => match_after_literal "supported values:" raw
    end in
  match matched with
  | None => []
  | Some fragment =>
      let quoted := map trim (quoted_values None fragment) in
      match quoted with
      | _ :: _ => List.filter non_empty quoted
      | [] =>
          List.filter non_empty
            (map strip_non_letters (split_values false EmptyString fragment))
      end
  end.

Section Fallback.

(** [normalizeThinkLevel] (auto-reply/thinking.ts) is not among the sources:
    it is a parameter. *)
Variable normalizeThinkLevel : string → option ThinkLevel.

(** The [for] loop of [pickFallbackThinkingLevel]. *)
Fixpoint firstUnattempted (attempted : list ThinkLevel)
    (supported : list string) : option ThinkLevel :=
  match supported with
  | [] => None
  | entry :: rest =>
      match normalizeThinkLevel entry with
      | None => firstUnattempted attempted rest
      | Some normalized =>
          if set_has attempted normalized
          then firstUnattempted attempted rest
          else Some normalized
      end
  end.

(** [pickFallbackThinkingLevel] *)
Definition pickFallbackThinkingLevel (message : option string)
    (attempted : list ThinkLevel) : option ThinkLevel :=
  match trim <$> message with
  | None => None
  | Some EmptyString => None
  | Some raw => firstUnattempted attempted (extractSupportedValues raw)
  end.

End Fallback.

(** Modelled from the spec: [normalizeThinkLevel] is missing from the sources;
    the design names the levels off, minimal, low, medium and high, and this
    stand-in accepts exactly those names, in any case. It instantiates the
    parameter in closed examples only. *)
Definition normalizeThinkLevel_model (raw : string) : option ThinkLevel :=
  let key := toLowerCase (trim raw) in
  if String.eqb key "off" then Some off
  else if String.eqb key "minimal" then Some minimal
  else if String.eqb key "low" then Some low
  else if String.eqb key "medium" then Some medium
  else if String.eqb key "high" then Some high
  else None.


(** ** Store updates under the file lock *)

Definition AUTH_STORE_VERSION : Z := 1.

Definition withUsageStats (s : AuthProfileStore)
    (u : gmap string ProfileUsageStats) : AuthProfileStore :=
  {| version := version s; profiles := profiles s; lastGood := lastGood s;
     usageStats := u |}.

Definition withLastGood (s : AuthProfileStore) (g : gmap string string)
  : AuthProfileStore :=
  {| version := version s; profiles := profiles s; lastGood := g;
     usageStats := usageStats s |}.

(** What [saveAuthProfileStore] writes, as a later load reads it back. *)
Definition saved (s : AuthProfileStore) : AuthProfileStore :=
  {| version := AUTH_STORE_VERSION; profiles := profiles s;
     lastGood := lastGood s; usageStats := usageStats s |}.

(** The store file shared between processes and this process's copy of it
    ([authStore] in the run loop). *)
Record World := {
  disk : AuthProfileStore;
  mem : AuthProfileStore;
}.

(** [updateAuthProfileStoreWithLock]: with the lock held the updater runs on
    the store re-read from the file ([ensureAuthProfileStore], read here as
    the file's content) and the result is saved when the updater asks for it;
    [locked = false] is the [catch] branch that returns [null]. An updater
    returns [None] where the source returns [false] before changing
    anything. *)
Definition updateAuthProfileStoreWithLock (locked : bool)
    (updater : AuthProfileStore → option AuthProfileStore)
    (onDisk : AuthProfileStore)
  : option AuthProfileStore * AuthProfileStore :=
  if locked then
    match updater onDisk with
    | Some updated => (Some updated, saved updated)
    | None => (Some onDisk, onDisk)
    end
  else (None, onDisk).

(** The common shape of [markAuthProfileUsed], [markAuthProfileCooldown] and
    [markAuthProfileGood]: the locked update, then [syncAuthProfileStore] into
    the caller's copy; without the lock the same change is made to the
    caller's copy and saved. *)
Definition markWith (locked : bool)
    (updater : AuthProfileStore → option AuthProfileStore) (w : World)
  : World :=
  match updateAuthProfileStoreWithLock locked updater (disk w) with
  | (Some updated, onDisk) => {| disk := onDisk; mem := updated |}
  | (None, _) =>
      match updater (mem w) with
      | Some changed => {| disk := saved changed; mem := changed |}
      | None => w
      end
  end.

Definition cooldownUpdater (now : Z) (profileId : string)
    (s : AuthProfileStore) : option AuthProfileStore :=
  match obj_get (profiles s) profileId with
  | None => None
  | Some _ =>
      let existing := default emptyStats (usageStats s !! profileId) in
      let count := default 0 (errorCount existing) + 1 in
      let backoffMs := calculateAuthProfileCooldownMs count in
      Some (withUsageStats s
              (<[profileId :=
                   {| lastUsed := lastUsed existing;
                      cooldownUntil := Some (now + backoffMs);
                      errorCount := Some count |}]> (usageStats s)))
  end.

Definition usedUpdater (now : Z) (profileId : string) (s : AuthProfileStore)
  : option AuthProfileStore :=
  match obj_get (profiles s) profileId with
  | None => None
  | Some _ =>
      Some (withUsageStats s
              (<[profileId :=
                   {| lastUsed := Some now; cooldownUntil := None;
                      errorCount := Some 0 |}]> (usageStats s)))
  end.

Definition goodUpdater (provider profileId : string) (s : AuthProfileStore)
  : option AuthProfileStore :=
  match obj_get (profiles s) profileId with
  | None => None
  | Some profile =>
      if String.eqb (cred_provider profile) provider
      then Some (withLastGood s (<[provider := profileId]> (lastGood s)))
      else None
  end.

Definition markAuthProfileCooldown (locked : bool) (now : Z)
    (profileId : string) : World → World :=
  markWith locked (cooldownUpdater now profileId).

Definition markAuthProfileUsed (locked : bool) (now : Z) (profileId : string)
  : World → World :=
  markWith locked (usedUpdater now profileId).

Definition markAuthProfileGood (locked : bool) (provider profileId : string)
  : World → World :=
  markWith locked (goodUpdater provider profileId).

(** ** The run loop of [runEmbeddedPiAgent] *)

Record ApiKeyInfo := {
  aki_apiKey : string;
  aki_profileId : option string;
}.

(** What one attempt leaves behind when the code after [session.prompt] is
    reached: the error [session.prompt] or the compaction wait threw, the
    [aborted] and [timedOut] flags, the last assistant message of the
    snapshot, and the reply texts of the attempt (tool summaries and assistant
    texts, already cleaned). *)
Record Outcome := {
  promptError : option Thrown;
  aborted : bool;
  timedOut : bool;
  lastAssistant : option AssistantMessage;
  replyTexts : list string;
}.

(** An attempt either throws out of the loop (session setup, a compaction
    error that is no abort) or ends with an outcome. *)
Inductive AttemptResult :=
| AttemptThrew (e : Thrown)
| AttemptEnded (o : Outcome).

Record Payload := {
  p_text : string;
  p_isError : bool;
}.

(** How a run ends: the payloads and [meta.aborted] (absent on the context
    overflow return), or the error thrown to the caller. *)
Inductive RunResult :=
| RunPayloads (payloads : list Payload) (metaAborted : option bool)
| RunFailed (e : Thrown).

Inductive StoreOp := OpCooldown | OpGood | OpUsed.

(** What the loop does, in order. *)
Inductive Event :=
| EvResolveKey (candidate : option string) (ok : bool)
| EvAdvance (toIndex : nat)
| EvAttempt (index : nat) (profileId : option string) (level : ThinkLevel)
| EvMarkCooldown (profileId : string)
| EvMarkGood (profileId : string)
| EvMarkUsed (profileId : string).

Record RunState := {
  profileIndex : nat;
  thinkLevel : ThinkLevel;
  attemptedThinking : list ThinkLevel;
  apiKeyInfo : option ApiKeyInfo;
  lastProfileId : option string;
  world : World;
  attemptNo : nat;
  trace : list Event;
}.

Record RunParams := {
  rp_config : option ClawdbotConfig;
  (** [provider], after the default and [trim] *)
  rp_provider : string;
  rp_authProfileId : option string;
  rp_thinkLevel : option ThinkLevel;
}.

Definition describeUnknownError (e : Thrown) : string :=
  match e with
  | ErrorObject message => message
  | ThrownString s => s
  | ThrownOther serialized => default "Unknown error" serialized
  | ThrownFalsy v =>
      match v with
      | JsUndefined | JsBigZero => "Unknown error"
      | JsNull | JsNaN => "null"
      | JsFalse => "false"
      | JsZero => "0"
      end
  end.

Definition runnerOverflowText : string :=
  "Context overflow: the conversation history is too large for the model. "
  +:+ "Use /new or /reset to start a fresh session, or try a model with a larger context window.".

Definition notConfiguredMessage (explicitProfileId provider : string)
  : string :=
  "Auth profile " +:+ dquote +:+ explicitProfileId +:+ dquote
  +:+ " is not configured for " +:+ provider +:+ ".".

Definition logEvents (evs : list Event) (st : RunState) : RunState :=
  {| profileIndex := profileIndex st; thinkLevel := thinkLevel st;
     attemptedThinking := attemptedThinking st; apiKeyInfo := apiKeyInfo st;
     lastProfileId := lastProfileId st; world := world st;
     attemptNo := attemptNo st; trace := trace st ++ evs |}.

Definition setThinkLevel (level : ThinkLevel) (st : RunState) : RunState :=
  {| profileIndex := profileIndex st; thinkLevel := level;
     attemptedThinking := attemptedThinking st; apiKeyInfo := apiKeyInfo st;
     lastProfileId := lastProfileId st; world := world st;
     attemptNo := attemptNo st; trace := trace st |}.

Definition setWorld (w : World) (st : RunState) : RunState :=
  {| profileIndex := profileIndex st; thinkLevel := thinkLevel st;
     attemptedThinking := attemptedThinking st; apiKeyInfo := apiKeyInfo st;
     lastProfileId := lastProfileId st; world := w;
     attemptNo := attemptNo st; trace := trace st |}.

(** The start of an iteration: [attemptedThinking.add(thinkLevel)], then the
    attempt. *)
Definition beginAttempt (st : RunState) : RunState :=
  {| profileIndex := profileIndex st; thinkLevel := thinkLevel st;
     attemptedThinking := set_add (attemptedThinking st) (thinkLevel st);
     apiKeyInfo := apiKeyInfo st; lastProfileId := lastProfileId st;
     world := world st; attemptNo := S (attemptNo st);
     trace := trace st
              ++ [EvAttempt (profileIndex st) (lastProfileId st)
                    (thinkLevel st)] |}.


Section Runner.

Variable normalizeProviderId : string → string.
Variable normalizeThinkLevel : string → option ThinkLevel.

(** [getApiKeyForModel] (model-auth.ts) is not among the sources: what it
    returns or throws for a candidate, given the caller's store, is a
    parameter. *)
Variable resolveKey : AuthProfileStore → option string → Result ApiKeyInfo.

(** The session engine: the result of the attempt with a given number, made
    with the key in use at a thinking level. *)
Variable engine : nat → option ApiKeyInfo → ThinkLevel → AttemptResult.

(** [Date.now()] during the attempt with a given number, and whether a store
    update of that attempt gets the file lock. *)
Variable clock : nat → Z.
Variable lockOk : nat → StoreOp → bool.

(** What the loop reads and never changes. *)
Record RunEnv := {
  env_params : RunParams;
  explicitProfileId : option string;
  profileCandidates : list (option string);
  initialThinkLevel : ThinkLevel;
}.

(** [applyApiKeyInfo] followed by the bookkeeping of [advanceAuthProfile]. *)
Definition selectProfile (env : RunEnv) (index : nat) (info : ApiKeyInfo)
    (st : RunState) : RunState :=
  {| profileIndex := index; thinkLevel := initialThinkLevel env;
     attemptedThinking := []; apiKeyInfo := Some info;
     lastProfileId := aki_profileId info; world := world st;
     attemptNo := attemptNo st; trace := trace st |}.

(** The [while] loop of [advanceAuthProfile] over the candidates from
    [nextIndex] on. *)
Fixpoint advanceFrom (env : RunEnv) (remaining : list (option string))
    (nextIndex : nat) (st : RunState) : Result bool * RunState :=
  match remaining with
  | [] => (Returned false, st)
  | candidate :: rest =>
      match resolveKey (mem (world st)) candidate with
      | Returned info =>
          (Returned true,
           logEvents [EvResolveKey candidate true; EvAdvance nextIndex]
             (selectProfile env nextIndex info st))
      | Threw err =>
          let st' := logEvents [EvResolveKey candidate false] st in
          if truthy candidate
             && bool_decide (candidate = explicitProfileId env)
          then (Threw err, st')
          else advanceFrom env rest (S nextIndex) st'
      end
  end.

Definition advanceAuthProfile (env : RunEnv) (st : RunState)
  : Result bool * RunState :=
  advanceFrom env (drop (S (profileIndex st)) (profileCandidates env))
    (S (profileIndex st)) st.

Definition fallbackConfigured (env : RunEnv) : bool :=
  match rp_config (env_params env) with
  | Some cfg => match cfg_fallbacks cfg with [] => false | _ => true end
  | None => false
  end.

(** The message of the error thrown when rotation is over and fallback
    models are configured: the first non-empty of the three. *)
Definition rotationFailureMessage (o : Outcome) (rateLimitFailure : bool)
  : string :=
  let fromAssistant :=
    trim (default "" (lastAssistant o ≫= errorMessage)) in
  let formatted :=
    default "" (lastAssistant o ≫= formatAssistantErrorText) in
  if non_empty fromAssistant then fromAssistant
  else if non_empty formatted then formatted
  else if timedOut o then "LLM request timed out."
  else if rateLimitFailure then "LLM request rate limited."
  else "LLM request unauthorized.".

(** The payloads of a finished run. *)
Definition buildPayloads (o : Outcome) : list Payload :=
  let errorItem :=
    match lastAssistant o ≫= formatAssistantErrorText with
    | Some errorText =>
        if non_empty errorText
        then [{| p_text := errorText; p_isError := true |}] else []
    | None => []
    end in
  let replyItems :=
    (errorItem
     ++ map (λ t, {| p_text := t; p_isError := false |}) (replyTexts o))%list in
  List.filter (λ p, non_empty (p_text p))
    (map (λ p, {| p_text := trim (p_text p); p_isError := p_isError p |})
       replyItems).

(** The end of a run that is not thrown out of: the payloads, and the profile
    in use marked good and used. *)
Definition finishRun (env : RunEnv) (o : Outcome) (st : RunState)
  : RunResult * RunState :=
  let st' :=
    match lastProfileId st with
    | Some profileId =>
        if truthy (lastProfileId st) then
          let n := attemptNo st in
          let w1 :=
            markAuthProfileGood (lockOk n OpGood)
              (rp_provider (env_params env)) profileId (world st) in
          let w2 := markAuthProfileUsed (lockOk n OpUsed) (clock n) profileId w1 in
          logEvents [EvMarkGood profileId; EvMarkUsed profileId] (setWorld w2 st)
        else st
    | None => st
    end in
  (RunPayloads (buildPayloads o) (Some (aborted o)), st').

Inductive Step :=
| Continue (st : RunState)
| Finished (r : RunResult) (st : RunState).

(** The branch for an error thrown by the prompt in a run that was not
    aborted. *)
Definition afterPromptError (env : RunEnv) (thrown : Thrown) (st : RunState)
  : Step :=
  let errorText := describeUnknownError thrown in
  if isContextOverflowError (Some errorText) then
    Finished
      (RunPayloads [{| p_text := runnerOverflowText; p_isError := true |}] None)
      st
  else
    let advanced :=
      if isAuthErrorMessage errorText || isRateLimitErrorMessage errorText
      then advanceAuthProfile env st
      else (Returned false, st) in
    match advanced with
    | (Threw e, st') => Finished (RunFailed e) st'
    | (Returned true, st') => Continue st'
    | (Returned false, st') =>
        match pickFallbackThinkingLevel normalizeThinkLevel (Some errorText)
                (attemptedThinking st') with
        | Some fallbackThinking => Continue (setThinkLevel fallbackThinking st')
        | None => Finished (RunFailed thrown) st'
        end
    end.

(** The cooldown mark of the rotation branch. *)
Definition markCurrentCooldown (st : RunState) : RunState :=
  match lastProfileId st with
  | Some profileId =>
      if truthy (lastProfileId st) then
        let n := attemptNo st in
        logEvents [EvMarkCooldown profileId]
          (setWorld
             (markAuthProfileCooldown (lockOk n OpCooldown) (clock n) profileId
                (world st)) st)
      else st
  | None => st
  end.

(** The branch that looks at the last assistant message. *)
Definition afterAssistant (env : RunEnv) (o : Outcome) (st : RunState) : Step :=
  let fallbackThinking :=
    pickFallbackThinkingLevel normalizeThinkLevel
      (lastAssistant o ≫= errorMessage) (attemptedThinking st) in
  match fallbackThinking, aborted o with
  | Some level, false => Continue (setThinkLevel level st)
  | _, _ =>
      let authFailure := isAuthAssistantError (lastAssistant o) in
      let rateLimitFailure := isRateLimitAssistantError (lastAssistant o) in
      let shouldRotate :=
        (negb (aborted o) && (authFailure || rateLimitFailure)) || timedOut o in
      if shouldRotate then
        match advanceAuthProfile env (markCurrentCooldown st) with
        | (Threw e, st') => Finished (RunFailed e) st'
        | (Returned true, st') => Continue st'
        | (Returned false, st') =>
            if fallbackConfigured env
            then Finished
                   (RunFailed
                      (ErrorObject (rotationFailureMessage o rateLimitFailure)))
                   st'
            else let '(r, st'') := finishRun env o st' in Finished r st''
        end
      else let '(r, st') := finishRun env o st in Finished r st'
  end.

(** What the loop body does once the attempt has ended:
    [if (promptError && !aborted)], so a thrown value that is falsy counts as
    no error. *)
Definition afterAttempt (env : RunEnv) (o : Outcome) (st : RunState) : Step :=
  match promptError o with
  | Some thrown =>
      if thrownTruthy thrown && negb (aborted o)
      then afterPromptError env thrown st
      else afterAssistant env o st
  | None => afterAssistant env o st
  end.

(** The [while (true)] loop; [fuel] bounds the number of attempts. *)
Fixpoint runLoop (env : RunEnv) (fuel : nat) (st : RunState)
  : option (RunResult * RunState) :=
  match fuel with
  | O => None
  | S fuel' =>
      let st1 := beginAttempt st in
      match engine (attemptNo st) (apiKeyInfo st) (thinkLevel st) with
      | AttemptThrew e => Some (RunFailed e, st1)
      | AttemptEnded o =>
          match afterAttempt env o st1 with
          | Continue st2 => runLoop env fuel' st2
          | Finished r st2 => Some (r, st2)
          end
      end
  end.

(** The state before the first key resolution. The run is taken in the
    default agent directory ([params.agentDir] unset, or naming it): the store
    is loaded with [ensureAuthProfileStore(agentDir)], while the marks are
    called without [agentDir] and so write the default directory's file,
    which is then the file that was loaded. *)
Definition initialState (env : RunEnv) (onDisk : AuthProfileStore) : RunState :=
  {| profileIndex := 0; thinkLevel := initialThinkLevel env;
     attemptedThinking := []; apiKeyInfo := None; lastProfileId := None;
     world := {| disk := onDisk; mem := onDisk |};
     attemptNo := 0; trace := [] |}.

Definition makeEnv (params : RunParams) (onDisk : AuthProfileStore) : RunEnv :=
  let explicit := trim <$> rp_authProfileId params in
  let profileOrder :=
    resolveAuthProfileOrder normalizeProviderId (clock 0) (rp_config params)
      onDisk (rp_provider params) explicit in
  {| env_params := params;
     explicitProfileId := explicit;
     profileCandidates :=
       match profileOrder with
       | [] => [None]
       | _ => map Some profileOrder
       end;
     initialThinkLevel := default off (rp_thinkLevel params) |}.

(** The first key resolution, before the loop. *)
Definition selectFirstProfile (env : RunEnv) (st : RunState)
  : Result unit * RunState :=
  let first := default None (head (profileCandidates env)) in
  match resolveKey (mem (world st)) first with
  | Returned info =>
      (Returned tt,
       logEvents [EvResolveKey first true] (selectProfile env 0 info st))
  | Threw err =>
      let st' := logEvents [EvResolveKey first false] st in
      if bool_decide (first = explicitProfileId env) then (Threw err, st')
      else
        match advanceAuthProfile env st' with
        | (Threw e, st'') => (Threw e, st'')
        | (Returned true, st'') => (Returned tt, st'')
        | (Returned false, st'') => (Threw err, st'')
        end
  end.

(** [runEmbeddedPiAgent], from the load of the store on (the model is taken
    to be known). [None] means that [fuel] attempts were not enough. *)
Definition runEmbeddedPiAgent (fuel : nat) (params : RunParams)
    (onDisk : AuthProfileStore) : option (RunResult * RunState) :=
  let env := makeEnv params onDisk in
  let st0 := initialState env onDisk in
  let profileOrder :=
    resolveAuthProfileOrder normalizeProviderId (clock 0) (rp_config params)
      onDisk (rp_provider params) (explicitProfileId env) in
  match explicitProfileId env with
  | Some explicit =>
      if truthy (explicitProfileId env) && negb (includes profileOrder explicit)
      then Some (RunFailed
                   (ErrorObject
                      (notConfiguredMessage explicit (rp_provider params))),
                 st0)
      else
        match selectFirstProfile env st0 with
        | (Returned _, st1) => runLoop env fuel st1
        | (Threw e, st1) => Some (RunFailed e, st1)
        end
  | None =>
      match selectFirstProfile env st0 with
      | (Returned _, st1) => runLoop env fuel st1
      | (Threw e, st1) => Some (RunFailed e, st1)
      end
  end.

End Runner.


(** The attempts of a trace: the candidate index and the thinking level of
    each. *)
Definition attemptOf (e : Event) : option (nat * ThinkLevel) :=
  match e with
  | EvAttempt index _ level => Some (index, level)
  | _ => None
  end.

Definition attemptsOf (t : list Event) : list (nat * ThinkLevel) :=
  omap attemptOf t.

(** An event that rotates credentials or puts one in cooldown. *)
Definition isRotationEvent (e : Event) : bool :=
  match e with
  | EvMarkCooldown _ | EvAdvance _ | EvResolveKey _ _ => true
  | _ => false
  end.

(** ** Fixtures for the run loop *)

(** Provider [p] with two API-key profiles, never used. *)
Definition twoKeyStore : AuthProfileStore :=
  mkStore [("p:a", mkApiKey "p" "key-a"); ("p:b", mkApiKey "p" "key-b")] [].

Definition plainParams (explicit : option string) : RunParams :=
  {| rp_config := None; rp_provider := "p"; rp_authProfileId := explicit;
     rp_thinkLevel := None |}.

(** A key resolver that finds a key for every candidate. *)
Definition resolveAnyKey (store : AuthProfileStore) (candidate : option string)
  : Result ApiKeyInfo :=
  Returned {| aki_apiKey := "key"; aki_profileId := candidate |}.

(** A key resolver that fails for one profile. *)
Definition resolveAllBut (broken : string) (store : AuthProfileStore)
    (candidate : option string) : Result ApiKeyInfo :=
  if bool_decide (candidate = Some broken)
  then Threw (ErrorObject "No credentials found for profile")
  else Returned {| aki_apiKey := "key"; aki_profileId := candidate |}.

Definition successOutcome : Outcome :=
  {| promptError := None; aborted := false; timedOut := false;
     lastAssistant :=
       Some {| stopReason := StopNormal; errorMessage := None |};
     replyTexts := ["done"] |}.

Definition promptThrew (message : string) : Outcome :=
  {| promptError := Some (ErrorObject message); aborted := false;
     timedOut := false; lastAssistant := None; replyTexts := [] |}.

Definition assistantFailed (message : string) : Outcome :=
  {| promptError := None; aborted := false; timedOut := false;
     lastAssistant :=
       Some {| stopReason := StopError; errorMessage := Some message |};
     replyTexts := [] |}.

(** An engine that plays a script, one outcome per attempt, and succeeds once
    the script is over. *)
Definition scriptedEngine (script : list Outcome) (attempt : nat)
    (key : option ApiKeyInfo) (level : ThinkLevel) : AttemptResult :=
  AttemptEnded (default successOutcome (script !! attempt)).

Definition fixedClock (attempt : nat) : Z := 1000.

Definition lockAlways (attempt : nat) (op : StoreOp) : bool := true.

(** The run of the fixtures: the first attempt ends as scripted, later ones
    succeed. *)
Definition scriptedRun (resolveKey : AuthProfileStore → option string →
                                     Result ApiKeyInfo)
    (script : list Outcome) (explicit : option string)
  : option (RunResult * RunState) :=
  runEmbeddedPiAgent normalizeProviderId_model normalizeThinkLevel_model
    resolveKey (scriptedEngine script) fixedClock lockAlways 10
    (plainParams explicit) twoKeyStore.


(** ** The loop invariant and its measure *)

(** At the head of the loop: the candidate index is in range, the level about
    to be tried is not in the attempted set, and every earlier attempt was
    made on an earlier candidate or, on this one, at a level of the set. *)
Definition loopInv (candidates : list (option string)) (st : RunState) : Prop :=
  (profileIndex st < length candidates)%nat
  ∧ (thinkLevel st ∉ attemptedThinking st)
  ∧ NoDup (attemptedThinking st)
  ∧ NoDup (attemptsOf (trace st))
  ∧ ∀ i l, (i, l) ∈ attemptsOf (trace st) →
      ((i < profileIndex st)%nat
       ∨ (i = profileIndex st ∧ l ∈ attemptedThinking st)).

(** Attempts still possible: five levels for each remaining candidate, less
    the levels already tried on the current one. *)
Definition loopMeasure (candidates : list (option string)) (st : RunState)
  : nat :=
  5 * (length candidates - profileIndex st) - length (attemptedThinking st).


(** What one pass through the code after an attempt may do to the loop
    state: finish, retry the same candidate at a level that was not tried on
    it, or move to a later candidate with an empty attempted set. *)
Definition stepOk (env : RunEnv) (st : RunState) (step : Step) : Prop :=
  match step with
  | Continue st' =>
      attemptsOf (trace st') = attemptsOf (trace st)
      ∧ ((profileIndex st' = profileIndex st
          ∧ attemptedThinking st' = attemptedThinking st
          ∧ thinkLevel st' ∉ attemptedThinking st)
         ∨ ((profileIndex st < profileIndex st'
               < length (profileCandidates env))%nat
            ∧ attemptedThinking st' = []))
  | Finished _ st' => attemptsOf (trace st') = attemptsOf (trace st)
  end.

(** ** Clearing a cooldown, and repeated failures *)



(** [markAuthProfileCooldown] called once at each of the given times, in
    order. *)
Definition markCooldownAt (locked : bool) (profileId : string)
    (times : list Z) (w : World) : World :=
  foldl (λ w' t, markAuthProfileCooldown locked t profileId w') w times.

(** The error count a store holds for a profile, [0] when it holds none. *)
Definition errorCountOf (s : AuthProfileStore) (profileId : string) : Z :=
  default 0 (statsOf s profileId ≫= errorCount).

(** A world with one anthropic API key on file and in memory. *)
Definition oneKeyWorld : World :=
  {| disk := anthropicStore; mem := anthropicStore |}.


(** [baseOrder] of [resolveAuthProfileOrder]: the configured order, else the
    profiles the config declares for the provider, else the stored ones. *)
Definition baseOrderOf (normalizeProviderId : string → string)
    (cfg : option ClawdbotConfig) (store : AuthProfileStore)
    (provider : string) : list string :=
  let providerKey := normalizeProviderId provider in
  match configuredOrderOf normalizeProviderId cfg providerKey with
  | Some o => o
  | None =>
      match explicitProfilesOf normalizeProviderId cfg providerKey with
      | [] => listProfilesForProvider normalizeProviderId store providerKey
      | explicitProfiles => explicitProfiles
      end
  end.


(** ** Fixtures for runs that end without a reply *)

(** Provider [p] with a single API key. *)
Definition singleKeyStore : AuthProfileStore :=
  mkStore [("p:a", mkApiKey "p" "key-a")] [].

(** Parameters of a run with a fallback model configured. *)
Definition fallbackModelParams : RunParams :=
  {| rp_config :=
       Some {| cfg_auth := None; cfg_fallbacks := ["q/other-model"] |};
     rp_provider := "p"; rp_authProfileId := None; rp_thinkLevel := None |}.

(** An attempt that the run's timer ended: [abortRun(true)] sets both
    flags. *)
Definition timedOutOutcome : Outcome :=
  {| promptError := None; aborted := true; timedOut := true;
     lastAssistant := None; replyTexts := [] |}.

(** An attempt that the caller aborted. *)
Definition abortedOutcome : Outcome :=
  {| promptError := Some (ErrorObject "429 aborted"); aborted := true;
     timedOut := false; lastAssistant := None; replyTexts := ["partial"] |}.

(** A key resolver that finds no key at all. *)
Definition resolveNoKey (store : AuthProfileStore) (candidate : option string)
  : Result ApiKeyInfo :=
  Threw (ErrorObject "No API key found").

(** The state in which the loop is entered when every key resolves. *)
Definition enteredState (params : RunParams) (store : AuthProfileStore)
  : RunState :=
  let env := makeEnv normalizeProviderId_model fixedClock params store in
  (selectFirstProfile resolveAnyKey env (initialState env store)).2.


(** ** Turn order of the transcript (pi-embedded-helpers.ts) *)

(** The [content] of a message: a string, an array of content blocks (kept
    opaque), or anything else. *)
Inductive MessageContent :=
| ContentString (text : string)
| ContentArray (blocks : list string)
| ContentOther.

(** An [AgentMessage] that is an object: the fields that the two functions
    below read or write, and [am_rest] for all the others, which a spread
    copies as they are. [am_usage] is the [usage] object when there is one. *)
Record MessageObject := {
  am_role : option string;
  am_content : MessageContent;
  am_usage : option string;
  am_stopReason : option string;
  am_errorMessage : option string;
  am_timestamp : option Z;
  am_rest : string;
}.

(** An element of the [messages] array: [null], [undefined] or a primitive,
    or an object. *)
Inductive AgentMessage :=
| NotAnObject
| MessageObj (m : MessageObject).

Definition GOOGLE_TURN_ORDER_BOOTSTRAP_TEXT : string := "(session bootstrap)".

(** [msg?.role] *)
Definition roleOf (msg : AgentMessage) : option string :=
  match msg with
  | MessageObj m => am_role m
  | NotAnObject => None
  end.

Definition hasRole (role : string) (msg : AgentMessage) : bool :=
  bool_decide (roleOf msg = Some role).

(** [sanitizeGoogleTurnOrdering]; [now] is [Date.now()]. *)
Definition sanitizeGoogleTurnOrdering (now : Z) (messages : list AgentMessage)
  : list AgentMessage :=
  let first := head messages in
  let isBootstrap :=
    match first with
    | Some (MessageObj m) =>
        bool_decide (am_role m = Some "user")
        && match am_content m with
           | ContentString text =>
               String.eqb (trim text) GOOGLE_TURN_ORDER_BOOTSTRAP_TEXT
           | _ => false
           end
    | _ => false
    end in
  if isBootstrap then messages
  else if negb (bool_decide (first ≫= roleOf = Some "assistant")) then messages
  else
    MessageObj
      {| am_role := Some "user";
         am_content := ContentString GOOGLE_TURN_ORDER_BOOTSTRAP_TEXT;
         am_usage := None; am_stopReason := None; am_errorMessage := None;
         am_timestamp := Some now; am_rest := "" |}
    :: messages.

(** [Array.isArray(content) ? content : []] *)
Definition blocksOf (m : MessageObject) : list string :=
  match am_content m with
  | ContentArray blocks => blocks
  | _ => []
  end.

(** The merged message of [validateGeminiTurns]: the earlier message with the
    content blocks of both, and [usage], [stopReason] and [errorMessage] of
    the later one where it has them. *)
Definition mergeTurns (lastAsst currentMsg : MessageObject) : MessageObject :=
  {| am_role := am_role lastAsst;
     am_content := ContentArray (blocksOf lastAsst ++ blocksOf currentMsg)%list;
     am_usage :=
       match am_usage currentMsg with
       | Some u => Some u
       | None => am_usage lastAsst
       end;
     am_stopReason :=
       if truthy (am_stopReason currentMsg) then am_stopReason currentMsg
       else am_stopReason lastAsst;
     am_errorMessage :=
       if truthy (am_errorMessage currentMsg) then am_errorMessage currentMsg
       else am_errorMessage lastAsst;
     am_timestamp := am_timestamp lastAsst;
     am_rest := am_rest lastAsst |}.

(** One pass of the loop of [validateGeminiTurns] over [result] and
    [lastRole]. *)
Definition geminiStep (st : list AgentMessage * option string)
    (msg : AgentMessage) : list AgentMessage * option string :=
  let '(result, lastRole) := st in
  match msg with
  | NotAnObject => ((result ++ [msg])%list, lastRole)
  | MessageObj currentMsg =>
      if negb (truthy (am_role currentMsg)) then ((result ++ [msg])%list, lastRole)
      else if bool_decide (am_role currentMsg = lastRole)
              && bool_decide (lastRole = Some "assistant")
      then
        match last result with
        | Some (MessageObj lastAsst) =>
            ((removelast result
              ++ [MessageObj (mergeTurns lastAsst currentMsg)])%list,
             lastRole)
        | _ => ((result ++ [msg])%list, am_role currentMsg)
        end
      else ((result ++ [msg])%list, am_role currentMsg)
  end.

(** [validateGeminiTurns] *)
Definition validateGeminiTurns (messages : list AgentMessage)
  : list AgentMessage :=
  match messages with
  | [] => messages
  | _ => (foldl geminiStep ([], None) messages).1
  end.

(** No two neighbours are both assistant turns. *)
Fixpoint noAdjacentAssistants (messages : list AgentMessage) : bool :=
  match messages with
  | a :: rest =>
      match rest with
      | b :: _ => negb (hasRole "assistant" a && hasRole "assistant" b)
      | [] => true
      end
      && noAdjacentAssistants rest
  | [] => true
  end.

(** The content blocks of a transcript, in order. *)
Definition allBlocks (messages : list AgentMessage) : list string :=
  flat_map (λ msg, match msg with
                   | MessageObj m => blocksOf m
                   | NotAnObject => []
                   end) messages.

(** The turns with a role other than [assistant]. *)
Definition otherTurns (messages : list AgentMessage) : list AgentMessage :=
  List.filter
    (λ msg, truthy (roleOf msg) && negb (hasRole "assistant" msg)) messages.


(** ** Suggesting an OAuth profile for a legacy default id *)

(** [getProfileSuffix]: what follows the first colon, the empty string when
    there is none. *)
Fixpoint getProfileSuffix (profileId : string) : string :=
  match profileId with
  | EmptyString => EmptyString
  | String c rest =>
      if (char_code c =? 58)%nat then rest else getProfileSuffix rest
  end.

(** [isEmailLike] *)
Definition isEmailLike (value : string) : bool :=
  match trim value with
  | EmptyString => false
  | trimmed => str_includes "@" trimmed && str_includes "." trimmed
  end.

Definition isStoredOAuth (store : AuthProfileStore) (profileId : string)
  : bool :=
  match obj_get (profiles store) profileId with
  | Some (OAuth _) => true
  | _ => false
  end.

Section OAuthSuggestion.

Variable normalizeProviderId : string → string.

(** [suggestOAuthProfileIdForLegacyDefault]; [None] is [null]. *)
Definition suggestOAuthProfileIdForLegacyDefault
    (cfg : option ClawdbotConfig) (store : AuthProfileStore)
    (provider legacyProfileId : string) : option string :=
  let providerKey := normalizeProviderId provider in
  let legacySuffix := getProfileSuffix legacyProfileId in
  if negb (String.eqb legacySuffix "default") then None
  else
    let legacyCfg := profileConfigOf cfg legacyProfileId in
    let declaredOtherMode :=
      match legacyCfg with
      | Some lc =>
          String.eqb (normalizeProviderId (pc_provider lc)) providerKey
          && negb (bool_decide (pc_mode lc = oauth))
      | None => false
      end in
    if declaredOtherMode then None
    else
      let oauthProfiles :=
        List.filter (isStoredOAuth store)
          (listProfilesForProvider normalizeProviderId store providerKey) in
      match oauthProfiles with
      | [] => None
      | _ :: _ =>
          let configuredEmail := trim <$> (legacyCfg ≫= pc_email) in
          let byEmail :=
            match configuredEmail with
            | Some email =>
                if truthy configuredEmail then
                  List.find
                    (λ id,
                       match obj_get (profiles store) id with
                       | Some (OAuth cred) =>
                           bool_decide (trim <$> oa_email cred = Some email)
                           || String.eqb id (providerKey +:+ ":" +:+ email)
                       | _ => false
                       end)
                    oauthProfiles
                else None
            | None => None
            end in
          if truthy byEmail then byEmail
          else
            let lastGoodId :=
              match lastGood store !! providerKey with
              | Some id => Some id
              | None => lastGood store !! provider
              end in
            if truthy lastGoodId
               && includes oauthProfiles (default "" lastGoodId)
            then lastGoodId
            else
              let nonLegacy :=
                List.filter (λ id, negb (String.eqb id legacyProfileId))
                  oauthProfiles in
              match nonLegacy with
              | [only] => Some only
              | _ =>
                  let emailLike :=
                    List.filter (λ id, isEmailLike (getProfileSuffix id))
                      nonLegacy in
                  match emailLike with
                  | [only] => Some only
                  | _ => None
                  end
              end
      end.

End OAuthSuggestion.

(** A store with the legacy default OAuth profile and one keyed by email. *)
Definition legacyOAuthStore : AuthProfileStore :=
  mkStore
    [("anthropic:default", mkOAuth "anthropic" 9000);
     ("anthropic:me@example.com", mkOAuth "anthropic" 9000)] [].


(** Provider [p] with two API keys: [p:a], in cooldown until 5000, and
    [p:b]. *)
Definition coolingFirstStore : AuthProfileStore :=
  mkStore [("p:a", mkApiKey "p" "key-a"); ("p:b", mkApiKey "p" "key-b")]
          [("p:a", coolingUntil 5000)].


(** ** The resolver with its effects *)

(** What a call of the resolver can reach besides its arguments: the store
    and config objects it is handed, by reference, and the clock. [js_reads]
    counts the calls of [Date.now()] made so far. *)
Record JsWorld := {
  js_store : AuthProfileStore;
  js_cfg : option ClawdbotConfig;
  js_reads : nat;
}.

(** A computation that may read and write the world. *)
Definition Js (A : Type) : Type := JsWorld → A * JsWorld.

#[global] Instance Js_ret : MRet Js := λ A a w, (a, w).
#[global] Instance Js_bind : MBind Js :=
  λ A B f m w, f (m w).1 (m w).2.

Definition readStore : Js AuthProfileStore := λ w, (js_store w, w).

Definition readConfig : Js (option ClawdbotConfig) := λ w, (js_cfg w, w).

(** An assignment into the store object, as the mark functions make. *)
Definition writeStore (s : AuthProfileStore) : Js unit :=
  λ w, (tt, {| js_store := s; js_cfg := js_cfg w; js_reads := js_reads w |}).

Section ResolverEffects.

Variable normalizeProviderId : string → string.

(** The reading of the clock at each call of [Date.now()]. *)
Variable clock : nat → Z.

Definition dateNow : Js Z :=
  λ w, (clock (js_reads w),
        {| js_store := js_store w; js_cfg := js_cfg w;
           js_reads := S (js_reads w) |}).

(** [isProfileInCooldown], which reads the clock itself, and only for a
    profile that has a [cooldownUntil]. *)
Definition isProfileInCooldownJs (profileId : string) : Js bool :=
  store ← readStore;
  match statsOf store profileId ≫= cooldownUntil with
  | None => mret false
  | Some c =>
      if c =? 0 then mret false
      else now ← dateNow; mret (now <? c)
  end.

(** The partition loop of [orderProfilesByMode]. *)
Fixpoint partitionByCooldownJs (order available inCooldown : list string)
  : Js (list string * list string) :=
  match order with
  | [] => mret (available, inCooldown)
  | profileId :: rest =>
      isCooling ← isProfileInCooldownJs profileId;
      if isCooling : bool
      then partitionByCooldownJs rest available (inCooldown ++ [profileId])%list
      else partitionByCooldownJs rest (available ++ [profileId])%list inCooldown
  end.

(** [orderProfilesByMode]: [now] is read once, before the loop; the arrays
    that are sorted in place are local. *)
Definition orderProfilesByModeJs (order : list string) : Js (list string) :=
  now ← dateNow;
  parts ← partitionByCooldownJs order [] [];
  store ← readStore;
  let sorted :=
    map sp_profileId (js_sort compareScored (map (score store) parts.1)) in
  let cooldownSorted :=
    map cp_profileId
      (js_sort compareCooling (map (cooling now store) parts.2)) in
  mret (sorted ++ cooldownSorted)%list.

(** [resolveAuthProfileOrder] *)
Definition resolveAuthProfileOrderJs (provider : string)
    (preferredProfile : option string) : Js (list string) :=
  cfg ← readConfig;
  store ← readStore;
  let providerKey := normalizeProviderId provider in
  let configuredOrder := configuredOrderOf normalizeProviderId cfg providerKey in
  let explicitProfiles :=
    explicitProfilesOf normalizeProviderId cfg providerKey in
  let baseOrder :=
    match configuredOrder with
    | Some o => o
    | None =>
        match explicitProfiles with
        | _ :: _ => explicitProfiles
        | [] => listProfilesForProvider normalizeProviderId store providerKey
        end
    end in
  match baseOrder with
  | [] => mret []
  | _ :: _ =>
      let filtered :=
        List.filter (providerMatches normalizeProviderId store providerKey)
          baseOrder in
      let deduped := dedupe_into [] filtered in
      match configuredOrder with
      | Some (_ :: _) => mret (preferFirst preferredProfile deduped)
      | _ =>
          sorted ← orderProfilesByModeJs deduped;
          mret (preferFirst preferredProfile sorted)
      end
  end.

End ResolverEffects.

(** A clock that shows 1000 for the first two readings and 6000 after. *)
Definition advancingClock (reading : nat) : Z :=
  if (reading <? 2)%nat then 1000 else 6000.

Definition coolingFirstWorld : JsWorld :=
  {| js_store := coolingFirstStore; js_cfg := None; js_reads := 0 |}.


(** Where a message of the result of [validateGeminiTurns] comes from: it is
    a message of the input as it was, or a message of the input that is an
    assistant turn or has no role, merged with assistant turns of the
    input. *)
Definition fromInput (messages : list AgentMessage) (m : AgentMessage)
  : Prop :=
  m ∈ messages
  ∨ ∃ first absorbed,
      m = MessageObj (foldl mergeTurns first absorbed)
      ∧ absorbed ≠ []
      ∧ MessageObj first ∈ messages
      ∧ (am_role first = Some "assistant" ∨ truthy (am_role first) = false)
      ∧ Forall (λ a, MessageObj a ∈ messages ∧ am_role a = Some "assistant")
          absorbed.

(** Fixtures: an assistant turn with content blocks, and an object without a
    role. *)
Definition assistantTurn (blocks : list string) : AgentMessage :=
  MessageObj
    {| am_role := Some "assistant"; am_content := ContentArray blocks;
       am_usage := None; am_stopReason := None; am_errorMessage := None;
       am_timestamp := None; am_rest := "" |}.

Definition rolelessObject (text : string) : AgentMessage :=
  MessageObj
    {| am_role := None; am_content := ContentString text;
       am_usage := None; am_stopReason := None; am_errorMessage := None;
       am_timestamp := None; am_rest := "" |}.

Definition userTurn (text : string) : AgentMessage :=
  MessageObj
    {| am_role := Some "user"; am_content := ContentString text;
       am_usage := None; am_stopReason := None; am_errorMessage := None;
       am_timestamp := None; am_rest := "" |}.


(* ===================================================================== *)
(** * Part II: properties                                                 *)
(* ===================================================================== *)

(** ** Cooldown schedule *)

Lemma cooldown_saturates (n : Z) :
  4 <= n -> calculateAuthProfileCooldownMs n = 3600000.
Proof.
  intros Hn. unfold calculateAuthProfileCooldownMs.
  rewrite (Z.max_r 1 n) by lia.
  rewrite (Z.min_r (n - 1) 3) by lia.
  reflexivity.
Qed.

Lemma cooldown_below_one (n : Z) :
  n <= 1 -> calculateAuthProfileCooldownMs n = 60000.
Proof.
  intros Hn. unfold calculateAuthProfileCooldownMs.
  rewrite (Z.max_l 1 n) by lia. reflexivity.
Qed.

Lemma cooldown_cases (n : Z) :
  calculateAuthProfileCooldownMs n = 60000 /\ n <= 1 \/
  calculateAuthProfileCooldownMs n = 300000 /\ n = 2 \/
  calculateAuthProfileCooldownMs n = 1500000 /\ n = 3 \/
  calculateAuthProfileCooldownMs n = 3600000 /\ 4 <= n.
Proof.
  destruct (Z_le_gt_dec n 1) as [H1|H1].
  { left. split; [by apply cooldown_below_one | done]. }
  destruct (Z.eq_dec n 2) as [->|H2]; [right; left; by split |].
  destruct (Z.eq_dec n 3) as [->|H3]; [right; right; left; by split |].
  right; right; right. split; [apply cooldown_saturates |]; lia.
Qed.

(** C1. For every integer error count [n >= 1] the cooldown equals
    [min(1 hour, 1 minute * 5^min(n-1, 3))] milliseconds: 60_000, 300_000,
    1_500_000 for n = 1, 2, 3 and 3_600_000 for every [n >= 4]; it is monotone
    non-decreasing and never exceeds one hour (for all [n], also below 1). *)
Theorem cooldown_schedule (n : Z) (Hn : 1 <= n) :
  calculateAuthProfileCooldownMs n
    = Z.min 3600000 (60000 * 5 ^ Z.min (n - 1) 3)
  /\ calculateAuthProfileCooldownMs 1 = 60000
  /\ calculateAuthProfileCooldownMs 2 = 300000
  /\ calculateAuthProfileCooldownMs 3 = 1500000
  /\ (4 <= n -> calculateAuthProfileCooldownMs n = 3600000)
  /\ calculateAuthProfileCooldownMs n <= calculateAuthProfileCooldownMs (n + 1)
  /\ (forall m : Z, calculateAuthProfileCooldownMs m <= 3600000).
Proof.
  repeat split; try reflexivity.
  - unfold calculateAuthProfileCooldownMs. by rewrite (Z.max_r 1 n) by lia.
  - apply cooldown_saturates.
  - destruct (cooldown_cases n) as [[-> ?]|[[-> ?]|[[-> ?]|[-> ?]]]];
      destruct (cooldown_cases (n + 1)) as [[-> ?]|[[-> ?]|[[-> ?]|[-> ?]]]];
      lia.
  - intros m.
    destruct (cooldown_cases m) as [[-> ?]|[[-> ?]|[[-> ?]|[-> ?]]]]; lia.
Qed.

Lemma cooldown_schedule_witness :
  calculateAuthProfileCooldownMs 5 = 3600000.
Proof.
  pose proof (cooldown_schedule 5 ltac:(lia)) as (_ & _ & _ & _ & H & _).
  apply H. lia.
Defined.

(** ** The stable sort *)

Section JsSortFacts.
Context {A : Type} (cmp : A → A → Z).

Definition cmp_le (x y : A) : Prop := cmp x y <= 0.

Lemma sort_insert_perm (x : A) (l : list A) : sort_insert cmp x l ≡ₚ x :: l.
Proof.
  induction l as [|y l IH]; simpl; [done |].
  destruct (cmp x y <=? 0); [done |].
  rewrite IH. apply perm_swap.
Qed.

Lemma js_sort_perm (l : list A) : js_sort cmp l ≡ₚ l.
Proof.
  induction l as [|x l IH]; simpl; [done |].
  rewrite sort_insert_perm. by rewrite IH.
Qed.

Hypothesis cmp_total : ∀ x y, cmp_le x y ∨ cmp_le y x.

Lemma sort_insert_hdrel (a x : A) (l : list A) :
  cmp_le a x → HdRel cmp_le a l → HdRel cmp_le a (sort_insert cmp x l).
Proof.
  intros Hax Hal. destruct l as [|y l]; simpl; [by constructor |].
  destruct (cmp x y <=? 0); constructor; [done |].
  by inversion Hal.
Qed.

Lemma sort_insert_sorted (x : A) (l : list A) :
  Sorted cmp_le l → Sorted cmp_le (sort_insert cmp x l).
Proof using cmp_total.
  induction 1 as [|y l Hl IH Hhd]; simpl.
  - repeat constructor.
  - destruct (Z.leb_spec (cmp x y) 0) as [Hle|Hgt].
    + constructor; [by constructor | by constructor].
    + constructor; [done |].
      apply sort_insert_hdrel; [| done].
      destruct (cmp_total x y) as [H|H]; [unfold cmp_le in H; lia | done].
Qed.

Lemma js_sort_sorted (l : list A) : Sorted cmp_le (js_sort cmp l).
Proof using cmp_total.
  induction l as [|x l IH]; simpl; [constructor |].
  by apply sort_insert_sorted.
Qed.

Hypothesis cmp_trans : ∀ x y z, cmp_le x y → cmp_le y z → cmp_le x z.

Lemma js_sort_strongly_sorted (l : list A) :
  StronglySorted cmp_le (js_sort cmp l).
Proof using cmp_total cmp_trans.
  apply Sorted.Sorted_StronglySorted; [| apply js_sort_sorted].
  intros x y z. apply cmp_trans.
Qed.

End JsSortFacts.

(** ** Ordering by mode *)

(** The order on available profiles: credential-type rank first, then
    [lastUsed]. *)
Definition availableLe (store : AuthProfileStore) (a b : string) : Prop :=
  typeScore store a < typeScore store b
  ∨ (typeScore store a = typeScore store b
     ∧ lastUsedOf store a <= lastUsedOf store b).

(** The order on profiles in cooldown: soonest expiry first. *)
Definition coolingLe (now : Z) (store : AuthProfileStore) (a b : string)
  : Prop :=
  cooldownUntilOf now store a <= cooldownUntilOf now store b.

Lemma compareScored_le (a b : ScoredProfile) :
  cmp_le compareScored a b ↔
  sp_typeScore a < sp_typeScore b
  ∨ (sp_typeScore a = sp_typeScore b ∧ sp_lastUsed a <= sp_lastUsed b).
Proof.
  unfold cmp_le, compareScored.
  destruct (Z.eqb_spec (sp_typeScore a) (sp_typeScore b)); simpl; lia.
Qed.

Lemma compareScored_total (a b : ScoredProfile) :
  cmp_le compareScored a b ∨ cmp_le compareScored b a.
Proof. rewrite !compareScored_le. lia. Qed.

Lemma compareScored_trans (a b c : ScoredProfile) :
  cmp_le compareScored a b → cmp_le compareScored b c →
  cmp_le compareScored a c.
Proof. rewrite !compareScored_le. lia. Qed.

Lemma compareCooling_total (a b : CoolingProfile) :
  cmp_le compareCooling a b ∨ cmp_le compareCooling b a.
Proof. unfold cmp_le, compareCooling. lia. Qed.

Lemma compareCooling_trans (a b c : CoolingProfile) :
  cmp_le compareCooling a b → cmp_le compareCooling b c →
  cmp_le compareCooling a c.
Proof. unfold cmp_le, compareCooling. lia. Qed.

(** Sorting the decorated entries and projecting the ids back sorts the ids
    by the decoration. *)
Lemma sorted_by_decoration {A B : Type} (deco : A → B) (proj : B → A)
    (cmp : B → B → Z) (l : list A) :
  (∀ x, proj (deco x) = x) →
  (∀ x y, cmp_le cmp x y ∨ cmp_le cmp y x) →
  (∀ x y z, cmp_le cmp x y → cmp_le cmp y z → cmp_le cmp x z) →
  let r := map proj (js_sort cmp (map deco l)) in
  r ≡ₚ l ∧ StronglySorted (λ a b, cmp_le cmp (deco a) (deco b)) r.
Proof.
  intros Hproj Htot Htr r. subst r.
  assert (Hperm : js_sort cmp (map deco l) ≡ₚ map deco l)
    by apply js_sort_perm.
  assert (Hall : Forall (λ e, deco (proj e) = e) (js_sort cmp (map deco l))).
  { rewrite Hperm. apply Forall_forall. intros e He.
    apply list_elem_of_fmap in He as (x & -> & _). by rewrite Hproj. }
  split.
  - rewrite Hperm. clear Hperm Hall.
    induction l as [|x l IH]; simpl; [done |]. by rewrite Hproj, IH.
  - pose proof (js_sort_strongly_sorted cmp Htot Htr (map deco l)) as Hs.
    clear Hperm. revert Hall.
    generalize dependent (js_sort cmp (map deco l)). intros s Hs.
    induction Hs as [|e s Hs IH Hfa]; intros Hall; simpl; [constructor |].
    inversion Hall as [|? ? He Hall']; subst.
    constructor; [by apply IH |].
    apply Forall_fmap. rewrite Forall_forall in Hfa, Hall' |- *.
    intros e' Hin. simpl. rewrite He, (Hall' e' Hin). by apply Hfa.
Qed.


Lemma StronglySorted_mono {A : Type} (R1 R2 : relation A) (l : list A) :
  (∀ x y, R1 x y → R2 x y) → StronglySorted R1 l → StronglySorted R2 l.
Proof.
  intros HR. induction 1 as [|a l Hs IH Hfa]; constructor; [done |].
  eapply Forall_impl; [exact Hfa | intros; by apply HR].
Qed.




(** The two halves of [orderProfilesByMode]. *)
Lemma orderProfilesByMode_halves (now : Z) (order : list string)
    (store : AuthProfileStore) :
  ∃ available cooling : list string,
    orderProfilesByMode now order store = (available ++ cooling)%list
    ∧ available
        ≡ₚ List.filter (λ p, negb (isProfileInCooldown now store p)) order
    ∧ cooling ≡ₚ List.filter (isProfileInCooldown now store) order
    ∧ StronglySorted (availableLe store) available
    ∧ StronglySorted (coolingLe now store) cooling.
Proof.
  unfold orderProfilesByMode.
  set (av := List.filter (λ p, negb (isProfileInCooldown now store p)) order).
  set (co := List.filter (isProfileInCooldown now store) order).
  destruct (sorted_by_decoration (score store) sp_profileId compareScored av)
    as [Hp1 Hs1];
    [done | apply compareScored_total | apply compareScored_trans |].
  destruct (sorted_by_decoration (cooling now store) cp_profileId
              compareCooling co) as [Hp2 Hs2];
    [done | apply compareCooling_total | apply compareCooling_trans |].
  eexists _, _. split; [reflexivity |]. repeat split; try done.
  - eapply StronglySorted_mono; [| exact Hs1].
    intros a b Hab. apply compareScored_le in Hab. exact Hab.
  - eapply StronglySorted_mono; [| exact Hs2].
    intros a b Hab. unfold cmp_le, compareCooling in Hab. simpl in Hab.
    unfold coolingLe. lia.
Qed.

Lemma includes_app (l1 l2 : list string) (x : string) :
  includes (l1 ++ l2) x = includes l1 x || includes l2 x.
Proof. apply existsb_app. Qed.

Lemma includes_elem_of (l : list string) (x : string) :
  includes l x = true ↔ x ∈ l.
Proof.
  unfold includes. rewrite existsb_exists, list_elem_of_In. split.
  - intros (y & Hy & Heq). apply String.eqb_eq in Heq. by subst.
  - intros Hx. exists x. split; [done | apply String.eqb_refl].
Qed.




(** ** The resolver on the repository's test cases *)

Example test_uses_stored_profiles :
  resolveAuthProfileOrder normalizeProviderId_model 0 None anthropicStore
    "anthropic" None
  = ["anthropic:default"; "anthropic:work"].
Proof. vm_compute. reflexivity. Qed.

Example test_prioritizes_preferred :
  resolveAuthProfileOrder normalizeProviderId_model 0
    (mkConfig (Some anthropicProfilesCfg) None) anthropicStore
    "anthropic" (Some "anthropic:work")
  = ["anthropic:work"; "anthropic:default"].
Proof. vm_compute. reflexivity. Qed.

Example test_configured_order :
  resolveAuthProfileOrder normalizeProviderId_model 0
    (mkConfig (Some anthropicProfilesCfg)
       (Some [("anthropic", ["anthropic:work"; "anthropic:default"])]))
    anthropicStore "anthropic" None
  = ["anthropic:work"; "anthropic:default"].
Proof. vm_compute. reflexivity. Qed.

Example test_provider_casing_in_order_keys :
  resolveAuthProfileOrder normalizeProviderId_model 0
    (mkConfig None (Some [("OpenAI", ["openai:work"; "openai:default"])]))
    (mkStore [("openai:default", mkApiKey "openai" "sk-default");
              ("openai:work", mkApiKey "openai" "sk-work")] [])
    "openai" None
  = ["openai:work"; "openai:default"].
Proof. vm_compute. reflexivity. Qed.

Example test_oauth_before_api_key :
  resolveAuthProfileOrder normalizeProviderId_model 1000 None
    (mkStore [("anthropic:default", mkApiKey "anthropic" "sk-default");
              ("anthropic:oauth", mkOAuth "anthropic" 61000)] [])
    "anthropic" None
  = ["anthropic:oauth"; "anthropic:default"].
Proof. vm_compute. reflexivity. Qed.

(** Profiles A (oauth, lastUsed 100) and B (api_key, lastUsed 50). *)
Example test_round_robin_within_type :
  orderProfilesByMode 1000 ["B"; "A"]
    (mkStore [("A", mkOAuth "p" 61000); ("B", mkApiKey "p" "k")]
             [("A", usedAt 100); ("B", usedAt 50)])
  = ["A"; "B"].
Proof. vm_compute. reflexivity. Qed.

Example test_cooldown_profiles_last :
  resolveAuthProfileOrder normalizeProviderId_model 1000 None
    (mkStore [("anthropic:ready", mkApiKey "anthropic" "sk-ready");
              ("anthropic:cool1", mkOAuth "anthropic" 61000);
              ("anthropic:cool2", mkApiKey "anthropic" "sk-cool")]
             [("anthropic:ready", usedAt 50);
              ("anthropic:cool1", coolingUntil 6000);
              ("anthropic:cool2", coolingUntil 2000)])
    "anthropic" None
  = ["anthropic:ready"; "anthropic:cool2"; "anthropic:cool1"].
Proof. vm_compute. reflexivity. Qed.

(** ** Explicit order *)

Lemma filter_filter_pointwise {A : Type} (f g h : A → bool) (l : list A) :
  (∀ x, h x = g x && f x) →
  List.filter f (List.filter g l) = List.filter h l.
Proof.
  intros Hh. induction l as [|x l IH]; simpl; [done |].
  rewrite Hh. destruct (g x); simpl; [| done].
  destruct (f x); by rewrite IH.
Qed.

(** The dedupe loop keeps what is not yet in the accumulator. *)
Lemma dedupe_into_acc (acc entries : list string) :
  dedupe_into acc entries
  = (acc ++ List.filter (λ e, negb (includes acc e)) (dedupe_into [] entries))%list.
Proof.
  revert acc. induction entries as [|e rest IH]; intros acc; simpl.
  - by rewrite app_nil_r.
  - rewrite (IH [e]). simpl.
    change (existsb (String.eqb e) acc) with (includes acc e).
    destruct (includes acc e) eqn:Hin; simpl.
    + rewrite IH. f_equal. symmetry.
      apply filter_filter_pointwise. intros x. rewrite orb_false_r.
      destruct (String.eqb_spec x e) as [->|]; simpl; [by rewrite Hin | done].
    + rewrite IH, <-app_assoc. simpl. do 2 f_equal. symmetry.
      apply filter_filter_pointwise. intros x.
      rewrite includes_app. unfold includes at 2. simpl.
      rewrite !orb_false_r, negb_orb. apply andb_comm.
Qed.

(** Duplicates are removed by keeping first occurrences. *)
Lemma dedupe_first_occurrence (x : string) (l : list string) :
  dedupe_into [] (x :: l)
  = x :: List.filter (λ e, negb (String.eqb e x)) (dedupe_into [] l).
Proof.
  simpl. rewrite dedupe_into_acc. simpl. f_equal.
  apply filter_ext. intros e. unfold includes. simpl. by rewrite orb_false_r.
Qed.

Lemma filter_all_true {A : Type} (f : A → bool) (l : list A) :
  (∀ x, x ∈ l → f x = true) → List.filter f l = l.
Proof.
  induction l as [|x l IH]; intros H; simpl; [done |].
  rewrite H by constructor. f_equal. apply IH. intros y Hy. apply H.
  by constructor.
Qed.

(** C5 (as the code has it). With a non-empty explicit order for the provider
    the resolver returns that order, without the entries whose stored
    credential is for another provider, duplicates removed (first occurrence
    kept), whatever the cooldowns and [lastUsed] say; a non-empty preferred
    profile that is in this list moves to the front, one that is not in it
    is not inserted. When no entry is stored under another provider the result
    is exactly the deduplicated configured order. *)
Theorem explicit_order_respected (normalizeProviderId : string → string)
    (now : Z) (cfg : option ClawdbotConfig) (store : AuthProfileStore)
    (provider : string) (preferredProfile : option string)
    (configured : list string)
    (Hcfg : configuredOrderOf normalizeProviderId cfg
              (normalizeProviderId provider) = Some configured)
    (Hne : configured ≠ []) :
  let kept :=
    List.filter
      (providerMatches normalizeProviderId store (normalizeProviderId provider))
      configured in
  let deduped := dedupe_into [] kept in
  let result :=
    resolveAuthProfileOrder normalizeProviderId now cfg store provider
      preferredProfile in
  result = preferFirst preferredProfile deduped
  ∧ ((∀ p, p ∈ configured →
        providerMatches normalizeProviderId store
          (normalizeProviderId provider) p = true) →
     kept = configured)
  ∧ dedupe_into [] [] = []
  ∧ (∀ x l, dedupe_into [] (x :: l)
       = x :: List.filter (λ e, negb (String.eqb e x)) (dedupe_into [] l))
  ∧ (preferredProfile = None → result = deduped)
  ∧ (∀ p, preferredProfile = Some p → p ≠ "" → p ∈ deduped →
       result = p :: List.filter (λ e, negb (String.eqb e p)) deduped)
  ∧ (∀ p, preferredProfile = Some p → p ∉ deduped → result = deduped).
Proof.
  intros kept deduped result.
  assert (Hres : result = preferFirst preferredProfile deduped).
  { subst result. unfold resolveAuthProfileOrder. rewrite Hcfg.
    destruct configured as [|c0 cs]; [done | reflexivity]. }
  split; [exact Hres |].
  split; [intros Hall; by apply filter_all_true |].
  split; [reflexivity |].
  split; [apply dedupe_first_occurrence |].
  split; [intros ->; by rewrite Hres |].
  split.
  - intros p -> Hp Hin. rewrite Hres. unfold preferFirst.
    apply includes_elem_of in Hin. rewrite Hin.
    destruct p; [done | reflexivity].
  - intros p -> Hnotin. rewrite Hres. unfold preferFirst.
    destruct (includes deduped p) eqn:Hin.
    + apply includes_elem_of in Hin. done.
    + by rewrite andb_false_r.
Qed.

Lemma explicit_order_respected_witness :
  resolveAuthProfileOrder normalizeProviderId_model 0
    (mkConfig (Some anthropicProfilesCfg)
       (Some [("anthropic",
               ["anthropic:work"; "anthropic:default"; "anthropic:work"])]))
    anthropicStore "anthropic" (Some "anthropic:default")
  = ["anthropic:default"; "anthropic:work"].
Proof.
  pose proof (explicit_order_respected normalizeProviderId_model 0
    (mkConfig (Some anthropicProfilesCfg)
       (Some [("anthropic",
               ["anthropic:work"; "anthropic:default"; "anthropic:work"])]))
    anthropicStore "anthropic" (Some "anthropic:default")
    ["anthropic:work"; "anthropic:default"; "anthropic:work"]
    eq_refl ltac:(discriminate)) as [H _].
  exact H.
Defined.

(** As the design words it the property fails: an entry of the configured order whose stored
    credential belongs to another provider is dropped, so the result is not
    the configured order with duplicates removed. *)
Lemma explicit_order_drops_other_provider :
  configuredOrderOf normalizeProviderId_model crossProviderOrderCfg
    (normalizeProviderId_model "anthropic")
    = Some ["openai:default"; "anthropic:work"]
  ∧ resolveAuthProfileOrder normalizeProviderId_model 0 crossProviderOrderCfg
      mixedProviderStore "anthropic" None
    = ["anthropic:work"]
  ∧ resolveAuthProfileOrder normalizeProviderId_model 0 crossProviderOrderCfg
      mixedProviderStore "anthropic" None
    ≠ dedupe_into [] ["openai:default"; "anthropic:work"].
Proof.
  split; [vm_compute; reflexivity |].
  split; [vm_compute; reflexivity | vm_compute; discriminate].
Qed.

(** ** Determinism *)

Section ResolverEffectFacts.
Variable normalizeProviderId : string → string.
Variable clock : nat → Z.
Variable now : Z.

(** The same current time at every reading of the clock. *)
Hypothesis same_time : ∀ reading, clock reading = now.

(** A computation that leaves store and config as they are and returns [a]. *)
Local Abbreviation returns m w a :=
  ((m w).1 = a ∧ js_store (m w).2 = js_store w ∧ js_cfg (m w).2 = js_cfg w).

Lemma js_bind_run {A B : Type} (m : Js A) (f : A → Js B) (w : JsWorld) :
  (m ≫= f) w = f (m w).1 (m w).2.
Proof. reflexivity. Qed.

Lemma js_ret_run {A : Type} (a : A) (w : JsWorld) : (mret a : Js A) w = (a, w).
Proof. reflexivity. Qed.

Lemma isProfileInCooldownJs_spec (profileId : string) (w : JsWorld) :
  returns (isProfileInCooldownJs clock profileId) w
    (isProfileInCooldown now (js_store w) profileId).
Proof using same_time.
  unfold isProfileInCooldownJs, isProfileInCooldown.
  rewrite js_bind_run. unfold readStore. cbn [fst snd].
  destruct (statsOf (js_store w) profileId ≫= cooldownUntil) as [c|];
    [| by rewrite js_ret_run].
  destruct (c =? 0); [by rewrite js_ret_run |].
  rewrite js_bind_run, js_ret_run. unfold dateNow.
  cbn [fst snd js_store js_cfg]. by rewrite same_time.
Qed.

Lemma partitionByCooldownJs_spec (order available inCooldown : list string)
    (w : JsWorld) :
  returns (partitionByCooldownJs clock order available inCooldown) w
    ((available
      ++ List.filter (λ p, negb (isProfileInCooldown now (js_store w) p))
           order)%list,
     (inCooldown
      ++ List.filter (isProfileInCooldown now (js_store w)) order)%list).
Proof using same_time.
  revert available inCooldown w.
  induction order as [|profileId rest IH]; intros available inCooldown w.
  - cbn [partitionByCooldownJs List.filter]. rewrite js_ret_run.
    by rewrite !app_nil_r.
  - cbn [partitionByCooldownJs]. rewrite js_bind_run.
    destruct (isProfileInCooldownJs_spec profileId w) as (Hr & Hs & Hc).
    rewrite Hr. cbn [List.filter].
    destruct (isProfileInCooldown now (js_store w) profileId); cbn [negb].
    + destruct (IH available (inCooldown ++ [profileId])%list
                  (isProfileInCooldownJs clock profileId w).2)
        as (Hr' & Hs' & Hc').
      rewrite Hr', Hs', Hc', Hs, Hc, <-app_assoc. done.
    + destruct (IH (available ++ [profileId])%list inCooldown
                  (isProfileInCooldownJs clock profileId w).2)
        as (Hr' & Hs' & Hc').
      rewrite Hr', Hs', Hc', Hs, Hc, <-app_assoc. done.
Qed.

Lemma orderProfilesByModeJs_spec (order : list string) (w : JsWorld) :
  returns (orderProfilesByModeJs clock order) w
    (orderProfilesByMode now order (js_store w)).
Proof using same_time.
  unfold orderProfilesByModeJs, orderProfilesByMode.
  rewrite !js_bind_run. unfold readStore. rewrite js_ret_run. cbn [fst snd].
  set (w1 := (dateNow clock w).2).
  assert (Hw1 : js_store w1 = js_store w ∧ js_cfg w1 = js_cfg w) by done.
  destruct Hw1 as [Hs1 Hc1].
  destruct (partitionByCooldownJs_spec order [] [] w1) as (Hr & Hs & Hc).
  rewrite Hr, Hs, Hc, Hs1, Hc1. cbn [fst snd app].
  unfold dateNow. cbn [fst]. by rewrite same_time.
Qed.

Lemma resolveAuthProfileOrderJs_spec (provider : string)
    (preferredProfile : option string) (w : JsWorld) :
  returns
    (resolveAuthProfileOrderJs normalizeProviderId clock provider
       preferredProfile) w
    (resolveAuthProfileOrder normalizeProviderId now (js_cfg w) (js_store w)
       provider preferredProfile).
Proof using same_time.
  unfold resolveAuthProfileOrderJs, resolveAuthProfileOrder.
  rewrite !js_bind_run. unfold readConfig, readStore. cbn [fst snd]. cbv zeta.
  set (base := match configuredOrderOf _ _ _ with Some o => o | None => _ end).
  destruct base as [|b0 bs]; [by rewrite js_ret_run |].
  set (deduped := dedupe_into [] _).
  destruct (orderProfilesByModeJs_spec deduped w) as (Hr & Hs & Hc).
  destruct (configuredOrderOf _ _ _) as [[|c0 cs]|];
    rewrite ?js_bind_run, js_ret_run; cbn [fst snd]; by rewrite ?Hr.
Qed.

(** C9. Two invocations of the resolver, one after the other, with the same
    provider and preferred profile on the same store and config objects and
    at the same current time, return the same list. The resolver writes
    neither to the store nor to the config, so the second invocation finds
    what the first one found; it reads the clock several times (once in
    [orderProfilesByMode], once for every profile with a [cooldownUntil]), and
    the list is the value of the resolver at that one time. *)
Theorem resolve_order_deterministic (provider : string)
    (preferredProfile : option string) (world : JsWorld) :
  let resolve :=
    resolveAuthProfileOrderJs normalizeProviderId clock provider
      preferredProfile in
  let first := resolve world in
  let second := resolve first.2 in
  first.1 = second.1
  ∧ js_store first.2 = js_store world
  ∧ js_cfg first.2 = js_cfg world
  ∧ js_store second.2 = js_store world
  ∧ js_cfg second.2 = js_cfg world
  ∧ first.1
    = resolveAuthProfileOrder normalizeProviderId now (js_cfg world)
        (js_store world) provider preferredProfile.
Proof using same_time.
  cbv zeta.
  destruct (resolveAuthProfileOrderJs_spec provider preferredProfile world)
    as (Hr1 & Hs1 & Hc1).
  destruct (resolveAuthProfileOrderJs_spec provider preferredProfile
              (resolveAuthProfileOrderJs normalizeProviderId clock provider
                 preferredProfile world).2) as (Hr2 & Hs2 & Hc2).
  rewrite Hr2, Hs2, Hc2, Hr1, Hs1, Hc1. done.
Qed.

End ResolverEffectFacts.

Lemma resolve_order_deterministic_witness :
  let resolve :=
    resolveAuthProfileOrderJs normalizeProviderId_model fixedClock "p"
      (Some "p:b") in
  (resolve coolingFirstWorld).1 = ["p:b"; "p:a"]
  ∧ (resolve (resolve coolingFirstWorld).2).1 = ["p:b"; "p:a"].
Proof.
  intros resolve.
  destruct (resolve_order_deterministic normalizeProviderId_model fixedClock
              1000 ltac:(reflexivity) "p" (Some "p:b") coolingFirstWorld)
    as (H12 & _ & _ & _ & _ & H1).
  cbv zeta in H12, H1. subst resolve. split.
  - rewrite H1. reflexivity.
  - rewrite <-H12, H1. reflexivity.
Defined.

(** Both provisos are needed. When the clock moves past the end of a
    cooldown between two invocations, the second one returns another list;
    and so it does when the store is written to in between, here by the
    cooldown mark for [p:b]. *)
Example resolver_follows_clock_and_store :
  let later :=
    resolveAuthProfileOrderJs normalizeProviderId_model advancingClock "p"
      None in
  let resolve :=
    resolveAuthProfileOrderJs normalizeProviderId_model fixedClock "p" None in
  let marked :=
    mem (markAuthProfileCooldown true 1000 "p:b"
           {| disk := coolingFirstStore; mem := coolingFirstStore |}) in
  (later coolingFirstWorld).1 = ["p:b"; "p:a"]
  ∧ (later (later coolingFirstWorld).2).1 = ["p:a"; "p:b"]
  ∧ (resolve coolingFirstWorld).1 = ["p:b"; "p:a"]
  ∧ ((writeStore marked ≫= λ _, resolve) (resolve coolingFirstWorld).2).1
    = ["p:a"; "p:b"].
Proof. vm_compute. repeat split; reflexivity. Qed.

(** ** Config mismatches when resolving a key *)

Section ResolveApiKeyFacts.
Variable stringifyTokenProject : string → option string → string.
Variable refreshExpired :
  option ClawdbotConfig → AuthProfileStore → string → OAuthCredential →
  Result (option ResolvedKey).

Local Abbreviation resolve :=
  (resolveApiKeyForProfile stringifyTokenProject refreshExpired).
Local Abbreviation resolveStored :=
  (resolveStoredCredential stringifyTokenProject refreshExpired).

(** C10. When the config declares the profile with a provider other than the
    stored credential's, or with a mode other than the stored credential's
    type, [resolveApiKeyForProfile] returns [null] and does not throw; the one
    exception is mode [oauth] over a stored [token], for which resolution goes
    on as it does for a profile the config does not declare. *)
Theorem config_mismatch_returns_null (now : Z) (cfg : option ClawdbotConfig)
    (store : AuthProfileStore) (profileId : string)
    (cred : AuthProfileCredential) (pc : AuthProfileConfig)
    (Hcred : obj_get (profiles store) profileId = Some cred)
    (Hpc : profileConfigOf cfg profileId = Some pc) :
  (pc_provider pc ≠ cred_provider cred →
     resolve now cfg store profileId = Returned None)
  ∧ (pc_mode pc ≠ cred_type cred →
     ¬ (pc_mode pc = oauth ∧ cred_type cred = token) →
     resolve now cfg store profileId = Returned None)
  ∧ (pc_provider pc = cred_provider cred →
     pc_mode pc = oauth → cred_type cred = token →
     resolve now cfg store profileId
       = resolveStored now cfg store profileId cred
     ∧ ∃ t, cred = Token t
         ∧ resolveStored now cfg store profileId cred
           = resolveStoredCredential stringifyTokenProject refreshExpired
               now None store profileId (Token t))
  ∧ (pc_provider pc = cred_provider cred → pc_mode pc = cred_type cred →
     resolve now cfg store profileId
       = resolveStored now cfg store profileId cred).
Proof.
  unfold resolveApiKeyForProfile. rewrite Hcred, Hpc.
  split; [| split; [| split]].
  - intros Hne. destruct (String.eqb_spec (pc_provider pc) (cred_provider cred));
      [done | reflexivity].
  - intros Hmode Hexc.
    destruct (String.eqb_spec (pc_provider pc) (cred_provider cred));
      [simpl | reflexivity].
    rewrite bool_decide_eq_false_2 by done. simpl.
    destruct (bool_decide_reflect (pc_mode pc = oauth)); simpl; [| done].
    destruct (bool_decide_reflect (cred_type cred = token)); simpl; [| done].
    exfalso. by apply Hexc.
  - intros Hprov Hmode Htype. split.
    + rewrite Hprov, String.eqb_refl. simpl. rewrite Hmode, Htype. reflexivity.
    + destruct cred as [k|t|o]; try discriminate. by exists t.
  - intros Hprov Hmode. rewrite Hprov, String.eqb_refl. simpl.
    rewrite bool_decide_eq_true_2 by done. reflexivity.
Qed.

End ResolveApiKeyFacts.

Lemma config_mismatch_returns_null_witness :
  resolveApiKeyForProfile plainStringify refreshAlwaysFails 1000
    claudeAsApiKeyCfg claudeTokenStore CLAUDE_CLI_PROFILE_ID
  = Returned None.
Proof.
  pose proof (config_mismatch_returns_null plainStringify refreshAlwaysFails
    1000 claudeAsApiKeyCfg claudeTokenStore CLAUDE_CLI_PROFILE_ID
    (mkToken "anthropic" "store-access" (Some 5000)) (apiKeyMode "anthropic")
    eq_refl eq_refl) as (_ & H & _).
  apply H; [discriminate | intros [? ?]; discriminate].
Defined.

(** The compatibility case: mode [oauth] over a stored token resolves. *)
Example oauth_mode_accepts_stored_token :
  resolveApiKeyForProfile plainStringify refreshAlwaysFails 1000
    (mkConfig (Some [(CLAUDE_CLI_PROFILE_ID,
                      {| pc_provider := "anthropic"; pc_mode := oauth;
                         pc_email := None |})]) None)
    claudeTokenStore CLAUDE_CLI_PROFILE_ID
  = Returned (Some {| rk_apiKey := "store-access"; rk_provider := "anthropic";
                      rk_email := None |}).
Proof. vm_compute. reflexivity. Qed.

(** ** Syncing external CLI credentials *)

Lemma obj_get_set {V : Type} (o : list (string * V)) (k k' : string) (v : V) :
  obj_get (obj_set o k v) k'
  = if String.eqb k k' then Some v else obj_get o k'.
Proof.
  induction o as [|[k0 w] o IH]; simpl.
  - done.
  - destruct (String.eqb_spec k0 k) as [->|Hne]; simpl.
    + by destruct (String.eqb k k').
    + rewrite IH. destruct (String.eqb_spec k k') as [->|]; [| done].
      by rewrite (proj2 (String.eqb_neq k0 k')).
Qed.

Lemma syncClaudeCli_other (now : Z) (c : TokenCredential)
    (store : AuthProfileStore) (pid : string) :
  pid ≠ CLAUDE_CLI_PROFILE_ID →
  obj_get (profiles (syncClaudeCli now c store).1) pid
  = obj_get (profiles store) pid.
Proof.
  intros Hne. unfold syncClaudeCli.
  match goal with |- context [if ?b then _ else _] => destruct b end;
    simpl; [| done].
  rewrite obj_get_set.
  by rewrite (proj2 (String.eqb_neq CLAUDE_CLI_PROFILE_ID pid)).
Qed.

Lemma syncCodexCli_other (now : Z) (c : OAuthCredential)
    (store : AuthProfileStore) (pid : string) :
  pid ≠ CODEX_CLI_PROFILE_ID →
  obj_get (profiles (syncCodexCli now c store).1) pid
  = obj_get (profiles store) pid.
Proof.
  intros Hne. unfold syncCodexCli.
  match goal with |- context [if ?b then _ else _] => destruct b end;
    simpl; [| done].
  rewrite obj_get_set.
  by rewrite (proj2 (String.eqb_neq CODEX_CLI_PROFILE_ID pid)).
Qed.

(** What the Claude CLI half leaves under its profile id. *)
Lemma syncClaudeCli_kept (now : Z) (c t : TokenCredential)
    (store : AuthProfileStore) :
  obj_get (profiles store) CLAUDE_CLI_PROFILE_ID = Some (Token t) →
  tk_provider t = "anthropic" →
  now < default 0 (tk_expires t) →
  default 0 (tk_expires c) <= default 0 (tk_expires t) →
  syncClaudeCli now c store = (store, false).
Proof.
  intros Hget Hprov Hlive Hle. unfold syncClaudeCli. rewrite Hget, Hprov.
  simpl.
  rewrite (proj2 (Z.leb_gt _ _)) by lia.
  rewrite (proj2 (Z.ltb_ge (default 0 (tk_expires t)) _)) by lia.
  by rewrite andb_false_r.
Qed.

Lemma syncCodexCli_kept (now : Z) (c o : OAuthCredential)
    (store : AuthProfileStore) :
  obj_get (profiles store) CODEX_CLI_PROFILE_ID = Some (OAuth o) →
  oa_provider o = "openai-codex" →
  now < oa_expires o →
  oa_expires c <= oa_expires o →
  syncCodexCli now c store = (store, false).
Proof.
  intros Hget Hprov Hlive Hle. unfold syncCodexCli. rewrite Hget, Hprov.
  simpl.
  rewrite (proj2 (Z.leb_gt _ _)) by lia.
  by rewrite (proj2 (Z.ltb_ge _ _)) by lia.
Qed.

Lemma syncClaudeCli_stays_token (now : Z) (c : TokenCredential)
    (store : AuthProfileStore) (cred : AuthProfileCredential) :
  obj_get (profiles (syncClaudeCli now c store).1) CLAUDE_CLI_PROFILE_ID
    = Some cred →
  obj_get (profiles store) CLAUDE_CLI_PROFILE_ID = Some cred
  ∨ cred = Token c.
Proof.
  unfold syncClaudeCli.
  match goal with |- context [if ?b then _ else _] => destruct b end;
    simpl; [| by left].
  rewrite obj_get_set, String.eqb_refl. intros [= <-]. by right.
Qed.

Lemma syncCodexCli_stays_oauth (now : Z) (c : OAuthCredential)
    (store : AuthProfileStore) (cred : AuthProfileCredential) :
  obj_get (profiles (syncCodexCli now c store).1) CODEX_CLI_PROFILE_ID
    = Some cred →
  obj_get (profiles store) CODEX_CLI_PROFILE_ID = Some cred
  ∨ cred = OAuth c.
Proof.
  unfold syncCodexCli.
  match goal with |- context [if ?b then _ else _] => destruct b end;
    simpl; [| by left].
  rewrite obj_get_set, String.eqb_refl. intros [= <-]. by right.
Qed.

Lemma reserved_ids_differ : CLAUDE_CLI_PROFILE_ID ≠ CODEX_CLI_PROFILE_ID.
Proof. discriminate. Qed.

Lemma sync_get_claude (now : Z) (claude : option TokenCredential)
    (codex : option OAuthCredential) (store : AuthProfileStore) :
  obj_get (profiles (syncExternalCliCredentials now claude codex store).1)
    CLAUDE_CLI_PROFILE_ID
  = match claude with
    | Some c =>
        obj_get (profiles (syncClaudeCli now c store).1) CLAUDE_CLI_PROFILE_ID
    | None => obj_get (profiles store) CLAUDE_CLI_PROFILE_ID
    end.
Proof.
  unfold syncExternalCliCredentials.
  destruct claude as [c|], codex as [d|]; simpl.
  - destruct (syncClaudeCli now c store) as [s1 m1] eqn:E1.
    destruct (syncCodexCli now d s1) as [s2 m2] eqn:E2. simpl.
    change s2 with (s2, m2).1. rewrite <-E2.
    apply syncCodexCli_other, reserved_ids_differ.
  - by destruct (syncClaudeCli now c store).
  - destruct (syncCodexCli now d store) as [s2 m2] eqn:E2. simpl.
    change s2 with (s2, m2).1. rewrite <-E2.
    apply syncCodexCli_other, reserved_ids_differ.
  - done.
Qed.

Lemma sync_get_codex (now : Z) (claude : option TokenCredential)
    (codex : option OAuthCredential) (store : AuthProfileStore) :
  ∃ store1,
    obj_get (profiles store1) CODEX_CLI_PROFILE_ID
      = obj_get (profiles store) CODEX_CLI_PROFILE_ID
    ∧ obj_get (profiles (syncExternalCliCredentials now claude codex store).1)
        CODEX_CLI_PROFILE_ID
      = match codex with
        | Some d =>
            obj_get (profiles (syncCodexCli now d store1).1)
              CODEX_CLI_PROFILE_ID
        | None => obj_get (profiles store1) CODEX_CLI_PROFILE_ID
        end.
Proof.
  unfold syncExternalCliCredentials.
  destruct claude as [c|].
  - exists (syncClaudeCli now c store).1. split.
    + apply syncClaudeCli_other. intros H. by apply reserved_ids_differ.
    + destruct (syncClaudeCli now c store) as [s1 m1]. simpl.
      destruct codex as [d|]; [| done].
      by destruct (syncCodexCli now d s1).
  - exists store. split; [done |].
    destruct codex as [d|]; [| done].
    by destruct (syncCodexCli now d store).
Qed.

Lemma sync_get_other (now : Z) (claude : option TokenCredential)
    (codex : option OAuthCredential) (store : AuthProfileStore)
    (pid : string) :
  pid ≠ CLAUDE_CLI_PROFILE_ID → pid ≠ CODEX_CLI_PROFILE_ID →
  obj_get (profiles (syncExternalCliCredentials now claude codex store).1) pid
  = obj_get (profiles store) pid.
Proof.
  intros H1 H2. unfold syncExternalCliCredentials.
  destruct claude as [c|], codex as [d|]; simpl.
  - destruct (syncClaudeCli now c store) as [s1 m1] eqn:E1.
    destruct (syncCodexCli now d s1) as [s2 m2] eqn:E2. simpl.
    change s2 with (s2, m2).1. rewrite <-E2, syncCodexCli_other by done.
    change s1 with (s1, m1).1. rewrite <-E1. by apply syncClaudeCli_other.
  - destruct (syncClaudeCli now c store) as [s1 m1] eqn:E1. simpl.
    change s1 with (s1, m1).1. rewrite <-E1. by apply syncClaudeCli_other.
  - destruct (syncCodexCli now d store) as [s2 m2] eqn:E2. simpl.
    change s2 with (s2, m2).1. rewrite <-E2. by apply syncCodexCli_other.
  - done.
Qed.

(** C8 (as the code has it). The sync leaves the credential under a reserved
    profile id untouched when it has the expected type and provider (a token
    of anthropic for the Claude CLI, an OAuth credential of openai-codex for
    the Codex CLI), has not expired yet and does not expire before the
    external one. A token under the Claude CLI id stays a token and an OAuth
    credential under the Codex CLI id stays an OAuth credential; an OAuth
    credential stored under the Claude CLI id is replaced by the external
    token. No other profile changes. *)
Theorem sync_keeps_fresher_credential (now : Z)
    (claude : option TokenCredential) (codex : option OAuthCredential)
    (store : AuthProfileStore) :
  let synced := (syncExternalCliCredentials now claude codex store).1 in
  (∀ t c, claude = Some c →
     obj_get (profiles store) CLAUDE_CLI_PROFILE_ID = Some (Token t) →
     tk_provider t = "anthropic" →
     now < default 0 (tk_expires t) →
     default 0 (tk_expires c) <= default 0 (tk_expires t) →
     obj_get (profiles synced) CLAUDE_CLI_PROFILE_ID = Some (Token t))
  ∧ (∀ o d, codex = Some d →
     obj_get (profiles store) CODEX_CLI_PROFILE_ID = Some (OAuth o) →
     oa_provider o = "openai-codex" →
     now < oa_expires o →
     oa_expires d <= oa_expires o →
     obj_get (profiles synced) CODEX_CLI_PROFILE_ID = Some (OAuth o))
  ∧ (∀ t, obj_get (profiles store) CLAUDE_CLI_PROFILE_ID = Some (Token t) →
     ∃ t', obj_get (profiles synced) CLAUDE_CLI_PROFILE_ID = Some (Token t'))
  ∧ (∀ o, obj_get (profiles store) CODEX_CLI_PROFILE_ID = Some (OAuth o) →
     ∃ o', obj_get (profiles synced) CODEX_CLI_PROFILE_ID = Some (OAuth o'))
  ∧ (∀ o c, claude = Some c →
     obj_get (profiles store) CLAUDE_CLI_PROFILE_ID = Some (OAuth o) →
     obj_get (profiles synced) CLAUDE_CLI_PROFILE_ID = Some (Token c))
  ∧ (∀ pid, pid ≠ CLAUDE_CLI_PROFILE_ID → pid ≠ CODEX_CLI_PROFILE_ID →
     obj_get (profiles synced) pid = obj_get (profiles store) pid).
Proof.
  intros synced. subst synced.
  split; [| split; [| split; [| split; [| split]]]].
  - intros t c -> Hget Hprov Hlive Hle. rewrite sync_get_claude.
    by rewrite (syncClaudeCli_kept now c t store).
  - intros o d -> Hget Hprov Hlive Hle.
    destruct (sync_get_codex now claude (Some d) store) as (s1 & Hs1 & ->).
    rewrite <-Hs1 in Hget. by rewrite (syncCodexCli_kept now d o s1).
  - intros t Hget. rewrite sync_get_claude. destruct claude as [c|]; [| eauto].
    destruct (obj_get (profiles (syncClaudeCli now c store).1)
                CLAUDE_CLI_PROFILE_ID) as [cred|] eqn:E.
    + apply syncClaudeCli_stays_token in E as [E| ->]; [| eauto].
      rewrite Hget in E. injection E as <-. eauto.
    + unfold syncClaudeCli in E. rewrite Hget in E.
      match type of E with context [if ?b then _ else _] => destruct b end;
        simpl in E.
      * by rewrite obj_get_set, String.eqb_refl in E.
      * congruence.
  - intros o Hget.
    destruct (sync_get_codex now claude codex store) as (s1 & Hs1 & ->).
    rewrite <-Hs1 in Hget. destruct codex as [d|]; [| eauto].
    destruct (obj_get (profiles (syncCodexCli now d s1).1)
                CODEX_CLI_PROFILE_ID) as [cred|] eqn:E.
    + apply syncCodexCli_stays_oauth in E as [E| ->]; [| eauto].
      rewrite Hget in E. injection E as <-. eauto.
    + unfold syncCodexCli in E. rewrite Hget in E.
      match type of E with context [if ?b then _ else _] => destruct b end;
        simpl in E.
      * by rewrite obj_get_set, String.eqb_refl in E.
      * congruence.
  - intros o c -> Hget. rewrite sync_get_claude.
    unfold syncClaudeCli. rewrite Hget. simpl.
    by rewrite obj_get_set, String.eqb_refl.
  - intros pid H1 H2. by apply sync_get_other.
Qed.

(** The test "does not overwrite fresher store token with older Claude CLI
    credentials": the stored token expires later and is still valid. *)
Example test_keeps_fresher_store_token :
  syncExternalCliCredentials 1000 (Some freshCliToken) None
    (mkStore [(CLAUDE_CLI_PROFILE_ID,
               mkToken "anthropic" "store-access" (Some 4600))] [])
  = (mkStore [(CLAUDE_CLI_PROFILE_ID,
               mkToken "anthropic" "store-access" (Some 4600))] [], false).
Proof. vm_compute. reflexivity. Qed.

(** As the design words it the property fails twice: a stored token with the later expiry is
    overwritten once it has expired, and an OAuth credential stored under the
    Claude CLI id is replaced by a plain token. *)
Lemma sync_overwrites_expired_and_oauth :
  (obj_get (profiles expiredTokenStore) CLAUDE_CLI_PROFILE_ID
     = Some (mkToken "anthropic" "store-access" (Some 900))
   ∧ tk_expires staleCliToken = Some 800
   ∧ obj_get
       (profiles (syncExternalCliCredentials 1000 (Some staleCliToken) None
                    expiredTokenStore).1) CLAUDE_CLI_PROFILE_ID
     = Some (Token staleCliToken))
  ∧ (obj_get (profiles oauthUnderClaudeIdStore) CLAUDE_CLI_PROFILE_ID
       = Some (mkOAuth "anthropic" 9000)
     ∧ obj_get
         (profiles (syncExternalCliCredentials 1000 (Some freshCliToken) None
                      oauthUnderClaudeIdStore).1) CLAUDE_CLI_PROFILE_ID
       = Some (Token freshCliToken)).
Proof. vm_compute. repeat split; reflexivity. Qed.

(** ** The classifiers on the repository's samples *)

Example test_overflow_hints :
  map (λ s, isContextOverflowError (Some s))
    ["request_too_large"; "Request exceeds the maximum size";
     "context length exceeded"; "Maximum context length";
     "413 Request Entity Too Large"; "rate limit exceeded"]
  = [true; true; true; true; true; false].
Proof. vm_compute. reflexivity. Qed.

Example test_friendly_overflow_message :
  formatAssistantErrorText
    {| stopReason := StopError; errorMessage := Some "request_too_large" |}
  = Some contextOverflowText.
Proof. vm_compute. reflexivity. Qed.

Example test_supported_values :
  extractSupportedValues
    "Unsupported value: 'xhigh'. Supported values are: 'low', 'medium', and 'high'."
  = ["low"; "medium"; "high"]
  ∧ extractSupportedValues "supported values: low, medium and high. Retry"
    = ["low"; "medium"; "high"].
Proof. vm_compute. split; reflexivity. Qed.

(** ** The capability fallback never picks an attempted level *)

Section FallbackFacts.
Variable normalizeThinkLevel : string → option ThinkLevel.

Lemma set_has_true (attempted : list ThinkLevel) (level : ThinkLevel) :
  set_has attempted level = true ↔ level ∈ attempted.
Proof. unfold set_has. apply bool_decide_eq_true. Qed.

Lemma set_has_false (attempted : list ThinkLevel) (level : ThinkLevel) :
  set_has attempted level = false ↔ level ∉ attempted.
Proof. unfold set_has. apply bool_decide_eq_false. Qed.

Lemma firstUnattempted_fresh (attempted : list ThinkLevel)
    (supported : list string) (level : ThinkLevel) :
  firstUnattempted normalizeThinkLevel attempted supported = Some level →
  level ∉ attempted.
Proof.
  induction supported as [|entry rest IH]; simpl; [done |].
  destruct (normalizeThinkLevel entry) as [normalized|]; [| done].
  destruct (set_has attempted normalized) eqn:Hhas; [done |].
  intros [= <-]. by apply set_has_false.
Qed.

Lemma pickFallback_fresh (message : option string)
    (attempted : list ThinkLevel) (level : ThinkLevel) :
  pickFallbackThinkingLevel normalizeThinkLevel message attempted = Some level →
  level ∉ attempted.
Proof.
  unfold pickFallbackThinkingLevel.
  destruct (trim <$> message) as [[|c raw]|]; [done | | done].
  apply firstUnattempted_fresh.
Qed.

Lemma set_add_elem (attempted : list ThinkLevel) (level : ThinkLevel) :
  level ∈ set_add attempted level.
Proof.
  unfold set_add. destruct (set_has attempted level) eqn:H.
  - by apply set_has_true.
  - apply elem_of_app. right. by apply list_elem_of_singleton.
Qed.

Lemma set_add_subset (attempted : list ThinkLevel) (level x : ThinkLevel) :
  x ∈ attempted → x ∈ set_add attempted level.
Proof.
  unfold set_add. destruct (set_has attempted level); [done |].
  intros. apply elem_of_app. by left.
Qed.

Lemma set_add_NoDup (attempted : list ThinkLevel) (level : ThinkLevel) :
  NoDup attempted → NoDup (set_add attempted level).
Proof.
  intros Hnd. unfold set_add. destruct (set_has attempted level) eqn:H; [done |].
  apply set_has_false in H. apply NoDup_app. split; [done |].
  split; [| apply NoDup_singleton].
  intros x Hx Hx'. apply list_elem_of_singleton in Hx'. by subst.
Qed.

Lemma set_add_fresh_length (attempted : list ThinkLevel) (level : ThinkLevel) :
  level ∉ attempted →
  length (set_add attempted level) = S (length attempted).
Proof.
  intros H. unfold set_add. apply set_has_false in H. rewrite H.
  rewrite length_app. simpl. lia.
Qed.

(** There are five levels, so a duplicate-free set holds at most five. *)
Lemma attempted_at_most_five (attempted : list ThinkLevel) :
  NoDup attempted → (length attempted <= 5)%nat.
Proof.
  intros Hnd.
  change 5%nat with (length allThinkLevels).
  apply submseteq_length, NoDup_submseteq; [done |].
  intros x _. destruct x; unfold allThinkLevels; set_solver.
Qed.

End FallbackFacts.

(** ** The run loop: rotation *)

Section RunnerFacts.
Variable normalizeProviderId : string → string.
Variable normalizeThinkLevel : string → option ThinkLevel.
Variable resolveKey : AuthProfileStore → option string → Result ApiKeyInfo.
Variable engine : nat → option ApiKeyInfo → ThinkLevel → AttemptResult.
Variable clock : nat → Z.
Variable lockOk : nat → StoreOp → bool.

Local Abbreviation advanceFrom' := (advanceFrom resolveKey).
Local Abbreviation advance := (advanceAuthProfile resolveKey).
Local Abbreviation afterAssistant' :=
  (afterAssistant normalizeThinkLevel resolveKey clock lockOk).
Local Abbreviation afterPromptError' :=
  (afterPromptError normalizeThinkLevel resolveKey).
Local Abbreviation afterAttempt' :=
  (afterAttempt normalizeThinkLevel resolveKey clock lockOk).
Local Abbreviation runLoop' :=
  (runLoop normalizeThinkLevel resolveKey engine clock lockOk).
Local Abbreviation run :=
  (runEmbeddedPiAgent normalizeProviderId normalizeThinkLevel resolveKey engine
     clock lockOk).
Local Abbreviation makeEnv' := (makeEnv normalizeProviderId clock).

Lemma attemptsOf_app (t1 t2 : list Event) :
  attemptsOf (t1 ++ t2) = (attemptsOf t1 ++ attemptsOf t2)%list.
Proof. apply omap_app. Qed.

(** What a call of [advanceAuthProfile] may change. *)
Lemma advanceFrom_spec (env : RunEnv) (remaining : list (option string))
    (nextIndex : nat) (st st' : RunState) (res : Result bool) :
  advanceFrom' env remaining nextIndex st = (res, st') →
  world st' = world st
  ∧ attemptNo st' = attemptNo st
  ∧ attemptsOf (trace st') = attemptsOf (trace st)
  ∧ (∃ evs, trace st' = (trace st ++ evs)%list
            ∧ Forall (λ e, isRotationEvent e = true) evs
            ∧ Forall (λ e, ∀ p, e ≠ EvMarkCooldown p) evs)
  ∧ match res with
    | Returned true =>
        (nextIndex <= profileIndex st' < nextIndex + length remaining)%nat
        ∧ attemptedThinking st' = []
        ∧ thinkLevel st' = initialThinkLevel env
        ∧ ∃ evs, trace st' = (trace st ++ evs ++ [EvAdvance (profileIndex st')])%list
    | _ =>
        profileIndex st' = profileIndex st
        ∧ attemptedThinking st' = attemptedThinking st
        ∧ thinkLevel st' = thinkLevel st
        ∧ lastProfileId st' = lastProfileId st
        ∧ apiKeyInfo st' = apiKeyInfo st
    end.
Proof.
  revert nextIndex st.
  induction remaining as [|candidate rest IH]; intros nextIndex st; simpl.
  - intros [= <- <-]. repeat split; try done.
    exists []. by rewrite app_nil_r.
  - destruct (resolveKey (mem (world st)) candidate) as [info|err].
    + intros [= <- <-]. simpl. rewrite attemptsOf_app. simpl.
      rewrite app_nil_r.
      repeat split; try done; try lia.
      * eexists. split; [done |]. split; repeat constructor; done.
      * by exists [EvResolveKey candidate true].
    + destruct (truthy candidate
                && bool_decide (candidate = explicitProfileId env)).
      * intros [= <- <-]. simpl. rewrite attemptsOf_app. simpl.
        rewrite app_nil_r. repeat split; try done.
        eexists. split; [done |]. split; repeat constructor; done.
      * intros Hrec. apply IH in Hrec as (Hw & Hn & Ha & (evs & Ht & Hr & Hc) & Hres).
        simpl in *. rewrite attemptsOf_app in Ha. simpl in Ha.
        rewrite app_nil_r in Ha.
        split; [done |]. split; [done |]. split; [done |]. split.
        { exists (EvResolveKey candidate false :: evs).
          rewrite Ht, <-app_assoc. split; [done |].
          split; constructor; done. }
        destruct res as [[|]|e]; try done.
        destruct Hres as (Hi & Hat & Hth & evs' & Ht').
        repeat split; try done; try lia.
        exists (EvResolveKey candidate false :: evs').
        by rewrite Ht', <-app_assoc.
Qed.

Lemma advance_spec (env : RunEnv) (st st' : RunState) (res : Result bool) :
  advance env st = (res, st') →
  world st' = world st
  ∧ attemptNo st' = attemptNo st
  ∧ attemptsOf (trace st') = attemptsOf (trace st)
  ∧ (∃ evs, trace st' = (trace st ++ evs)%list
            ∧ Forall (λ e, ∀ p, e ≠ EvMarkCooldown p) evs)
  ∧ match res with
    | Returned true =>
        (profileIndex st < profileIndex st'
           < length (profileCandidates env))%nat
        ∧ attemptedThinking st' = []
        ∧ thinkLevel st' = initialThinkLevel env
        ∧ ∃ evs, trace st' = (trace st ++ evs ++ [EvAdvance (profileIndex st')])%list
    | _ =>
        profileIndex st' = profileIndex st
        ∧ attemptedThinking st' = attemptedThinking st
        ∧ thinkLevel st' = thinkLevel st
        ∧ lastProfileId st' = lastProfileId st
        ∧ apiKeyInfo st' = apiKeyInfo st
    end.
Proof.
  unfold advanceAuthProfile. intros H.
  apply advanceFrom_spec in H as (Hw & Hn & Ha & (evs & Ht & _ & Hc) & Hres).
  split; [done |]. split; [done |]. split; [done |].
  split; [by exists evs |].
  destruct res as [[|]|e]; try done.
  destruct Hres as (Hi & Hat & Hth & Hev).
  rewrite length_drop in Hi. repeat split; try done; lia.
Qed.

Lemma markCurrentCooldown_fields (st : RunState) :
  let st' := markCurrentCooldown clock lockOk st in
  profileIndex st' = profileIndex st
  ∧ attemptedThinking st' = attemptedThinking st
  ∧ thinkLevel st' = thinkLevel st
  ∧ lastProfileId st' = lastProfileId st
  ∧ attemptNo st' = attemptNo st
  ∧ attemptsOf (trace st') = attemptsOf (trace st).
Proof.
  unfold markCurrentCooldown.
  destruct (lastProfileId st) as [pid|] eqn:Hp; [| by rewrite Hp].
  destruct (truthy (Some pid)); [| by rewrite Hp].
  simpl. rewrite attemptsOf_app. simpl. by rewrite app_nil_r.
Qed.

Lemma finishRun_attempts (env : RunEnv) (o : Outcome) (st st' : RunState)
    (r : RunResult) :
  finishRun clock lockOk env o st = (r, st') →
  attemptsOf (trace st') = attemptsOf (trace st)
  ∧ profileIndex st' = profileIndex st
  ∧ r = RunPayloads (buildPayloads o) (Some (aborted o))
  ∧ ∃ evs, trace st' = (trace st ++ evs)%list
           ∧ Forall (λ e, isRotationEvent e = false) evs.
Proof.
  unfold finishRun. intros [= <- <-].
  destruct (lastProfileId st) as [pid|]; simpl.
  - destruct pid; simpl.
    + repeat split; try done. exists []. by rewrite app_nil_r.
    + rewrite attemptsOf_app. simpl. rewrite app_nil_r.
      repeat split; try done. eexists. split; [done |].
      repeat constructor.
  - repeat split; try done. exists []. by rewrite app_nil_r.
Qed.

Lemma afterPromptError_step (env : RunEnv) (thrown : Thrown) (st : RunState) :
  stepOk env st (afterPromptError' env thrown st).
Proof.
  unfold afterPromptError.
  destruct (isContextOverflowError _); [done |].
  destruct (isAuthErrorMessage _ || isRateLimitErrorMessage _).
  - destruct (advance env st) as [res st'] eqn:Hadv.
    apply advance_spec in Hadv as (Hw & Hn & Ha & _ & Hres).
    destruct res as [[|]|e]; simpl.
    + destruct Hres as (Hi & Hat & _). split; [done |]. by right.
    + destruct Hres as (Hi & Hat & Hth & _).
      destruct (pickFallbackThinkingLevel _ _ _) as [level|] eqn:Hpick;
        simpl; [| done].
      split; [done |]. left. apply pickFallback_fresh in Hpick.
      rewrite Hat in Hpick. done.
    + done.
  - destruct (pickFallbackThinkingLevel _ _ _) as [level|] eqn:Hpick;
      simpl; [| done].
    split; [done |]. left. apply pickFallback_fresh in Hpick. done.
Qed.

Lemma afterAssistant_step (env : RunEnv) (o : Outcome) (st : RunState) :
  stepOk env st (afterAssistant' env o st).
Proof.
  unfold afterAssistant.
  assert (Hrest :
    stepOk env st
      (if (negb (aborted o)
           && (isAuthAssistantError (lastAssistant o)
               || isRateLimitAssistantError (lastAssistant o)))
          || timedOut o
       then
         match advance env (markCurrentCooldown clock lockOk st) with
         | (Threw e, st') => Finished (RunFailed e) st'
         | (Returned true, st') => Continue st'
         | (Returned false, st') =>
             if fallbackConfigured env
             then Finished
                    (RunFailed
                       (ErrorObject
                          (rotationFailureMessage o
                             (isRateLimitAssistantError (lastAssistant o)))))
                    st'
             else let '(r, st'') := finishRun clock lockOk env o st' in
                  Finished r st''
         end
       else let '(r, st') := finishRun clock lockOk env o st in Finished r st')).
  { destruct (_ || timedOut o).
    - pose proof (markCurrentCooldown_fields st) as (Mi & Mat & Mth & _ & _ & Ma).
      destruct (advance env (markCurrentCooldown clock lockOk st))
        as [res st'] eqn:Hadv.
      apply advance_spec in Hadv as (Hw & Hn & Ha & _ & Hres).
      rewrite Ma in Ha. rewrite Mi in Hres.
      destruct (finishRun clock lockOk env o st') as [r st''] eqn:Hfin.
      apply finishRun_attempts in Hfin as (Hf & _).
      destruct res as [[|]|e]; simpl.
      + destruct Hres as (Hi & Hat & _). split; [done |].
        right. split; [lia | done].
      + destruct (fallbackConfigured env); simpl; [done |]. by rewrite Hf.
      + done.
    - destruct (finishRun clock lockOk env o st) as [r st'] eqn:Hfin.
      apply finishRun_attempts in Hfin as (Hf & _). done. }
  destruct (pickFallbackThinkingLevel _ _ _) as [level|] eqn:Hpick;
    [| exact Hrest].
  destruct (aborted o) eqn:Hab; [exact Hrest |].
  simpl. split; [done |]. left. apply pickFallback_fresh in Hpick. done.
Qed.

Lemma afterAttempt_step (env : RunEnv) (o : Outcome) (st : RunState) :
  stepOk env st (afterAttempt' env o st).
Proof.
  unfold afterAttempt.
  destruct (promptError o) as [thrown|]; [| apply afterAssistant_step].
  destruct (thrownTruthy thrown && negb (aborted o));
    [apply afterPromptError_step | apply afterAssistant_step].
Qed.

(** ** The run loop: bounded retries *)

Lemma beginAttempt_inv (candidates : list (option string)) (st : RunState) :
  loopInv candidates st →
  let st1 := beginAttempt st in
  profileIndex st1 = profileIndex st
  ∧ thinkLevel st1 = thinkLevel st
  ∧ thinkLevel st ∈ attemptedThinking st1
  ∧ NoDup (attemptedThinking st1)
  ∧ length (attemptedThinking st1) = S (length (attemptedThinking st))
  ∧ NoDup (attemptsOf (trace st1))
  ∧ ∀ i l, (i, l) ∈ attemptsOf (trace st1) →
      ((i < profileIndex st)%nat
       ∨ (i = profileIndex st ∧ l ∈ attemptedThinking st1)).
Proof.
  intros (Hidx & Hfresh & Hnd & Hnda & Hprev). simpl.
  split; [done |]. split; [done |].
  split; [apply set_add_elem |].
  split; [by apply set_add_NoDup |].
  split; [by apply set_add_fresh_length |].
  rewrite attemptsOf_app. simpl. split.
  - apply NoDup_app. split; [done |]. split; [| apply NoDup_singleton].
    intros [i l] Hin Hin'. apply list_elem_of_singleton in Hin'.
    injection Hin' as -> ->.
    destruct (Hprev _ _ Hin) as [Hlt|[_ Hl]]; [lia | done].
  - intros i l Hin. apply elem_of_app in Hin as [Hin|Hin].
    + destruct (Hprev _ _ Hin) as [Hlt|[-> Hl]]; [by left |].
      right. split; [done |]. by apply set_add_subset.
    + apply list_elem_of_singleton in Hin. injection Hin as -> ->.
      right. split; [done |]. apply set_add_elem.
Qed.

Lemma continue_preserves_inv (env : RunEnv) (o : Outcome) (st st2 : RunState) :
  loopInv (profileCandidates env) st →
  afterAttempt' env o (beginAttempt st) = Continue st2 →
  loopInv (profileCandidates env) st2
  ∧ (loopMeasure (profileCandidates env) st2
       < loopMeasure (profileCandidates env) st)%nat.
Proof.
  intros Hinv Hstep.
  pose proof (beginAttempt_inv _ _ Hinv) as (Bi & Bth & Bin & Bnd & Blen & Bnda & Bprev).
  pose proof (afterAttempt_step env o (beginAttempt st)) as Hok.
  rewrite Hstep in Hok. destruct Hok as (Ha & Hcase).
  destruct Hinv as (Hidx & Hfresh & Hnd & _ & _).
  pose proof (attempted_at_most_five _ Bnd) as Hfive.
  unfold loopInv, loopMeasure.
  destruct Hcase as [(Hi & Hat & Hth)|(Hi & Hat)].
  - rewrite Hi, Hat, Ha, Bi. split; [| lia].
    split; [done |]. split; [done |]. split; [done |]. split; [done |].
    exact Bprev.
  - rewrite Hat, Ha. rewrite Bi in Hi. split; [| simpl; lia].
    split; [lia |]. split; [apply not_elem_of_nil |].
    split; [apply NoDup_nil_2 |]. split; [done |].
    intros i l Hin. left.
    destruct (Bprev _ _ Hin) as [Hlt|[-> _]]; lia.
Qed.

Lemma finished_keeps_attempts (env : RunEnv) (o : Outcome)
    (st st2 : RunState) (r : RunResult) :
  afterAttempt' env o st = Finished r st2 →
  attemptsOf (trace st2) = attemptsOf (trace st).
Proof.
  intros Hstep. pose proof (afterAttempt_step env o st) as Hok.
  by rewrite Hstep in Hok.
Qed.

(** No candidate is tried twice at the same level. *)
Lemma runLoop_attempts_NoDup (env : RunEnv) (fuel : nat) (st st' : RunState)
    (r : RunResult) :
  loopInv (profileCandidates env) st →
  runLoop' env fuel st = Some (r, st') →
  NoDup (attemptsOf (trace st')).
Proof.
  revert st. induction fuel as [|fuel IH]; intros st Hinv; simpl; [done |].
  pose proof (beginAttempt_inv _ _ Hinv) as (_ & _ & _ & _ & _ & Bnda & _).
  destruct (engine (attemptNo st) (apiKeyInfo st) (thinkLevel st)) as [e|o].
  - by intros [= <- <-].
  - destruct (afterAttempt' env o (beginAttempt st)) as [st2|r2 st2] eqn:Hstep.
    + apply IH. by eapply continue_preserves_inv.
    + intros [= <- <-]. apply finished_keeps_attempts in Hstep.
      by rewrite Hstep.
Qed.

(** The loop ends within the measure. *)
Lemma runLoop_terminates (env : RunEnv) (fuel : nat) (st : RunState) :
  loopInv (profileCandidates env) st →
  (loopMeasure (profileCandidates env) st <= fuel)%nat →
  ∃ r st', runLoop' env fuel st = Some (r, st').
Proof.
  revert st. induction fuel as [|fuel IH]; intros st Hinv Hm.
  - exfalso. destruct Hinv as (Hidx & Hfresh & Hnd & _).
    assert (Hnd' : NoDup (thinkLevel st :: attemptedThinking st))
      by by constructor.
    apply attempted_at_most_five in Hnd'. simpl in Hnd'.
    unfold loopMeasure in Hm. lia.
  - simpl.
    destruct (engine (attemptNo st) (apiKeyInfo st) (thinkLevel st)) as [e|o];
      [by eauto |].
    destruct (afterAttempt' env o (beginAttempt st)) as [st2|r2 st2] eqn:Hstep;
      [| by eauto].
    destruct (continue_preserves_inv env o st st2 Hinv Hstep) as [Hinv2 Hlt].
    apply IH; [done | lia].
Qed.

Lemma makeEnv_candidates_nonempty (params : RunParams)
    (onDisk : AuthProfileStore) :
  profileCandidates (makeEnv' params onDisk) ≠ [].
Proof.
  simpl.
  by destruct (resolveAuthProfileOrder _ _ _ _ _ _).
Qed.

(** The state in which the loop is entered. *)
Lemma selectFirstProfile_spec (env : RunEnv) (onDisk : AuthProfileStore)
    (res : Result unit) (st1 : RunState) :
  profileCandidates env ≠ [] →
  selectFirstProfile resolveKey env (initialState env onDisk) = (res, st1) →
  attemptsOf (trace st1) = []
  ∧ match res with
    | Returned _ =>
        loopInv (profileCandidates env) st1
        ∧ (loopMeasure (profileCandidates env) st1
             <= 5 * length (profileCandidates env))%nat
    | Threw _ => True
    end.
Proof.
  intros Hne. unfold selectFirstProfile.
  assert (Hlen : (0 < length (profileCandidates env))%nat).
  { destruct (profileCandidates env); [done | simpl; lia]. }
  destruct (resolveKey _ _) as [info|err].
  - intros [= <- <-]. simpl. split; [done |].
    unfold loopInv, loopMeasure. simpl.
    split; [| lia]. split; [done |]. split; [apply not_elem_of_nil |].
    split; [apply NoDup_nil_2 |]. split; [apply NoDup_nil_2 |].
    intros i l Hin. by apply not_elem_of_nil in Hin.
  - destruct (bool_decide _); [by intros [= <- <-] |].
    destruct (advance env _) as [r st''] eqn:Hadv.
    apply advance_spec in Hadv as (_ & _ & Ha & _ & Hres). simpl in Ha.
    destruct r as [[|]|e]; intros [= <- <-]; split; try done.
    destruct Hres as (Hi & Hat & _). simpl in Hi.
    unfold loopInv, loopMeasure. rewrite Hat, Ha. simpl.
    split; [| lia]. split; [lia |]. split; [apply not_elem_of_nil |].
    split; [apply NoDup_nil_2 |]. split; [apply NoDup_nil_2 |].
    intros i l Hin. by apply not_elem_of_nil in Hin.
Qed.

Lemma run_cases (fuel : nat) (params : RunParams) (onDisk : AuthProfileStore) :
  let env := makeEnv' params onDisk in
  (∃ e, run fuel params onDisk = Some (RunFailed e, initialState env onDisk))
  ∨ (∃ e st1,
       selectFirstProfile resolveKey env (initialState env onDisk)
         = (Threw e, st1)
       ∧ run fuel params onDisk = Some (RunFailed e, st1))
  ∨ (∃ u st1,
       selectFirstProfile resolveKey env (initialState env onDisk)
         = (Returned u, st1)
       ∧ run fuel params onDisk = runLoop' env fuel st1).
Proof.
  intros env. unfold runEmbeddedPiAgent. fold env.
  destruct (selectFirstProfile resolveKey env (initialState env onDisk))
    as [[u|e] st1] eqn:Hsel.
  - destruct (explicitProfileId env) as [explicit|].
    + destruct (truthy _ && negb _); [left; eauto |].
      right; right. eauto.
    + right; right. eauto.
  - destruct (explicitProfileId env) as [explicit|].
    + destruct (truthy _ && negb _); [left; eauto |].
      right; left. eauto.
    + right; left. eauto.
Qed.

(** C3 (as the code has it). On one candidate profile no thinking level is
    attempted twice: the level is added to the attempted set when its attempt
    starts, [pickFallbackThinkingLevel] returns [undefined] or a level outside
    the set, and the set is emptied only when the run moves to a later
    candidate. So the attempts of a run, as pairs of candidate index and
    level, are all different, and five attempts per candidate are enough for
    the loop to end. *)
Theorem capability_fallback_bounded (params : RunParams)
    (onDisk : AuthProfileStore) :
  (∀ message attempted level,
     pickFallbackThinkingLevel normalizeThinkLevel message attempted
       = Some level →
     level ∉ attempted)
  ∧ (∀ st, thinkLevel st ∈ attemptedThinking (beginAttempt st))
  ∧ (∀ fuel r st,
       run fuel params onDisk = Some (r, st) →
       NoDup (attemptsOf (trace st)))
  ∧ (∀ fuel,
       (5 * length (profileCandidates (makeEnv' params onDisk)) <= fuel)%nat →
       ∃ r st, run fuel params onDisk = Some (r, st)).
Proof.
  split; [intros message attempted level; apply pickFallback_fresh |].
  split; [intros st; apply set_add_elem |].
  pose proof (makeEnv_candidates_nonempty params onDisk) as Hne.
  split.
  - intros fuel r st Hrun.
    destruct (run_cases fuel params onDisk)
      as [[e He]|[(e & st1 & Hsel & He)|(u & st1 & Hsel & He)]];
      rewrite He in Hrun.
    + injection Hrun as <- <-. apply NoDup_nil_2.
    + injection Hrun as <- <-.
      apply selectFirstProfile_spec in Hsel as [-> _]; [| done].
      apply NoDup_nil_2.
    + apply selectFirstProfile_spec in Hsel as [_ [Hinv _]]; [| done].
      by eapply runLoop_attempts_NoDup.
  - intros fuel Hfuel.
    destruct (run_cases fuel params onDisk)
      as [[e He]|[(e & st1 & Hsel & He)|(u & st1 & Hsel & He)]];
      rewrite He; [by eauto | by eauto |].
    apply selectFirstProfile_spec in Hsel as [_ [Hinv Hm]]; [| done].
    apply runLoop_terminates; [done | lia].
Qed.

(** ** The run loop: context overflow *)

Lemma trim_contextOverflowText : trim contextOverflowText = contextOverflowText.
Proof. vm_compute. reflexivity. Qed.

Lemma format_overflow (msg : AssistantMessage) :
  stoppedWithError msg = true →
  isContextOverflowError (Some (trim (default "" (errorMessage msg)))) = true →
  formatAssistantErrorText msg = Some contextOverflowText.
Proof.
  intros Hstop Hover. unfold formatAssistantErrorText. rewrite Hstop.
  cbn [negb]. cbv zeta.
  destruct (trim (default "" (errorMessage msg))) as [|c raw];
    [discriminate Hover |].
  by rewrite Hover.
Qed.

Lemma buildPayloads_overflow (o : Outcome) (msg : AssistantMessage) :
  lastAssistant o = Some msg →
  formatAssistantErrorText msg = Some contextOverflowText →
  ∃ rest,
    buildPayloads o
    = {| p_text := contextOverflowText; p_isError := true |} :: rest.
Proof.
  intros Hlast Hfmt. unfold buildPayloads. rewrite Hlast. simpl.
  rewrite Hfmt.
  change (non_empty contextOverflowText) with true. cbv iota.
  rewrite <-app_comm_cons, map_cons. cbn [p_text p_isError].
  rewrite trim_contextOverflowText. cbn [List.filter p_text].
  change (non_empty contextOverflowText) with true. cbv iota.
  by eexists.
Qed.

(** A prompt error that [isContextOverflowError] accepts ends the run with
    the reset payload and leaves the loop state as it is: the overflow test is
    the first one of that branch. (A falsy thrown value is never an
    overflow.) *)
Lemma thrown_overflow_ends_run (env : RunEnv) (o : Outcome) (st : RunState)
    (thrown : Thrown) :
  promptError o = Some thrown → aborted o = false →
  isContextOverflowError (Some (describeUnknownError thrown)) = true →
  afterAttempt' env o st
  = Finished
      (RunPayloads [{| p_text := runnerOverflowText; p_isError := true |}] None)
      st.
Proof.
  intros Hthrown Hab Hover.
  assert (Htruthy : thrownTruthy thrown = true).
  { destruct thrown as [m|t|ser|v]; try done.
    - by destruct t.
    - by destruct v. }
  unfold afterAttempt, afterPromptError.
  by rewrite Hthrown, Htruthy, Hab, Hover.
Qed.

(** An overflow reported in the last assistant message ends the run with the
    formatted overflow text when the message is not also taken for a
    capability, auth, rate-limit or timeout failure: the assistant branch
    makes those tests and has no overflow test of its own. *)
Lemma assistant_overflow_ends_run (env : RunEnv) (o : Outcome) (st : RunState)
    (msg : AssistantMessage) :
  lastAssistant o = Some msg →
  promptError o = None ∨ aborted o = true →
  stoppedWithError msg = true →
  isContextOverflowError (Some (trim (default "" (errorMessage msg)))) = true →
  pickFallbackThinkingLevel normalizeThinkLevel (errorMessage msg)
    (attemptedThinking st) = None
  ∨ aborted o = true →
  isAuthAssistantError (Some msg) = false →
  isRateLimitAssistantError (Some msg) = false →
  timedOut o = false →
  ∃ st' rest evs,
    afterAttempt' env o st
      = Finished
          (RunPayloads
             ({| p_text := contextOverflowText; p_isError := true |} :: rest)
             (Some (aborted o)))
          st'
    ∧ profileIndex st' = profileIndex st
    ∧ trace st' = (trace st ++ evs)%list
    ∧ Forall (λ e, isRotationEvent e = false) evs.
Proof.
  intros Hlast Hpath Hstop Hover Hpick Hauth Hrate Htime.
  assert (Hgo : afterAttempt' env o st = afterAssistant' env o st).
  { unfold afterAttempt. destruct Hpath as [-> | ->]; [done |].
    destruct (promptError o); [| done]. by rewrite andb_false_r. }
  rewrite Hgo. unfold afterAssistant. rewrite Hlast.
  cbn [mbind option_bind].
  rewrite Hauth, Hrate, Htime, !orb_false_r, andb_false_r. cbv iota.
  destruct (finishRun clock lockOk env o st) as [r st'] eqn:Hfin.
  apply finishRun_attempts in Hfin as (_ & Hi & -> & evs & Ht & Hev).
  destruct (buildPayloads_overflow o msg Hlast (format_overflow _ Hstop Hover))
    as [rest Hrest].
  exists st', rest, evs. rewrite Hrest.
  split; [| done].
  destruct Hpick as [-> | ->]; [done |].
  by destruct (pickFallbackThinkingLevel _ _ _).
Qed.

(** ** The run loop: cooldown before rotation *)

(** The rotation branch that reads the last assistant message marks the
    profile in use before it moves on. *)
Lemma rotation_marks_cooldown_first (env : RunEnv) (o : Outcome)
    (st st' : RunState) (profileId : string) :
  afterAssistant' env o st = Continue st' →
  profileIndex st' ≠ profileIndex st →
  lastProfileId st = Some profileId → profileId ≠ "" →
  world st'
    = markAuthProfileCooldown (lockOk (attemptNo st) OpCooldown)
        (clock (attemptNo st)) profileId (world st)
  ∧ ∃ evs,
      trace st'
      = (trace st ++ EvMarkCooldown profileId :: evs
           ++ [EvAdvance (profileIndex st')])%list
      ∧ Forall (λ e, ∀ p, e ≠ EvMarkCooldown p) evs.
Proof.
  intros Hstep Hmoved Hpid Hne. unfold afterAssistant in Hstep.
  assert (Hmark :
    markCurrentCooldown clock lockOk st
    = logEvents [EvMarkCooldown profileId]
        (setWorld
           (markAuthProfileCooldown (lockOk (attemptNo st) OpCooldown)
              (clock (attemptNo st)) profileId (world st)) st)).
  { unfold markCurrentCooldown. rewrite Hpid. by destruct profileId. }
  destruct (finishRun clock lockOk env o st) as [r0 s0].
  destruct (advance env (markCurrentCooldown clock lockOk st))
    as [res st2] eqn:Hadv.
  destruct (finishRun clock lockOk env o st2) as [r2 s2].
  assert (Hrot : res = Returned true ∧ st' = st2).
  { destruct (pickFallbackThinkingLevel _ _ _) as [level|];
      [destruct (aborted o) |].
    all: try (injection Hstep as <-; by simpl in Hmoved).
    all: destruct (_ || timedOut o); [| done].
    all: destruct res as [[|]|e]; [by injection Hstep as <- | | done].
    all: by destruct (fallbackConfigured env). }
  destruct Hrot as [-> ->].
  apply advance_spec in Hadv as (Hw & _ & _ & (evs0 & Ht0 & Hc0) & Hres).
  destruct Hres as (_ & _ & _ & evs & Ht).
  rewrite Hmark in Hw, Ht, Ht0. simpl in Hw, Ht, Ht0.
  split; [done |]. exists evs. split; [by rewrite Ht, <-app_assoc |].
  rewrite Ht in Ht0. rewrite <-!app_assoc in Ht0.
  apply app_inv_head in Ht0. simpl in Ht0. injection Ht0 as Ht0.
  rewrite <-Ht0 in Hc0. by apply Forall_app in Hc0 as [Hc0 _].
Qed.

(** What the mark writes, with the lock held and the profile on file. *)
Lemma markAuthProfileCooldown_locked (now : Z) (profileId : string)
    (w : World) (cred : AuthProfileCredential) :
  obj_get (profiles (disk w)) profileId = Some cred →
  let old := default emptyStats (usageStats (disk w) !! profileId) in
  let count := default 0 (errorCount old) + 1 in
  usageStats (mem (markAuthProfileCooldown true now profileId w)) !! profileId
  = Some {| lastUsed := lastUsed old;
            cooldownUntil := Some (now + calculateAuthProfileCooldownMs count);
            errorCount := Some count |}.
Proof.
  intros Hcred. unfold markAuthProfileCooldown, markWith. simpl.
  unfold cooldownUpdater. rewrite Hcred. simpl.
  apply lookup_insert_eq.
Qed.

(** ** The run loop: an explicitly requested profile *)

Lemma preferFirst_head (p : string) (l : list string) :
  p ≠ "" → p ∈ preferFirst (Some p) l →
  head (preferFirst (Some p) l) = Some p.
Proof.
  intros Hne. unfold preferFirst.
  destruct (includes l p) eqn:Hin.
  - destruct p; [done |]. reflexivity.
  - rewrite andb_false_r. intros Hp. apply includes_elem_of in Hp.
    congruence.
Qed.

(** The preferred profile, when the resolver returns it at all, comes
    first. *)
Lemma resolve_order_preferred_first (now : Z) (cfg : option ClawdbotConfig)
    (store : AuthProfileStore) (provider p : string) :
  p ≠ "" →
  p ∈ resolveAuthProfileOrder normalizeProviderId now cfg store provider
        (Some p) →
  head (resolveAuthProfileOrder normalizeProviderId now cfg store provider
          (Some p)) = Some p.
Proof.
  intros Hne. unfold resolveAuthProfileOrder.
  set (base := match configuredOrderOf _ _ _ with Some o => o | None => _ end).
  destruct base as [|b0 bs]; [by intros H%not_elem_of_nil |].
  destruct (configuredOrderOf _ _ _) as [[|c0 cs]|];
    by apply preferFirst_head.
Qed.

(** C7 (as the code has it). With an explicitly requested profile the run
    fails at once, before any attempt, when that profile is not in the order
    resolved for the provider or when its key cannot be resolved: the error is
    the one of that failure and no other candidate's key is asked for. The
    requested profile is the first candidate. (Once its key is resolved, a
    failed attempt may still rotate to the candidates after it.) *)
Theorem explicit_profile_failure_is_immediate (fuel : nat)
    (params : RunParams) (onDisk : AuthProfileStore) (explicit : string)
    (Hexplicit : trim <$> rp_authProfileId params = Some explicit)
    (Hne : explicit ≠ "") :
  let env := makeEnv' params onDisk in
  let order :=
    resolveAuthProfileOrder normalizeProviderId (clock 0) (rp_config params)
      onDisk (rp_provider params) (Some explicit) in
  (explicit ∉ order →
     run fuel params onDisk
     = Some (RunFailed
               (ErrorObject
                  (notConfiguredMessage explicit (rp_provider params))),
             initialState env onDisk))
  ∧ (explicit ∈ order →
     head (profileCandidates env) = Some (Some explicit)
     ∧ ∀ err, resolveKey onDisk (Some explicit) = Threw err →
         run fuel params onDisk
         = Some (RunFailed err,
                 logEvents [EvResolveKey (Some explicit) false]
                   (initialState env onDisk))).
Proof.
  intros env order.
  assert (Hexp : explicitProfileId env = Some explicit) by exact Hexplicit.
  assert (Hcands :
    profileCandidates env
    = match order with [] => [None] | _ => map Some order end).
  { subst env order. unfold makeEnv. cbn [profileCandidates].
    by rewrite Hexplicit. }
  assert (Htruthy : truthy (Some explicit) = true) by by destruct explicit.
  split.
  - intros Hnotin. unfold runEmbeddedPiAgent. fold env. rewrite Hexp.
    fold order. rewrite Htruthy.
    destruct (includes order explicit) eqn:Hin.
    + apply includes_elem_of in Hin. done.
    + reflexivity.
  - intros Hin.
    pose proof (resolve_order_preferred_first _ _ _ _ _ Hne Hin) as Hhead.
    fold order in Hhead.
    assert (Hfirst : head (profileCandidates env) = Some (Some explicit)).
    { rewrite Hcands. destruct order as [|o0 os]; [done |].
      simpl in *. congruence. }
    split; [exact Hfirst |].
    intros err Herr. unfold runEmbeddedPiAgent. fold env. rewrite Hexp.
    fold order. rewrite Htruthy.
    rewrite (proj2 (includes_elem_of order explicit) Hin). cbn [negb andb].
    unfold selectFirstProfile. rewrite Hfirst.
    change (default None (Some (Some explicit))) with (Some explicit).
    change (mem (world (initialState env onDisk))) with onDisk.
    rewrite Herr, Hexp. by rewrite bool_decide_eq_true_2.
Qed.

End RunnerFacts.

(** ** The run loop on concrete runs *)

(** C2 at its failing input. Provider [p] has the API keys [p:a] and [p:b];
    the first attempt, on [p:a], ends with the prompt throwing
    [401 Unauthorized], which the loop takes for an auth error: it moves to
    [p:b] and leaves [p:a] without an error count and without a cooldown. *)
Theorem prompt_auth_error_rotates_without_cooldown :
  isAuthErrorMessage "401 Unauthorized" = true
  ∧ match scriptedRun resolveAnyKey [promptThrew "401 Unauthorized"] None with
    | Some (r, st) =>
        trace st
        = [EvResolveKey (Some "p:a") true; EvAttempt 0 (Some "p:a") off;
           EvResolveKey (Some "p:b") true; EvAdvance 1;
           EvAttempt 1 (Some "p:b") off; EvMarkGood "p:b"; EvMarkUsed "p:b"]
        ∧ usageStats (mem (world st)) !! "p:a" = None
        ∧ usageStats (disk (world st)) !! "p:a" = None
    | None => False
    end.
Proof. vm_compute. repeat split; reflexivity. Qed.

(** The same failure reported in the last assistant message does mark the
    profile: error count 1 and a cooldown of one minute from now (1000). *)
Example assistant_auth_error_marks_cooldown :
  match scriptedRun resolveAnyKey [assistantFailed "401 Unauthorized"] None with
  | Some (r, st) =>
      trace st
      = [EvResolveKey (Some "p:a") true; EvAttempt 0 (Some "p:a") off;
         EvMarkCooldown "p:a"; EvResolveKey (Some "p:b") true; EvAdvance 1;
         EvAttempt 1 (Some "p:b") off; EvMarkGood "p:b"; EvMarkUsed "p:b"]
      ∧ usageStats (mem (world st)) !! "p:a"
        = Some {| lastUsed := None; cooldownUntil := Some 61000;
                  errorCount := Some 1 |}
  | None => False
  end.
Proof. vm_compute. repeat split; reflexivity. Qed.

(** The design's end-to-end scenario, with the success recorded. *)
Example end_to_end_last_good :
  match scriptedRun resolveAnyKey [assistantFailed "401 Unauthorized"] None with
  | Some (r, st) =>
      r = RunPayloads [{| p_text := "done"; p_isError := false |}] (Some false)
      ∧ lastGood (disk (world st)) !! "p" = Some "p:b"
      ∧ usageStats (disk (world st)) !! "p:b"
        = Some {| lastUsed := Some 1000; cooldownUntil := None;
                  errorCount := Some 0 |}
  | None => False
  end.
Proof. vm_compute. repeat split; reflexivity. Qed.

Lemma capability_fallback_bounded_witness :
  ∃ r st,
    scriptedRun resolveAnyKey
      [assistantFailed "Supported values are: 'low' and 'high'"] None
    = Some (r, st).
Proof.
  pose proof (capability_fallback_bounded normalizeProviderId_model
    normalizeThinkLevel_model resolveAnyKey
    (scriptedEngine [assistantFailed "Supported values are: 'low' and 'high'"])
    fixedClock lockAlways (plainParams None) twoKeyStore) as (_ & _ & _ & H).
  apply (H 10%nat). vm_compute. lia.
Defined.

(** As the design words it the property fails: in one run the level [off] is attempted on
    [p:a] and, after the rotation, again on [p:b]. *)
Lemma same_level_attempted_on_two_profiles :
  ∃ r st,
    scriptedRun resolveAnyKey [assistantFailed "401 Unauthorized"] None
    = Some (r, st)
    ∧ attemptsOf (trace st) = [(0%nat, off); (1%nat, off)]
    ∧ ¬ NoDup (map snd (attemptsOf (trace st))).
Proof.
  eexists _, _. split; [vm_compute; reflexivity |].
  split; [vm_compute; reflexivity |].
  vm_compute. intros H. apply NoDup_cons in H as [H _]. apply H. by left.
Qed.

Example thrown_overflow_leaves_state :
  let env := makeEnv normalizeProviderId_model fixedClock (plainParams None)
               twoKeyStore in
  afterAttempt normalizeThinkLevel_model resolveAnyKey fixedClock lockAlways
    env (promptThrew "request_too_large") (initialState env twoKeyStore)
  = Finished
      (RunPayloads [{| p_text := runnerOverflowText; p_isError := true |}] None)
      (initialState env twoKeyStore).
Proof. reflexivity. Qed.

(** An overflow reported by the assistant message ends the run as well. *)
Example assistant_overflow_finishes :
  match scriptedRun resolveAnyKey [assistantFailed "context length exceeded"]
          None with
  | Some (r, st) =>
      r = RunPayloads
            [{| p_text := contextOverflowText; p_isError := true |}]
            (Some false)
      ∧ attemptsOf (trace st) = [(0%nat, off)]
      ∧ (usageStats (mem (world st)) !! "p:a") ≫= cooldownUntil = None
  | None => False
  end.
Proof. vm_compute. repeat split; reflexivity. Qed.

Lemma explicit_profile_failure_is_immediate_witness :
  scriptedRun (resolveAllBut "p:b") [] (Some " p:b ")
  = Some (RunFailed (ErrorObject "No credentials found for profile"),
          logEvents [EvResolveKey (Some "p:b") false]
            (initialState
               (makeEnv normalizeProviderId_model fixedClock
                  (plainParams (Some " p:b ")) twoKeyStore)
               twoKeyStore)).
Proof.
  pose proof (explicit_profile_failure_is_immediate normalizeProviderId_model
    normalizeThinkLevel_model (resolveAllBut "p:b") (scriptedEngine [])
    fixedClock lockAlways 10 (plainParams (Some " p:b ")) twoKeyStore "p:b"
    eq_refl ltac:(discriminate)) as [_ H].
  apply H; [| reflexivity].
  apply includes_elem_of. vm_compute. reflexivity.
Defined.

(** As the design words it the property fails: the caller pins [p:b]; its key resolves, the
    attempt on it ends with a rate-limit error, and the run goes on with
    [p:a] and returns its reply, with no error and no notice. *)
Lemma pinned_profile_replaced_after_failed_attempt :
  ∃ st,
    scriptedRun resolveAnyKey [assistantFailed "429 rate limit"] (Some "p:b")
    = Some (RunPayloads [{| p_text := "done"; p_isError := false |}]
              (Some false), st)
    ∧ trace st
      = [EvResolveKey (Some "p:b") true; EvAttempt 0 (Some "p:b") off;
         EvMarkCooldown "p:b"; EvResolveKey (Some "p:a") true; EvAdvance 1;
         EvAttempt 1 (Some "p:a") off; EvMarkGood "p:a"; EvMarkUsed "p:a"]
    ∧ lastProfileId st = Some "p:a".
Proof.
  eexists. split; [vm_compute; reflexivity |].
  split; vm_compute; reflexivity.
Qed.

(** C6 at its failing input. The last assistant message of the first attempt
    stopped with the overflow error of a provider whose token count holds the
    digits 429. [isContextOverflowError] accepts the text, and so does
    [isRateLimitErrorMessage], whose pattern looks for 429 anywhere. The
    branch that reads the assistant message tests for a rate limit and has no
    overflow test before it: the run puts [p:a] in cooldown, moves to [p:b]
    and attempts again. The same text thrown by the prompt ends the run with
    the reset payload after one attempt, since that branch tests for the
    overflow first. *)
Theorem assistant_overflow_with_rate_limit_digits_rotates :
  let text :=
    "This model's maximum context length is 8192 tokens. However, your messages resulted in 14290 tokens." in
  isContextOverflowError (Some text) = true
  ∧ isRateLimitErrorMessage text = true
  ∧ match scriptedRun resolveAnyKey [assistantFailed text] None with
    | Some (r, st) =>
        trace st
        = [EvResolveKey (Some "p:a") true; EvAttempt 0 (Some "p:a") off;
           EvMarkCooldown "p:a"; EvResolveKey (Some "p:b") true; EvAdvance 1;
           EvAttempt 1 (Some "p:b") off; EvMarkGood "p:b"; EvMarkUsed "p:b"]
        ∧ usageStats (disk (world st)) !! "p:a"
          = Some {| lastUsed := None; cooldownUntil := Some 61000;
                    errorCount := Some 1 |}
        ∧ r = RunPayloads [{| p_text := "done"; p_isError := false |}]
                (Some false)
    | None => False
    end
  ∧ match scriptedRun resolveAnyKey [promptThrew text] None with
    | Some (r, st) =>
        r = RunPayloads
              [{| p_text := runnerOverflowText; p_isError := true |}] None
        ∧ attemptsOf (trace st) = [(0%nat, off)]
    | None => False
    end.
Proof. vm_compute. repeat split; reflexivity. Qed.

(* ===================================================================== *)
(** * Part III: further properties of the store, the resolver and the loop *)
(* ===================================================================== *)

(** ** Usage statistics *)

Lemma cooldown_positive (n : Z) : 60000 <= calculateAuthProfileCooldownMs n.
Proof.
  destruct (cooldown_cases n) as [[-> ?]|[[-> ?]|[[-> ?]|[-> ?]]]]; lia.
Qed.

Lemma isProfileInCooldown_until (t c : Z) (s : AuthProfileStore)
    (profileId : string) (stats : ProfileUsageStats) :
  statsOf s profileId = Some stats → cooldownUntil stats = Some c → 0 < c →
  isProfileInCooldown t s profileId = true ↔ t < c.
Proof.
  intros Hs Hc Hpos. unfold isProfileInCooldown. rewrite Hs. simpl.
  rewrite Hc. rewrite (proj2 (Z.eqb_neq c 0)) by lia. apply Z.ltb_lt.
Qed.

(** The store that a mark reads: the file with the lock, the caller's copy
    without it. *)
Lemma markWith_applied (locked : bool)
    (updater : AuthProfileStore → option AuthProfileStore) (w : World)
    (updated : AuthProfileStore) :
  updater (if locked then disk w else mem w) = Some updated →
  markWith locked updater w = {| disk := saved updated; mem := updated |}.
Proof.
  intros H. unfold markWith, updateAuthProfileStoreWithLock.
  destruct locked; by rewrite H.
Qed.

(** X1. A cooldown mark on a stored profile raises its error count by one,
    sets [cooldownUntil] to now plus the backoff of the new count and keeps
    [lastUsed], in the caller's copy and on file alike; the profile is then in
    cooldown exactly until that time, and no other profile's statistics
    change. *)
Theorem mark_cooldown_effect (locked : bool) (now : Z) (profileId : string)
    (w : World) (cred : AuthProfileCredential)
    (Hstored :
       obj_get (profiles (if locked then disk w else mem w)) profileId
       = Some cred)
    (Hnow : 0 <= now) :
  let source := if locked then disk w else mem w in
  let w' := markAuthProfileCooldown locked now profileId w in
  let old := default emptyStats (statsOf source profileId) in
  let count := default 0 (errorCount old) + 1 in
  let until := now + calculateAuthProfileCooldownMs count in
  statsOf (mem w') profileId
    = Some {| lastUsed := lastUsed old; cooldownUntil := Some until;
              errorCount := Some count |}
  ∧ statsOf (disk w') profileId = statsOf (mem w') profileId
  ∧ (∀ t, isProfileInCooldown t (mem w') profileId = true ↔ t < until)
  ∧ (∀ other, other ≠ profileId →
       statsOf (mem w') other = statsOf source other)
  ∧ profiles (mem w') = profiles source.
Proof.
  intros source w' old count until.
  assert (Hw : w' = {| disk := saved (withUsageStats source
                 (<[profileId := {| lastUsed := lastUsed old;
                                    cooldownUntil := Some until;
                                    errorCount := Some count |}]>
                    (usageStats source)));
               mem := withUsageStats source
                 (<[profileId := {| lastUsed := lastUsed old;
                                    cooldownUntil := Some until;
                                    errorCount := Some count |}]>
                    (usageStats source)) |}).
  { subst w'. unfold markAuthProfileCooldown. apply markWith_applied.
    unfold cooldownUpdater. rewrite Hstored. reflexivity. }
  rewrite Hw. unfold statsOf. simpl.
  assert (Hget :
    <[profileId := {| lastUsed := lastUsed old; cooldownUntil := Some until;
                      errorCount := Some count |}]> (usageStats source)
      !! profileId
    = Some {| lastUsed := lastUsed old; cooldownUntil := Some until;
              errorCount := Some count |}) by apply lookup_insert_eq.
  split; [exact Hget |]. split; [done |]. split; [| split; [| done]].
  - intros t. eapply isProfileInCooldown_until; [exact Hget | done |].
    pose proof (cooldown_positive count). subst until. lia.
  - intros other Hne. by apply lookup_insert_ne.
Qed.

Lemma mark_cooldown_effect_witness :
  statsOf (mem (markAuthProfileCooldown true 1000 "anthropic:work" oneKeyWorld))
    "anthropic:work"
  = Some {| lastUsed := None; cooldownUntil := Some 61000;
            errorCount := Some 1 |}.
Proof.
  pose proof (mark_cooldown_effect true 1000 "anthropic:work" oneKeyWorld
    (mkApiKey "anthropic" "sk-work") eq_refl ltac:(lia)) as [H _].
  exact H.
Defined.

Lemma mark_cooldown_on_file (t : Z) (profileId : string) (w : World)
    (cred : AuthProfileCredential) :
  obj_get (profiles (disk w)) profileId = Some cred →
  let w1 := markAuthProfileCooldown true t profileId w in
  errorCountOf (disk w1) profileId = errorCountOf (disk w) profileId + 1
  ∧ statsOf (disk w1) profileId ≫= cooldownUntil
    = Some (t + calculateAuthProfileCooldownMs
                  (errorCountOf (disk w) profileId + 1))
  ∧ profiles (disk w1) = profiles (disk w).
Proof.
  intros Hstored w1. subst w1. unfold markAuthProfileCooldown.
  erewrite markWith_applied;
    [| simpl; unfold cooldownUpdater; rewrite Hstored; reflexivity].
  unfold errorCountOf, statsOf. simpl. rewrite lookup_insert_eq. simpl.
  repeat split; by destruct (usageStats (disk w) !! profileId).
Qed.

(** X2. Failures add up: after [k] cooldown marks in a row on a stored
    profile the error count on file has grown by [k], and the cooldown runs
    from the time of the last mark for the backoff of that count. *)
Theorem consecutive_failures_count (profileId : string) (times : list Z)
    (w : World) (cred : AuthProfileCredential)
    (Hstored : obj_get (profiles (disk w)) profileId = Some cred) :
  let w' := markCooldownAt true profileId times w in
  errorCountOf (disk w') profileId
    = errorCountOf (disk w) profileId + Z.of_nat (length times)
  ∧ profiles (disk w') = profiles (disk w)
  ∧ ∀ earlier t, times = (earlier ++ [t])%list →
      statsOf (disk w') profileId ≫= cooldownUntil
      = Some (t + calculateAuthProfileCooldownMs
                    (errorCountOf (disk w) profileId
                     + Z.of_nat (length times))).
Proof.
  simpl. induction times as [|t times IH] using rev_ind.
  - unfold markCooldownAt. simpl. split; [by rewrite Z.add_0_r |]. split; [done |].
    intros earlier t Heq. by destruct earlier.
  - destruct IH as (Hcount & Hprof & _).
    unfold markCooldownAt in *. rewrite foldl_app. simpl.
    set (w0 := foldl _ w times) in *.
    assert (Hst0 : obj_get (profiles (disk w0)) profileId = Some cred)
      by by rewrite Hprof.
    destruct (mark_cooldown_on_file t profileId w0 cred Hst0)
      as (Hc1 & Hu1 & Hp1).
    rewrite length_app, Nat2Z.inj_add. simpl.
    split; [rewrite Hc1, Hcount; lia |].
    split; [by rewrite Hp1 |].
    intros earlier t' Heq. apply app_inj_tail in Heq as [_ <-].
    rewrite Hu1, Hcount. do 3 f_equal. lia.
Qed.

Lemma consecutive_failures_count_witness :
  errorCountOf
    (disk (markCooldownAt true "anthropic:work" [1000; 2000; 3000; 4000]
             oneKeyWorld)) "anthropic:work"
  = 4.
Proof.
  pose proof (consecutive_failures_count "anthropic:work"
    [1000; 2000; 3000; 4000] oneKeyWorld (mkApiKey "anthropic" "sk-work")
    eq_refl) as [H _].
  exact H.
Defined.

(** X3. A success mark on a stored profile sets [lastUsed] to now, the error
    count to zero and removes the cooldown, in the caller's copy and on file;
    the profile is in cooldown at no time afterwards, and the next failure
    counts as the first one. *)
Theorem mark_used_resets (locked : bool) (now : Z) (profileId : string)
    (w : World) (cred : AuthProfileCredential)
    (Hstored :
       obj_get (profiles (if locked then disk w else mem w)) profileId
       = Some cred) :
  let w' := markAuthProfileUsed locked now profileId w in
  statsOf (mem w') profileId
    = Some {| lastUsed := Some now; cooldownUntil := None;
              errorCount := Some 0 |}
  ∧ statsOf (disk w') profileId = statsOf (mem w') profileId
  ∧ (∀ t, isProfileInCooldown t (mem w') profileId = false)
  ∧ (∀ t, statsOf (mem (markAuthProfileCooldown locked t profileId w'))
            profileId ≫= errorCount = Some 1).
Proof.
  intros w'.
  assert (Hw : w' = {| disk := saved (withUsageStats
                 (if locked then disk w else mem w)
                 (<[profileId := {| lastUsed := Some now;
                                    cooldownUntil := None;
                                    errorCount := Some 0 |}]>
                    (usageStats (if locked then disk w else mem w))));
               mem := withUsageStats (if locked then disk w else mem w)
                 (<[profileId := {| lastUsed := Some now;
                                    cooldownUntil := None;
                                    errorCount := Some 0 |}]>
                    (usageStats (if locked then disk w else mem w))) |}).
  { subst w'. unfold markAuthProfileUsed. apply markWith_applied.
    unfold usedUpdater. by rewrite Hstored. }
  rewrite Hw. unfold statsOf. simpl. rewrite lookup_insert_eq.
  split; [done |]. split; [done |]. split.
  - intros t. unfold isProfileInCooldown, statsOf. simpl.
    by rewrite lookup_insert_eq.
  - intros t. unfold markAuthProfileCooldown.
    destruct locked.
    all: erewrite markWith_applied;
      [| unfold cooldownUpdater; simpl; rewrite Hstored; simpl;
         rewrite lookup_insert_eq; reflexivity].
    all: simpl; by rewrite lookup_insert_eq.
Qed.

Lemma mark_used_resets_witness :
  statsOf
    (mem (markAuthProfileUsed true 5000 "anthropic:work"
            (markAuthProfileCooldown true 1000 "anthropic:work" oneKeyWorld)))
    "anthropic:work"
  = Some {| lastUsed := Some 5000; cooldownUntil := None;
            errorCount := Some 0 |}.
Proof.
  pose proof (mark_used_resets true 5000 "anthropic:work"
    (markAuthProfileCooldown true 1000 "anthropic:work" oneKeyWorld)
    (mkApiKey "anthropic" "sk-work") eq_refl) as [H _].
  exact H.
Defined.

Lemma markWith_skipped (locked : bool)
    (updater : AuthProfileStore → option AuthProfileStore) (w : World) :
  updater (if locked then disk w else mem w) = None →
  markWith locked updater w
  = if locked then {| disk := disk w; mem := disk w |} else w.
Proof.
  intros H. unfold markWith, updateAuthProfileStoreWithLock.
  destruct locked; by rewrite H.
Qed.



(** X5. Whatever a mark does, it leaves the world as it was or leaves the
    file and the caller's copy with the same profiles, [lastGood] and usage
    statistics: also when the lock is not obtained the change is written to
    the file. *)
Theorem mark_keeps_file_and_copy_in_step (locked : bool)
    (updater : AuthProfileStore → option AuthProfileStore) (w : World) :
  let w' := markWith locked updater w in
  w' = w
  ∨ (profiles (disk w') = profiles (mem w')
     ∧ lastGood (disk w') = lastGood (mem w')
     ∧ usageStats (disk w') = usageStats (mem w')
     ∧ (updater (if locked then disk w else mem w) = None
        ∨ updater (if locked then disk w else mem w) = Some (mem w'))).
Proof.
  simpl.
  destruct (updater (if locked then disk w else mem w)) as [updated|] eqn:Hu.
  - right. rewrite (markWith_applied _ _ _ _ Hu). simpl. eauto 6.
  - rewrite (markWith_skipped _ _ _ Hu).
    destruct locked; [right; simpl; eauto 6 | by left].
Qed.


(** X7. [markAuthProfileGood] records the profile as the provider's last good
    one only when the stored credential names exactly that provider string;
    it then changes no other provider's entry and no usage statistics.
    Otherwise it writes nothing. *)
Theorem mark_good_effect (locked : bool) (provider profileId : string)
    (w : World) (cred : AuthProfileCredential)
    (Hstored :
       obj_get (profiles (if locked then disk w else mem w)) profileId
       = Some cred) :
  let source := if locked then disk w else mem w in
  let w' := markAuthProfileGood locked provider profileId w in
  (cred_provider cred = provider →
     lastGood (mem w') !! provider = Some profileId
     ∧ lastGood (disk w') = lastGood (mem w')
     ∧ (∀ other, other ≠ provider →
          lastGood (mem w') !! other = lastGood source !! other)
     ∧ usageStats (mem w') = usageStats source)
  ∧ (cred_provider cred ≠ provider →
     w' = if locked then {| disk := disk w; mem := disk w |} else w).
Proof.
  simpl. split.
  - intros Hprov. unfold markAuthProfileGood.
    erewrite markWith_applied;
      [| unfold goodUpdater; rewrite Hstored, Hprov, String.eqb_refl;
         reflexivity].
    simpl. rewrite lookup_insert_eq. repeat split; try done.
    intros other Hne. by apply lookup_insert_ne.
  - intros Hprov. apply markWith_skipped. unfold goodUpdater.
    rewrite Hstored. by rewrite (proj2 (String.eqb_neq _ _) Hprov).
Qed.

Lemma mark_good_effect_witness :
  lastGood (mem (markAuthProfileGood true "anthropic" "anthropic:work"
                   oneKeyWorld)) !! "anthropic"
  = Some "anthropic:work".
Proof.
  pose proof (mark_good_effect true "anthropic" "anthropic:work" oneKeyWorld
    (mkApiKey "anthropic" "sk-work") eq_refl) as [H _].
  by apply H.
Defined.

(** ** The resolved order as an arrangement of the candidates *)

Lemma elem_of_filter_bool {A : Type} (f : A → bool) (l : list A) (x : A) :
  x ∈ List.filter f l ↔ f x = true ∧ x ∈ l.
Proof. rewrite !list_elem_of_In, filter_In. tauto. Qed.

Lemma NoDup_filter_bool {A : Type} (f : A → bool) (l : list A) :
  NoDup l → NoDup (List.filter f l).
Proof.
  induction 1 as [|x l Hx Hl IH]; simpl; [constructor |].
  destruct (f x); [| done]. constructor; [| done].
  rewrite elem_of_filter_bool. tauto.
Qed.

Lemma filter_partition_perm {A : Type} (f : A → bool) (l : list A) :
  (List.filter (λ x, negb (f x)) l ++ List.filter f l)%list ≡ₚ l.
Proof.
  induction l as [|x l IH]; simpl; [done |].
  destruct (f x); simpl.
  - rewrite <-Permutation_middle. by constructor.
  - by constructor.
Qed.

Lemma dedupe_elem_of (l : list string) (x : string) :
  x ∈ dedupe_into [] l ↔ x ∈ l.
Proof.
  induction l as [|y l IH]; [done |].
  rewrite dedupe_first_occurrence, !elem_of_cons, elem_of_filter_bool, IH.
  destruct (String.eqb_spec x y) as [->|Hne]; simpl; [tauto |].
  split; [intros [?|[_ ?]] | intros [?|?]]; tauto.
Qed.

Lemma dedupe_NoDup (l : list string) : NoDup (dedupe_into [] l).
Proof.
  induction l as [|y l IH]; [constructor |].
  rewrite dedupe_first_occurrence. constructor.
  - rewrite elem_of_filter_bool, String.eqb_refl. simpl. by intros [? _].
  - by apply NoDup_filter_bool.
Qed.

Lemma orderProfilesByMode_perm (now : Z) (order : list string)
    (store : AuthProfileStore) :
  orderProfilesByMode now order store ≡ₚ order.
Proof.
  destruct (orderProfilesByMode_halves now order store)
    as (av & co & -> & Hav & Hco & _).
  rewrite Hav, Hco. apply filter_partition_perm.
Qed.

Lemma preferFirst_perm (preferredProfile : option string) (l : list string) :
  NoDup l → preferFirst preferredProfile l ≡ₚ l.
Proof.
  intros Hnd. unfold preferFirst.
  destruct preferredProfile as [p|]; [| done].
  destruct (truthy (Some p) && includes l p) eqn:Hcond; [| done].
  apply andb_true_iff in Hcond as [_ Hin]. apply includes_elem_of in Hin.
  clear -Hnd Hin. induction Hnd as [|x l Hx Hl IH]; [by inversion Hin |].
  simpl. destruct (String.eqb_spec x p) as [->|Hne]; simpl.
  - constructor. rewrite filter_all_true; [done |].
    intros y Hy. apply negb_true_iff, String.eqb_neq. intros ->. done.
  - apply elem_of_cons in Hin as [->|Hin]; [done |].
    rewrite perm_swap. constructor. by apply IH.
Qed.

Lemma resolve_order_shape (normalizeProviderId : string → string) (now : Z)
    (cfg : option ClawdbotConfig) (store : AuthProfileStore)
    (provider : string) (preferredProfile : option string) :
  let kept :=
    dedupe_into []
      (List.filter
         (providerMatches normalizeProviderId store
            (normalizeProviderId provider))
         (baseOrderOf normalizeProviderId cfg store provider)) in
  resolveAuthProfileOrder normalizeProviderId now cfg store provider
    preferredProfile
  = preferFirst preferredProfile kept
  ∨ resolveAuthProfileOrder normalizeProviderId now cfg store provider
      preferredProfile
    = preferFirst preferredProfile (orderProfilesByMode now kept store).
Proof.
  cbv zeta. unfold resolveAuthProfileOrder, baseOrderOf.
  destruct (configuredOrderOf _ _ _) as [[|c0 cs]|].
  - left. by destruct preferredProfile as [[|c s]|].
  - left. reflexivity.
  - destruct (explicitProfilesOf _ _ _) as [|e0 es].
    + destruct (listProfilesForProvider _ _ _) as [|s0 ss];
        [| right; reflexivity].
      left. by destruct preferredProfile as [[|c s]|].
    + right. reflexivity.
Qed.

Lemma resolve_order_perm_kept (normalizeProviderId : string → string)
    (now : Z) (cfg : option ClawdbotConfig) (store : AuthProfileStore)
    (provider : string) (preferredProfile : option string) :
  resolveAuthProfileOrder normalizeProviderId now cfg store provider
    preferredProfile
  ≡ₚ dedupe_into []
       (List.filter
          (providerMatches normalizeProviderId store
             (normalizeProviderId provider))
          (baseOrderOf normalizeProviderId cfg store provider)).
Proof.
  destruct (resolve_order_shape normalizeProviderId now cfg store provider
              preferredProfile) as [H|H]; rewrite H.
  - apply preferFirst_perm, dedupe_NoDup.
  - rewrite preferFirst_perm; [apply orderProfilesByMode_perm |].
    rewrite orderProfilesByMode_perm. apply dedupe_NoDup.
Qed.

Lemma resolve_order_members (normalizeProviderId : string → string)
    (now : Z) (cfg : option ClawdbotConfig) (store : AuthProfileStore)
    (provider : string) (preferredProfile : option string) (p : string) :
  p ∈ resolveAuthProfileOrder normalizeProviderId now cfg store provider
        preferredProfile
  ↔ p ∈ baseOrderOf normalizeProviderId cfg store provider
    ∧ providerMatches normalizeProviderId store
        (normalizeProviderId provider) p = true.
Proof.
  rewrite resolve_order_perm_kept, dedupe_elem_of, elem_of_filter_bool. tauto.
Qed.

(** X8. The resolved order is an arrangement of the candidates that pass the
    provider filter: it has no duplicates, and a profile id is in it exactly
    when it is a base candidate whose stored credential, if there is one,
    belongs to the provider. In particular a candidate in cooldown is moved
    back, never left out. *)
Theorem resolve_order_arrangement (normalizeProviderId : string → string)
    (now : Z) (cfg : option ClawdbotConfig) (store : AuthProfileStore)
    (provider : string) (preferredProfile : option string) :
  let result :=
    resolveAuthProfileOrder normalizeProviderId now cfg store provider
      preferredProfile in
  let base := baseOrderOf normalizeProviderId cfg store provider in
  NoDup result
  ∧ result
      ≡ₚ dedupe_into []
           (List.filter
              (providerMatches normalizeProviderId store
                 (normalizeProviderId provider)) base)
  ∧ (∀ p, p ∈ result ↔
       p ∈ base
       ∧ providerMatches normalizeProviderId store
           (normalizeProviderId provider) p = true)
  ∧ (length result <= length base)%nat.
Proof.
  intros result base.
  pose proof (resolve_order_perm_kept normalizeProviderId now cfg store
                provider preferredProfile) as Hperm.
  fold result base in Hperm.
  split; [rewrite Hperm; apply dedupe_NoDup |].
  split; [exact Hperm |]. split.
  - intros p. apply resolve_order_members.
  - rewrite Hperm.
    apply submseteq_length, NoDup_submseteq; [apply dedupe_NoDup |].
    intros p. rewrite dedupe_elem_of, elem_of_filter_bool. tauto.
Qed.

Lemma obj_get_of_entry {V : Type} (o : list (string * V)) (k : string) (v : V) :
  (k, v) ∈ o → ∃ v', obj_get o k = Some v'.
Proof.
  induction o as [|[k0 v0] o IH]; [by intros H%not_elem_of_nil |].
  intros Hin. simpl. destruct (String.eqb_spec k0 k) as [->|Hne]; [eauto |].
  apply elem_of_cons in Hin as [[= -> ->]|Hin]; [done | by apply IH].
Qed.

(** X9. The resolver never returns a profile whose stored credential belongs
    to another provider; and without any config every returned id names a
    stored credential. *)
Theorem resolve_order_matches_provider (normalizeProviderId : string → string)
    (now : Z) (cfg : option ClawdbotConfig) (store : AuthProfileStore)
    (provider : string) (preferredProfile : option string) (p : string)
    (Hin : p ∈ resolveAuthProfileOrder normalizeProviderId now cfg store
               provider preferredProfile) :
  (∀ cred, obj_get (profiles store) p = Some cred →
     normalizeProviderId (cred_provider cred) = normalizeProviderId provider)
  ∧ (cfg = None → ∃ cred, obj_get (profiles store) p = Some cred).
Proof.
  apply resolve_order_members in Hin as [Hbase Hmatch]. split.
  - intros cred Hcred. unfold providerMatches in Hmatch.
    rewrite Hcred in Hmatch. by apply String.eqb_eq.
  - intros ->. unfold baseOrderOf in Hbase. simpl in Hbase.
    unfold listProfilesForProvider in Hbase.
    apply list_elem_of_fmap in Hbase as ([k cred] & -> & Hentry).
    apply elem_of_filter_bool in Hentry as [_ Hentry].
    by eapply obj_get_of_entry.
Qed.

Lemma resolve_order_matches_provider_witness :
  ∃ cred, obj_get (profiles anthropicStore) "anthropic:work" = Some cred.
Proof.
  pose proof (resolve_order_matches_provider normalizeProviderId_model 0 None
    anthropicStore "anthropic" None "anthropic:work") as H.
  apply H; [| reflexivity].
  apply includes_elem_of. vm_compute. reflexivity.
Defined.

Lemma resolve_order_prefers (normalizeProviderId : string → string) (now : Z)
    (cfg : option ClawdbotConfig) (store : AuthProfileStore)
    (provider : string) (preferredProfile : option string) :
  resolveAuthProfileOrder normalizeProviderId now cfg store provider
    preferredProfile
  = preferFirst preferredProfile
      (resolveAuthProfileOrder normalizeProviderId now cfg store provider None).
Proof.
  unfold resolveAuthProfileOrder.
  set (base := match configuredOrderOf _ _ _ with Some o => o | None => _ end).
  destruct base as [|b0 bs]; [by destruct preferredProfile as [[|c s]|] |].
  by destruct (configuredOrderOf _ _ _) as [[|c0 cs]|].
Qed.

(** X10. A preferred profile only changes its own position: the resolved
    order is the order without a preference, with the preferred id moved to
    the front when it is a non-empty id of that order; an empty preference or
    one that is not in the order changes nothing. *)
Theorem preference_only_moves (normalizeProviderId : string → string)
    (now : Z) (cfg : option ClawdbotConfig) (store : AuthProfileStore)
    (provider p : string) :
  let resolve :=
    resolveAuthProfileOrder normalizeProviderId now cfg store provider in
  resolve (Some "") = resolve None
  ∧ (p ∉ resolve None → resolve (Some p) = resolve None)
  ∧ (p ≠ "" → p ∈ resolve None →
     resolve (Some p)
     = p :: List.filter (λ e, negb (String.eqb e p)) (resolve None)).
Proof.
  intros resolve. subst resolve. split; [| split].
  - by rewrite resolve_order_prefers.
  - intros Hnotin. rewrite resolve_order_prefers. unfold preferFirst.
    destruct (includes _ p) eqn:Hin; [| by rewrite andb_false_r].
    by apply includes_elem_of in Hin.
  - intros Hne Hin. rewrite resolve_order_prefers. unfold preferFirst.
    apply includes_elem_of in Hin. rewrite Hin. by destruct p.
Qed.

(** ** Key resolution without a refresh *)

Section ResolveApiKeyMore.
Variable stringifyTokenProject : string → option string → string.

(** X11. A profile that is not stored resolves to [null]. An API key, a
    token, and an OAuth credential that has not expired are resolved without
    the refresh path: the call returns (it does not throw), the result is the
    same whatever a refresh would do, and a key that is returned carries the
    provider and email of the stored credential. *)
Theorem static_credentials_need_no_refresh
    (refresh1 refresh2 :
       option ClawdbotConfig → AuthProfileStore → string → OAuthCredential →
       Result (option ResolvedKey))
    (now : Z) (cfg : option ClawdbotConfig) (store : AuthProfileStore)
    (profileId : string) :
  (obj_get (profiles store) profileId = None →
     resolveApiKeyForProfile stringifyTokenProject refresh1 now cfg store
       profileId = Returned None)
  ∧ (∀ cred,
       obj_get (profiles store) profileId = Some cred →
       (∀ o, cred = OAuth o → now < oa_expires o) →
       resolveApiKeyForProfile stringifyTokenProject refresh1 now cfg store
         profileId
       = resolveApiKeyForProfile stringifyTokenProject refresh2 now cfg store
           profileId
       ∧ ∃ r,
           resolveApiKeyForProfile stringifyTokenProject refresh1 now cfg
             store profileId = Returned r
           ∧ ∀ key, r = Some key →
               rk_provider key = cred_provider cred
               ∧ rk_email key = cred_email cred).
Proof.
  split.
  - intros Hnone. unfold resolveApiKeyForProfile. by rewrite Hnone.
  - intros cred Hcred Hlive.
    assert (Hstored : ∀ refresh,
      resolveStoredCredential stringifyTokenProject refresh now cfg store
        profileId cred
      = resolveStoredCredential stringifyTokenProject refresh1 now cfg store
          profileId cred
      ∧ ∃ r,
          resolveStoredCredential stringifyTokenProject refresh now cfg store
            profileId cred = Returned r
          ∧ ∀ key, r = Some key →
              rk_provider key = cred_provider cred
              ∧ rk_email key = cred_email cred).
    { intros refresh. destruct cred as [k|t|o]; simpl.
      - split; [done |]. eexists. split; [done |]. by intros key [= <-].
      - split; [done |].
        destruct (String.eqb _ "");
          [exists None; split; [done | by intros key [=]] |].
        destruct (tk_expires t) as [e|].
        + destruct ((0 <? e) && (e <=? now));
            [exists None; split; [done | by intros key [=]] |].
          eexists. split; [done |]. by intros key [= <-].
        + eexists. split; [done |]. by intros key [= <-].
      - rewrite (proj2 (Z.ltb_lt _ _) (Hlive o eq_refl)).
        split; [done |]. eexists. split; [done |]. by intros key [= <-]. }
    unfold resolveApiKeyForProfile. rewrite Hcred.
    destruct (profileConfigOf cfg profileId) as [pc|].
    + destruct (negb (String.eqb _ _));
        [split; [done |]; exists None; split; [done | by intros key [=]] |].
      destruct (negb (bool_decide _) && negb _);
        [split; [done |]; exists None; split; [done | by intros key [=]] |].
      split; [| apply Hstored].
      destruct (Hstored refresh2) as [-> _]. done.
    + split; [| apply Hstored].
      destruct (Hstored refresh2) as [-> _]. done.
Qed.

(** X12. A stored token of ASCII characters, under a config that does not
    declare the profile or declares it with the token's provider and the mode
    token or oauth, resolves to [null] exactly when it is blank or has an
    expiry that is positive and not after now (an expiry of zero or below
    never expires it); otherwise the key is the token without surrounding
    white space. *)
Theorem token_resolution (refresh :
       option ClawdbotConfig → AuthProfileStore → string → OAuthCredential →
       Result (option ResolvedKey))
    (now : Z) (cfg : option ClawdbotConfig) (store : AuthProfileStore)
    (profileId : string) (t : TokenCredential)
    (Hstored : obj_get (profiles store) profileId = Some (Token t))
    (Hascii : asciiOnly (tk_token t) = true)
    (Hcfg : ∀ pc, profileConfigOf cfg profileId = Some pc →
              pc_provider pc = tk_provider t
              ∧ (pc_mode pc = token ∨ pc_mode pc = oauth)) :
  let expired :=
    ∃ e, tk_expires t = Some e ∧ 0 < e ∧ e <= now in
  let result :=
    resolveApiKeyForProfile stringifyTokenProject refresh now cfg store
      profileId in
  (result = Returned None ↔ trim (tk_token t) = "" ∨ expired)
  ∧ (trim (tk_token t) ≠ "" → ¬ expired →
     result = Returned (Some {| rk_apiKey := trim (tk_token t);
                                rk_provider := tk_provider t;
                                rk_email := tk_email t |})).
Proof.
  cbv zeta.
  assert (Hgo :
    resolveApiKeyForProfile stringifyTokenProject refresh now cfg store
      profileId
    = resolveStoredCredential stringifyTokenProject refresh now cfg store
        profileId (Token t)).
  { unfold resolveApiKeyForProfile. rewrite Hstored. cbv zeta.
    destruct (profileConfigOf cfg profileId) as [pc|]; [| done].
    destruct (Hcfg pc eq_refl) as [-> Hmode]. cbn [cred_provider cred_type].
    rewrite String.eqb_refl. cbn [negb].
    by destruct Hmode as [-> | ->]. }
  rewrite Hgo. clear Hgo. cbn [resolveStoredCredential]. cbv zeta.
  destruct (String.eqb_spec (trim (tk_token t)) "") as [Hblank|Hblank].
  - split; [| done]. split; [by left | done].
  - destruct (tk_expires t) as [e|] eqn:He.
    + destruct (Z.ltb_spec 0 e) as [Hpos|Hpos];
        destruct (Z.leb_spec e now) as [Hle|Hle]; simpl.
      * split; [| intros _ Hno; exfalso; apply Hno; eauto].
        split; [intros _; right; eauto | done].
      * split; [| done]. split; [done |].
        intros [?|(e' & [= <-] & ? & ?)]; [done | lia].
      * split; [| done]. split; [done |].
        intros [?|(e' & [= <-] & ? & ?)]; [done | lia].
      * split; [| done]. split; [done |].
        intros [?|(e' & [= <-] & ? & ?)]; [done | lia].
    + split; [| done]. split; [done |].
      intros [?|(e' & ? & _)]; done.
Qed.

End ResolveApiKeyMore.

Lemma token_resolution_witness :
  resolveApiKeyForProfile plainStringify refreshAlwaysFails 1000 None
    claudeTokenStore CLAUDE_CLI_PROFILE_ID
  = Returned (Some {| rk_apiKey := "store-access"; rk_provider := "anthropic";
                      rk_email := None |}).
Proof.
  pose proof (token_resolution plainStringify refreshAlwaysFails 1000 None
    claudeTokenStore CLAUDE_CLI_PROFILE_ID
    {| tk_provider := "anthropic"; tk_token := "store-access";
       tk_expires := Some 5000; tk_email := None |} eq_refl eq_refl
    ltac:(by intros pc [=])) as [_ H].
  apply H; [discriminate |].
  intros (e & [= <-] & _ & Hle). lia.
Defined.

(** ** The sync of external credentials, again *)

Lemma shallowEqualToken_eq (a b : TokenCredential) :
  shallowEqualTokenCredentials (Some a) b = true ↔ a = b.
Proof.
  unfold shallowEqualTokenCredentials. rewrite !andb_true_iff.
  rewrite !String.eqb_eq, !bool_decide_eq_true.
  destruct a, b; simpl. split; [intros [[[-> ->] ->] ->] | intros [= -> -> -> ->]];
    done.
Qed.

Lemma shallowEqualOAuth_eq (a b : OAuthCredential) :
  shallowEqualOAuthCredentials (Some a) b = true ↔ a = b.
Proof.
  unfold shallowEqualOAuthCredentials. rewrite !andb_true_iff.
  rewrite !String.eqb_eq, !bool_decide_eq_true, Z.eqb_eq.
  destruct a, b; simpl.
  split; [intros [[[[[[[-> ->] ->] ->] ->] ->] ->] ->] | intros [= -> -> -> -> -> -> -> ->]];
    done.
Qed.

Lemma syncClaudeCli_unchanged (now : Z) (c : TokenCredential)
    (s : AuthProfileStore) :
  (syncClaudeCli now c s).2 = false → syncClaudeCli now c s = (s, false).
Proof.
  unfold syncClaudeCli.
  by match goal with |- context [if ?b then _ else _] => destruct b end.
Qed.

Lemma syncClaudeCli_written (now : Z) (c : TokenCredential)
    (s : AuthProfileStore) :
  (syncClaudeCli now c s).2 = true →
  (syncClaudeCli now c s).1 = setProfile s CLAUDE_CLI_PROFILE_ID (Token c)
  ∧ obj_get (profiles s) CLAUDE_CLI_PROFILE_ID ≠ Some (Token c).
Proof.
  unfold syncClaudeCli.
  destruct (obj_get (profiles s) CLAUDE_CLI_PROFILE_ID) as [[k|t|o]|] eqn:E;
    (match goal with |- context [if ?b then _ else _] => destruct b eqn:Hb end;
     [| done]);
    intros _; (split; [done |]); try done.
  intros [= ->].
  apply andb_true_iff in Hb as [_ Hb]. apply negb_true_iff in Hb.
  assert (shallowEqualTokenCredentials (Some c) c = true)
    by by apply shallowEqualToken_eq.
  congruence.
Qed.

Lemma syncClaudeCli_same_decision (now : Z) (c : TokenCredential)
    (s s' : AuthProfileStore) :
  obj_get (profiles s) CLAUDE_CLI_PROFILE_ID
    = obj_get (profiles s') CLAUDE_CLI_PROFILE_ID →
  (syncClaudeCli now c s).2 = (syncClaudeCli now c s').2.
Proof.
  intros H. unfold syncClaudeCli. rewrite H.
  by match goal with |- context [if ?b then _ else _] => destruct b end.
Qed.

Lemma syncClaudeCli_settled (now : Z) (c : TokenCredential)
    (s : AuthProfileStore) :
  obj_get (profiles s) CLAUDE_CLI_PROFILE_ID = Some (Token c) →
  (syncClaudeCli now c s).2 = false.
Proof.
  intros H. unfold syncClaudeCli. rewrite H.
  rewrite (proj2 (shallowEqualToken_eq c c) eq_refl). simpl.
  by rewrite andb_false_r.
Qed.

Lemma syncCodexCli_unchanged (now : Z) (d : OAuthCredential)
    (s : AuthProfileStore) :
  (syncCodexCli now d s).2 = false → syncCodexCli now d s = (s, false).
Proof.
  unfold syncCodexCli.
  by match goal with |- context [if ?b then _ else _] => destruct b end.
Qed.

Lemma syncCodexCli_written (now : Z) (d : OAuthCredential)
    (s : AuthProfileStore) :
  (syncCodexCli now d s).2 = true →
  (syncCodexCli now d s).1 = setProfile s CODEX_CLI_PROFILE_ID (OAuth d)
  ∧ obj_get (profiles s) CODEX_CLI_PROFILE_ID ≠ Some (OAuth d).
Proof.
  unfold syncCodexCli.
  destruct (obj_get (profiles s) CODEX_CLI_PROFILE_ID) as [[k|t|o]|] eqn:E;
    (match goal with |- context [if ?b then _ else _] => destruct b eqn:Hb end;
     [| done]);
    intros _; (split; [done |]); try done.
  intros [= ->].
  apply andb_true_iff in Hb as [_ Hb]. apply negb_true_iff in Hb.
  assert (shallowEqualOAuthCredentials (Some d) d = true)
    by by apply shallowEqualOAuth_eq.
  congruence.
Qed.

Lemma syncCodexCli_same_decision (now : Z) (d : OAuthCredential)
    (s s' : AuthProfileStore) :
  obj_get (profiles s) CODEX_CLI_PROFILE_ID
    = obj_get (profiles s') CODEX_CLI_PROFILE_ID →
  (syncCodexCli now d s).2 = (syncCodexCli now d s').2.
Proof.
  intros H. unfold syncCodexCli. rewrite H.
  by match goal with |- context [if ?b then _ else _] => destruct b end.
Qed.

Lemma syncCodexCli_settled (now : Z) (d : OAuthCredential)
    (s : AuthProfileStore) :
  obj_get (profiles s) CODEX_CLI_PROFILE_ID = Some (OAuth d) →
  (syncCodexCli now d s).2 = false.
Proof.
  intros H. unfold syncCodexCli. rewrite H.
  rewrite (proj2 (shallowEqualOAuth_eq d d) eq_refl). simpl.
  by rewrite andb_false_r.
Qed.

Lemma obj_get_setProfile_same (s : AuthProfileStore) (profileId : string)
    (cred : AuthProfileCredential) :
  obj_get (profiles (setProfile s profileId cred)) profileId = Some cred.
Proof. simpl. by rewrite obj_get_set, String.eqb_refl. Qed.

(** After a sync step the same step has nothing left to do, on any store
    that holds the same credential under the reserved id. *)
Lemma syncClaudeCli_stable (now : Z) (c : TokenCredential)
    (s s' : AuthProfileStore) :
  obj_get (profiles s') CLAUDE_CLI_PROFILE_ID
    = obj_get (profiles (syncClaudeCli now c s).1) CLAUDE_CLI_PROFILE_ID →
  syncClaudeCli now c s' = (s', false).
Proof.
  intros H. apply syncClaudeCli_unchanged.
  destruct (syncClaudeCli now c s).2 eqn:Hm.
  - apply syncClaudeCli_written in Hm as [Hw _]. rewrite Hw in H.
    rewrite obj_get_setProfile_same in H. by apply syncClaudeCli_settled.
  - rewrite (syncClaudeCli_unchanged _ _ _ Hm) in H. simpl in H.
    by rewrite (syncClaudeCli_same_decision now c s' s H).
Qed.

Lemma syncCodexCli_stable (now : Z) (d : OAuthCredential)
    (s s' : AuthProfileStore) :
  obj_get (profiles s') CODEX_CLI_PROFILE_ID
    = obj_get (profiles (syncCodexCli now d s).1) CODEX_CLI_PROFILE_ID →
  syncCodexCli now d s' = (s', false).
Proof.
  intros H. apply syncCodexCli_unchanged.
  destruct (syncCodexCli now d s).2 eqn:Hm.
  - apply syncCodexCli_written in Hm as [Hw _]. rewrite Hw in H.
    rewrite obj_get_setProfile_same in H. by apply syncCodexCli_settled.
  - rewrite (syncCodexCli_unchanged _ _ _ Hm) in H. simpl in H.
    by rewrite (syncCodexCli_same_decision now d s' s H).
Qed.

(** X13. The sync is idempotent: syncing the result again, with the same
    external credentials at the same time, changes nothing and reports no
    update. *)
Theorem sync_idempotent (now : Z) (claude : option TokenCredential)
    (codex : option OAuthCredential) (store : AuthProfileStore) :
  let synced := (syncExternalCliCredentials now claude codex store).1 in
  syncExternalCliCredentials now claude codex synced = (synced, false).
Proof.
  simpl. unfold syncExternalCliCredentials.
  destruct claude as [c|], codex as [d|].
  - destruct (syncClaudeCli now c store) as [s1 m1] eqn:E1.
    destruct (syncCodexCli now d s1) as [s2 m2] eqn:E2. simpl.
    assert (H1 : syncClaudeCli now c s2 = (s2, false)).
    { apply (syncClaudeCli_stable now c store). rewrite E1. simpl.
      change s2 with (s2, m2).1. rewrite <-E2.
      apply syncCodexCli_other, reserved_ids_differ. }
    rewrite H1.
    assert (H2 : syncCodexCli now d s2 = (s2, false)).
    { apply (syncCodexCli_stable now d s1). by rewrite E2. }
    by rewrite H2.
  - destruct (syncClaudeCli now c store) as [s1 m1] eqn:E1. simpl.
    assert (H1 : syncClaudeCli now c s1 = (s1, false)).
    { apply (syncClaudeCli_stable now c store). by rewrite E1. }
    by rewrite H1.
  - destruct (syncCodexCli now d store) as [s2 m2] eqn:E2. simpl.
    assert (H2 : syncCodexCli now d s2 = (s2, false)).
    { apply (syncCodexCli_stable now d store). by rewrite E2. }
    by rewrite H2.
  - done.
Qed.

Lemma setProfile_changes (s : AuthProfileStore) (profileId : string)
    (cred : AuthProfileCredential) :
  obj_get (profiles s) profileId ≠ Some cred →
  ∀ s', obj_get (profiles s') profileId = Some cred → s' ≠ s.
Proof. intros Hne s' Hget ->. done. Qed.

(** X14. The flag the sync returns is accurate: it is [true] exactly when the
    store has changed. *)
Theorem sync_reports_changes (now : Z) (claude : option TokenCredential)
    (codex : option OAuthCredential) (store : AuthProfileStore) :
  let result := syncExternalCliCredentials now claude codex store in
  (result.2 = false → result.1 = store)
  ∧ (result.2 = true → result.1 ≠ store).
Proof.
  simpl. unfold syncExternalCliCredentials.
  assert (Hclaude : ∀ c s, let r := syncClaudeCli now c s in
            (r.2 = false → r.1 = s)
            ∧ (r.2 = true →
               obj_get (profiles r.1) CLAUDE_CLI_PROFILE_ID
               ≠ obj_get (profiles s) CLAUDE_CLI_PROFILE_ID)).
  { intros c s r. subst r. split.
    - intros H. by rewrite (syncClaudeCli_unchanged _ _ _ H).
    - intros H. apply syncClaudeCli_written in H as [-> Hne].
      rewrite obj_get_setProfile_same. congruence. }
  assert (Hcodex : ∀ d s, let r := syncCodexCli now d s in
            (r.2 = false → r.1 = s)
            ∧ (r.2 = true →
               obj_get (profiles r.1) CODEX_CLI_PROFILE_ID
               ≠ obj_get (profiles s) CODEX_CLI_PROFILE_ID)).
  { intros d s r. subst r. split.
    - intros H. by rewrite (syncCodexCli_unchanged _ _ _ H).
    - intros H. apply syncCodexCli_written in H as [-> Hne].
      rewrite obj_get_setProfile_same. congruence. }
  destruct claude as [c|], codex as [d|].
  - pose proof (Hclaude c store) as [Hc0 Hc1].
    pose proof (syncCodexCli_other now d (syncClaudeCli now c store).1
                  CLAUDE_CLI_PROFILE_ID reserved_ids_differ) as Hkeep.
    pose proof (syncClaudeCli_other now c store CODEX_CLI_PROFILE_ID
                  (λ H, reserved_ids_differ (eq_sym H))) as Hkeep'.
    pose proof (Hcodex d (syncClaudeCli now c store).1) as [Hd0 Hd1].
    destruct (syncClaudeCli now c store) as [s1 m1]. simpl in *.
    destruct (syncCodexCli now d s1) as [s2 m2]. simpl in *.
    split.
    + intros [-> ->]%orb_false_iff. rewrite Hd0, Hc0; done.
    + intros Hm Heq. subst s2.
      destruct m1; [apply Hc1; [done | congruence] |].
      destruct m2; [| done]. rewrite Hc0 in * by done. by apply Hd1.
  - pose proof (Hclaude c store) as [Hc0 Hc1].
    destruct (syncClaudeCli now c store) as [s1 m1]. simpl in *.
    rewrite orb_false_r. split; [done |].
    intros Hm Heq. subst s1. by apply Hc1.
  - pose proof (Hcodex d store) as [Hd0 Hd1].
    destruct (syncCodexCli now d store) as [s2 m2]. simpl in *.
    split; [done |]. intros Hm Heq. subst s2. by apply Hd1.
  - simpl. split; done.
Qed.

(** X15. When the Claude CLI holds a token that has not expired, the store
    holds one under the Claude CLI id after the sync: the CLI's token, or the
    anthropic token stored before when that one is still valid and does not
    expire earlier. *)
Theorem sync_leaves_valid_claude_token (now : Z) (c : TokenCredential)
    (codex : option OAuthCredential) (store : AuthProfileStore)
    (Hvalid : now < default 0 (tk_expires c)) :
  ∃ t,
    obj_get
      (profiles (syncExternalCliCredentials now (Some c) codex store).1)
      CLAUDE_CLI_PROFILE_ID = Some (Token t)
    ∧ now < default 0 (tk_expires t)
    ∧ (t = c
       ∨ (obj_get (profiles store) CLAUDE_CLI_PROFILE_ID = Some (Token t)
          ∧ tk_provider t = "anthropic"
          ∧ default 0 (tk_expires c) <= default 0 (tk_expires t))).
Proof.
  rewrite sync_get_claude.
  destruct (syncClaudeCli now c store).2 eqn:Hm.
  - apply syncClaudeCli_written in Hm as [-> _].
    rewrite obj_get_setProfile_same. exists c. eauto.
  - rewrite (syncClaudeCli_unchanged _ _ _ Hm). simpl.
    unfold syncClaudeCli in Hm.
    destruct (obj_get (profiles store) CLAUDE_CLI_PROFILE_ID)
      as [[k|t|o]|] eqn:E; [by cbn in Hm | | by cbn in Hm | by cbn in Hm].
    destruct (shallowEqualTokenCredentials (Some t) c) eqn:Heq.
    + apply shallowEqualToken_eq in Heq as ->. exists c. eauto.
    + cbv zeta in Hm. rewrite andb_true_r in Hm.
      match type of Hm with
      | (if ?b then _ else _).2 = _ => destruct b eqn:Hb; [done |]
      end.
      clear Hm. rename Hb into Hm.
      apply orb_false_iff in Hm as [Hm Hnewer].
      apply orb_false_iff in Hm as [Hprov Hlive].
      apply negb_false_iff, String.eqb_eq in Hprov.
      apply Z.leb_gt in Hlive.
      rewrite (proj2 (Z.ltb_lt _ _) Hvalid) in Hnewer. simpl in Hnewer.
      apply Z.ltb_ge in Hnewer.
      exists t. split; [done |]. split; [done |]. right. done.
Qed.

Lemma sync_leaves_valid_claude_token_witness :
  ∃ t,
    obj_get
      (profiles (syncExternalCliCredentials 1000 (Some freshCliToken) None
                   expiredTokenStore).1)
      CLAUDE_CLI_PROFILE_ID = Some (Token t)
    ∧ 1000 < default 0 (tk_expires t).
Proof.
  destruct (sync_leaves_valid_claude_token 1000 freshCliToken None
              expiredTokenStore ltac:(reflexivity)) as (t & H1 & H2 & _).
  by exists t.
Defined.
(** ** The capability fallback, again *)

Lemma prefix_app_l (a b s : string) :
  String.prefix (a +:+ b) s = true → String.prefix a s = true.
Proof.
  revert s. induction a as [|c a IH]; intros s; [by destruct s |].
  destruct s as [|c' s]; [done |]. simpl.
  destruct (ascii_dec c c'); [apply IH | done].
Qed.

Lemma str_includes_app_l (a b s : string) :
  str_includes (a +:+ b) s = true → str_includes a s = true.
Proof.
  induction s as [|c s IH]; cbn [str_includes].
  - rewrite !orb_false_r. apply prefix_app_l.
  - intros [H|H]%orb_true_iff; apply orb_true_iff;
      [left; by eapply prefix_app_l | right; by apply IH].
Qed.

Lemma str_includes_here (sub s : string) :
  String.prefix sub s = true → str_includes sub s = true.
Proof. intros H. destruct s; cbn [str_includes]; by rewrite H. Qed.

Lemma match_after_literal_includes (lit s run : string) :
  match_after_literal lit s = Some run →
  str_includes lit (toLowerCase s) = true.
Proof.
  induction s as [|c s IH].
  - cbn [match_after_literal toLowerCase str_includes].
    destruct (String.prefix lit ""); [done | done].
  - cbn [match_after_literal].
    destruct (String.prefix lit (toLowerCase (String c s))) eqn:Hp.
    + intros _. by apply str_includes_here.
    + intros H. cbn [toLowerCase str_includes]. apply orb_true_iff. right.
      by apply IH.
Qed.

Lemma prefix_trimEnd (p s : string) :
  String.prefix p (toLowerCase (trimEnd s)) = true →
  String.prefix p (toLowerCase s) = true.
Proof.
  revert p. induction s as [|c s IH]; intros p; [by simpl |].
  cbn [trimEnd]. destruct p as [|pc p]; [done |].
  destruct (trimEnd s) as [|tc t] eqn:Ht.
  - destruct (is_space c); [done |]. cbn [toLowerCase String.prefix].
    destruct (ascii_dec pc (lower_char c)); [| done].
    destruct p; [| done]. intros _. by destruct (toLowerCase s).
  - cbn [toLowerCase String.prefix].
    destruct (ascii_dec pc (lower_char c)); [| done]. apply IH.
Qed.

Lemma str_includes_trimEnd (sub s : string) :
  str_includes sub (toLowerCase (trimEnd s)) = true →
  str_includes sub (toLowerCase s) = true.
Proof.
  induction s as [|c s IH]; [done |].
  intros H. cbn [toLowerCase str_includes]. apply orb_true_iff.
  assert (Hcases :
    String.prefix sub (toLowerCase (trimEnd (String c s))) = true
    ∨ str_includes sub (toLowerCase (trimEnd s)) = true).
  { revert H. cbn [trimEnd].
    destruct (trimEnd s) as [|tc t] eqn:Ht.
    - destruct (is_space c).
      + simpl. rewrite orb_false_r. by left.
      + cbn [toLowerCase str_includes].
        intros [H|H]%orb_true_iff; [by left | by right].
    - cbn [toLowerCase str_includes].
      intros [H|H]%orb_true_iff; [by left | by right]. }
  destruct Hcases as [Hp|Hs].
  - left. by apply (prefix_trimEnd sub (String c s)).
  - right. by apply IH.
Qed.

Lemma str_includes_trimStart (sub s : string) :
  str_includes sub (toLowerCase (trimStart s)) = true →
  str_includes sub (toLowerCase s) = true.
Proof.
  induction s as [|c s IH]; [done |].
  cbn [trimStart]. destruct (is_space c); [| done].
  intros H. cbn [toLowerCase str_includes]. apply orb_true_iff. right.
  by apply IH.
Qed.

Lemma str_includes_trim (sub s : string) :
  str_includes sub (toLowerCase (trim s)) = true →
  str_includes sub (toLowerCase s) = true.
Proof.
  intros H. by apply str_includes_trimStart, str_includes_trimEnd.
Qed.

Lemma extractSupportedValues_needs_phrase (raw : string) :
  str_includes "supported values" (toLowerCase raw) = false →
  extractSupportedValues raw = [].
Proof.
  intros Hno. unfold extractSupportedValues.
  destruct (match_after_literal "supported values are:" raw) as [r|] eqn:H1.
  { apply match_after_literal_includes in H1.
    apply (str_includes_app_l "supported values" " are:") in H1. congruence. }
  destruct (match_after_literal "supported values:" raw) as [r|] eqn:H2.
  { apply match_after_literal_includes in H2.
    apply (str_includes_app_l "supported values" ":") in H2. congruence. }
  done.
Qed.

Section FallbackMore.
Variable normalizeThinkLevel : string → option ThinkLevel.

Lemma firstUnattempted_split (attempted : list ThinkLevel)
    (supported : list string) :
  match firstUnattempted normalizeThinkLevel attempted supported with
  | Some level =>
      (level ∉ attempted)
      ∧ ∃ before entry after,
          supported = (before ++ entry :: after)%list
          ∧ normalizeThinkLevel entry = Some level
          ∧ Forall (λ e, ∀ l, normalizeThinkLevel e = Some l → l ∈ attempted)
              before
  | None =>
      Forall (λ e, ∀ l, normalizeThinkLevel e = Some l → l ∈ attempted)
        supported
  end.
Proof.
  induction supported as [|entry rest IH]; simpl; [done |].
  destruct (normalizeThinkLevel entry) as [normalized|] eqn:Hn.
  - destruct (set_has attempted normalized) eqn:Hhas.
    + apply set_has_true in Hhas.
      assert (Hskip : ∀ l, normalizeThinkLevel entry = Some l → l ∈ attempted)
        by (intros l; rewrite Hn; by intros [= <-]).
      destruct (firstUnattempted _ _ rest) as [level|].
      * destruct IH as (Hfresh & before & e & after & -> & He & Hb).
        split; [done |]. exists (entry :: before), e, after.
        split; [done |]. split; [done |]. by constructor.
      * by constructor.
    + apply set_has_false in Hhas. split; [done |].
      exists [], entry, rest. by repeat split.
  - assert (Hskip : ∀ l, normalizeThinkLevel entry = Some l → l ∈ attempted)
      by (intros l; by rewrite Hn).
    destruct (firstUnattempted _ _ rest) as [level|].
    + destruct IH as (Hfresh & before & e & after & -> & He & Hb).
      split; [done |]. exists (entry :: before), e, after.
      split; [done |]. split; [done |]. by constructor.
    + by constructor.
Qed.

(** X16. The fallback level is the first usable one: of the values the error
    message lists as supported, in the order of the message, the first that
    names a thinking level not attempted yet. It is [undefined] exactly when
    every listed value is no level or an attempted one (so also when the
    message is missing, blank or lists nothing). *)
Theorem pick_fallback_first_usable (message : option string)
    (attempted : list ThinkLevel) :
  let skipped := λ entry,
    ∀ l, normalizeThinkLevel entry = Some l → l ∈ attempted in
  match pickFallbackThinkingLevel normalizeThinkLevel message attempted with
  | Some level =>
      (level ∉ attempted)
      ∧ ∃ raw before entry after,
          message = Some raw
          ∧ extractSupportedValues (trim raw) = (before ++ entry :: after)%list
          ∧ normalizeThinkLevel entry = Some level
          ∧ Forall skipped before
  | None =>
      ∀ raw, message = Some raw →
        Forall skipped (extractSupportedValues (trim raw))
  end.
Proof.
  intros skipped. unfold pickFallbackThinkingLevel.
  destruct message as [raw|]; simpl; [| done].
  destruct (trim raw) as [|c r] eqn:Htrim.
  - intros raw' [= <-]. rewrite Htrim. by vm_compute.
  - pose proof (firstUnattempted_split attempted
                  (extractSupportedValues (String c r))) as H.
    destruct (firstUnattempted _ _ _) as [level|].
    + destruct H as (Hfresh & before & e & after & Heq & He & Hb).
      split; [done |]. exists raw, before, e, after. by rewrite Htrim.
    + intros raw' [= <-]. by rewrite Htrim.
Qed.

Lemma pickFallback_needs_phrase (raw : string)
    (attempted : list ThinkLevel) :
  str_includes "supported values" (toLowerCase raw) = false →
  pickFallbackThinkingLevel normalizeThinkLevel (Some raw) attempted = None.
Proof using Type.
  intros Hno. unfold pickFallbackThinkingLevel. simpl.
  destruct (trim raw) as [|c r] eqn:Htrim; [done |].
  rewrite extractSupportedValues_needs_phrase; [done |].
  rewrite <-Htrim.
  destruct (str_includes _ (toLowerCase (trim raw))) eqn:H; [| done].
  apply str_includes_trim in H. congruence.
Qed.

(** X17. An error message that does not contain the words [supported values]
    (in any letter case) lists no values, and gives no fallback level whatever
    has been attempted. *)
Theorem no_phrase_no_fallback (raw : string)
    (Hno : str_includes "supported values" (toLowerCase raw) = false) :
  extractSupportedValues raw = []
  ∧ ∀ attempted,
      pickFallbackThinkingLevel normalizeThinkLevel (Some raw) attempted = None.
Proof using Type.
  split; [by apply extractSupportedValues_needs_phrase |].
  intros attempted. by apply pickFallback_needs_phrase.
Qed.

End FallbackMore.

Lemma no_phrase_no_fallback_witness :
  extractSupportedValues "401 Unauthorized" = []
  ∧ ∀ attempted,
      pickFallbackThinkingLevel normalizeThinkLevel_model
        (Some "401 Unauthorized") attempted = None.
Proof.
  apply (no_phrase_no_fallback normalizeThinkLevel_model "401 Unauthorized").
  reflexivity.
Defined.

(** ** Error texts and payloads *)

Lemma trimStart_head (s : string) (c : ascii) (r : string) :
  trimStart s = String c r → is_space c = false.
Proof.
  induction s as [|c0 s IH]; [done |].
  cbn [trimStart]. destruct (is_space c0) eqn:Hsp; [done |].
  by intros [= <- <-].
Qed.

Lemma trimEnd_keeps_head (c : ascii) (s : string) :
  is_space c = false → ∃ r, trimEnd (String c s) = String c r.
Proof.
  intros Hsp. cbn [trimEnd]. rewrite Hsp.
  destruct (trimEnd s); eauto.
Qed.

Lemma trim_head (s : string) (c : ascii) (r : string) :
  trim s = String c r → is_space c = false.
Proof.
  unfold trim. destruct (trimStart s) as [|c0 r0] eqn:Hs; [done |].
  pose proof (trimStart_head _ _ _ Hs) as Hsp.
  destruct (trimEnd_keeps_head c0 r0 Hsp) as [r' ->].
  by intros [= <- <-].
Qed.

Lemma trim_keeps_head (c : ascii) (s : string) :
  is_space c = false → ∃ r, trim (String c s) = String c r.
Proof.
  intros Hsp. unfold trim. cbn [trimStart]. rewrite Hsp.
  by apply trimEnd_keeps_head.
Qed.

(** The text of [formatAssistantErrorText] starts with a character that is
    no white space. *)
Lemma formatAssistantErrorText_head (msg : AssistantMessage) (text : string) :
  formatAssistantErrorText msg = Some text →
  ∃ c r, text = String c r ∧ is_space c = false.
Proof.
  unfold formatAssistantErrorText.
  destruct (negb (stoppedWithError msg)); [done |]. cbv zeta.
  destruct (trim (default "" (errorMessage msg))) as [|c raw] eqn:Hraw.
  { intros [= <-]. by eexists _, _. }
  apply trim_head in Hraw.
  destruct (isContextOverflowError _).
  { intros [= <-]. unfold contextOverflowText. by eexists _, _. }
  destruct (matchInvalidRequest _) as [m|].
  { intros [= <-]. by eexists _, _. }
  destruct (600 <? String.length (String c raw))%nat.
  - intros [= <-]. exists c. eexists. split; [| done].
    change 600%nat with (S 599). cbn [String.substring String.append].
    reflexivity.
  - intros [= <-]. by eexists _, _.
Qed.

(** X18. [formatAssistantErrorText] gives a text exactly for a message that
    stopped with an error, and that text is never blank: when the message
    carries no error text the fixed sentence about an unknown error is
    used. *)
Theorem error_text_iff_error_stop (msg : AssistantMessage) :
  (formatAssistantErrorText msg = None ↔ stoppedWithError msg = false)
  ∧ (∀ text, formatAssistantErrorText msg = Some text → trim text ≠ "")
  ∧ (stoppedWithError msg = true →
     trim (default "" (errorMessage msg)) = "" →
     formatAssistantErrorText msg
     = Some "LLM request failed with an unknown error.").
Proof.
  split; [| split].
  - unfold formatAssistantErrorText.
    destruct (stoppedWithError msg); cbn [negb]; [| done]. cbv zeta.
    split; [| done].
    destruct (trim _); [done |].
    destruct (isContextOverflowError _); [done |].
    destruct (matchInvalidRequest _); [done |].
    by destruct (_ <? _)%nat.
  - intros text (c & r & -> & Hsp)%formatAssistantErrorText_head.
    by destruct (trim_keeps_head c r Hsp) as [r' ->].
  - intros Hstop Hraw. unfold formatAssistantErrorText.
    rewrite Hstop. cbn [negb]. cbv zeta. by rewrite Hraw.
Qed.

(** X19. The payloads of a finished run hold an error payload exactly when
    the last assistant message stopped with an error: it is then the first
    payload and carries the trimmed text of [formatAssistantErrorText]; no
    other payload is flagged as an error. *)
Theorem error_payload_iff_error_stop (o : Outcome) :
  match lastAssistant o ≫= formatAssistantErrorText with
  | Some text =>
      (∃ msg, lastAssistant o = Some msg ∧ stoppedWithError msg = true)
      ∧ ∃ rest,
          buildPayloads o = {| p_text := trim text; p_isError := true |} :: rest
          ∧ trim text ≠ ""
          ∧ Forall (λ p, p_isError p = false) rest
  | None =>
      (∀ msg, lastAssistant o = Some msg → stoppedWithError msg = false)
      ∧ Forall (λ p, p_isError p = false) (buildPayloads o)
  end.
Proof.
  assert (Hreplies : ∀ texts : list string,
    Forall (λ p, p_isError p = false)
      (List.filter (λ p, non_empty (p_text p))
         (map (λ p, {| p_text := trim (p_text p); p_isError := p_isError p |})
            (map (λ t, {| p_text := t; p_isError := false |}) texts)))).
  { induction texts as [|t texts IH]; [constructor |].
    cbn [map List.filter p_text p_isError].
    destruct (non_empty (trim t)); [by constructor | done]. }
  unfold buildPayloads.
  destruct (lastAssistant o ≫= formatAssistantErrorText) as [text|] eqn:Hfmt.
  - destruct (lastAssistant o) as [msg|] eqn:Hlast; [| done].
    cbn [mbind option_bind] in Hfmt. split.
    + exists msg. split; [done |].
      destruct (stoppedWithError msg) eqn:Hstop; [done |].
      unfold formatAssistantErrorText in Hfmt. by rewrite Hstop in Hfmt.
    + destruct (formatAssistantErrorText_head _ _ Hfmt) as (c & r & -> & Hsp).
      destruct (trim_keeps_head c r Hsp) as [r' Htrim].
      cbn [non_empty]. cbv zeta.
      rewrite <-app_comm_cons, app_nil_l. cbn [map p_text p_isError].
      rewrite Htrim. cbn [List.filter p_text non_empty].
      eexists. split; [done |]. split; [done |]. apply Hreplies.
  - split.
    + intros msg Hlast. rewrite Hlast in Hfmt. cbn [mbind option_bind] in Hfmt.
      unfold formatAssistantErrorText in Hfmt.
      destruct (stoppedWithError msg); [| done]. cbn [negb] in Hfmt.
      cbv zeta in Hfmt. destruct (trim _); [done |].
      destruct (isContextOverflowError _); [done |].
      destruct (matchInvalidRequest _); [done |].
      by destruct (_ <? _)%nat.
    + cbv zeta. rewrite app_nil_l. apply Hreplies.
Qed.

(** ** The run loop: how a run ends *)

Lemma rotationFailureMessage_nonempty (o : Outcome) (rateLimitFailure : bool) :
  rotationFailureMessage o rateLimitFailure ≠ "".
Proof.
  unfold rotationFailureMessage. cbv zeta.
  destruct (non_empty (trim _)) eqn:H1;
    [intros E; by rewrite E in H1 |].
  destruct (non_empty (default "" _)) eqn:H2;
    [intros E; by rewrite E in H2 |].
  destruct (timedOut o); [done |]. by destruct rateLimitFailure.
Qed.

Lemma markGood_keeps_profiles (locked : bool) (provider profileId : string)
    (w : World) :
  let w' := markAuthProfileGood locked provider profileId w in
  (profiles (disk w') = profiles (disk w)
   ∨ profiles (disk w') = profiles (mem w))
  ∧ (profiles (mem w') = profiles (disk w)
     ∨ profiles (mem w') = profiles (mem w)).
Proof.
  simpl. unfold markAuthProfileGood.
  destruct (goodUpdater provider profileId (if locked then disk w else mem w))
    as [updated|] eqn:Hu.
  - rewrite (markWith_applied _ _ _ _ Hu). simpl.
    assert (profiles updated = profiles (if locked then disk w else mem w)).
    { unfold goodUpdater in Hu. destruct (obj_get _ _); [| done].
      destruct (String.eqb _ _); [| done]. by injection Hu as <-. }
    destruct locked; eauto.
  - rewrite (markWith_skipped _ _ _ Hu). destruct locked; simpl; eauto.
Qed.

Lemma markUsed_resets_both (locked : bool) (now : Z) (profileId : string)
    (w : World) :
  is_Some (obj_get (profiles (disk w)) profileId) →
  is_Some (obj_get (profiles (mem w)) profileId) →
  let w' := markAuthProfileUsed locked now profileId w in
  let clean := {| lastUsed := Some now; cooldownUntil := None;
                  errorCount := Some 0 |} in
  usageStats (mem w') !! profileId = Some clean
  ∧ usageStats (disk w') !! profileId = Some clean
  ∧ lastGood (mem w') = lastGood (if locked then disk w else mem w)
  ∧ lastGood (disk w') = lastGood (mem w').
Proof.
  intros [c1 H1] [c2 H2]. simpl. unfold markAuthProfileUsed.
  destruct locked.
  all: erewrite markWith_applied;
    [| unfold usedUpdater; first [rewrite H1 | rewrite H2]; reflexivity].
  all: simpl; by rewrite lookup_insert_eq.
Qed.

(** The two success marks of [finishRun], one after the other. *)
Lemma success_marks (lockGood lockUsed : bool) (now : Z)
    (provider profileId : string) (w : World) :
  is_Some (obj_get (profiles (disk w)) profileId) →
  is_Some (obj_get (profiles (mem w)) profileId) →
  let w' :=
    markAuthProfileUsed lockUsed now profileId
      (markAuthProfileGood lockGood provider profileId w) in
  let clean := {| lastUsed := Some now; cooldownUntil := None;
                  errorCount := Some 0 |} in
  usageStats (mem w') !! profileId = Some clean
  ∧ usageStats (disk w') !! profileId = Some clean
  ∧ ((∀ cred,
        obj_get (profiles (if lockGood then disk w else mem w)) profileId
          = Some cred → cred_provider cred = provider) →
     lastGood (mem w') !! provider = Some profileId
     ∧ lastGood (disk w') !! provider = Some profileId).
Proof.
  intros Hd Hm. cbv zeta.
  pose proof (markGood_keeps_profiles lockGood provider profileId w)
    as [Hpd Hpm]. cbv zeta in Hpd, Hpm.
  set (w1 := markAuthProfileGood lockGood provider profileId w) in *.
  assert (Hd1 : is_Some (obj_get (profiles (disk w1)) profileId))
    by (destruct Hpd as [-> | ->]; done).
  assert (Hm1 : is_Some (obj_get (profiles (mem w1)) profileId))
    by (destruct Hpm as [-> | ->]; done).
  destruct (markUsed_resets_both lockUsed now profileId w1 Hd1 Hm1)
    as (Hs1 & Hs2 & Hg1 & Hg2).
  split; [done |]. split; [done |].
  intros Hprov. rewrite Hg2, Hg1.
  assert (Hgood : lastGood (mem w1) !! provider = Some profileId
                  ∧ lastGood (disk w1) !! provider = Some profileId).
  { subst w1. unfold markAuthProfileGood.
    assert (His : is_Some (obj_get
              (profiles (if lockGood then disk w else mem w)) profileId))
      by by destruct lockGood.
    destruct His as [cred Hcred].
    erewrite markWith_applied;
      [| unfold goodUpdater; rewrite Hcred, (Hprov _ Hcred), String.eqb_refl;
         reflexivity].
    simpl. by rewrite lookup_insert_eq. }
  destruct lockUsed; tauto.
Qed.

Section RunnerMore.
Variable normalizeProviderId : string → string.
Variable normalizeThinkLevel : string → option ThinkLevel.
Variable resolveKey : AuthProfileStore → option string → Result ApiKeyInfo.
Variable engine : nat → option ApiKeyInfo → ThinkLevel → AttemptResult.
Variable clock : nat → Z.
Variable lockOk : nat → StoreOp → bool.

Local Abbreviation advance := (advanceAuthProfile resolveKey).
Local Abbreviation afterAssistant' :=
  (afterAssistant normalizeThinkLevel resolveKey clock lockOk).
Local Abbreviation afterAttempt' :=
  (afterAttempt normalizeThinkLevel resolveKey clock lockOk).
Local Abbreviation runLoop' :=
  (runLoop normalizeThinkLevel resolveKey engine clock lockOk).
Local Abbreviation run :=
  (runEmbeddedPiAgent normalizeProviderId normalizeThinkLevel resolveKey engine
     clock lockOk).
Local Abbreviation makeEnv' := (makeEnv normalizeProviderId clock).
Local Abbreviation cooldownMarked st profileId :=
  (logEvents [EvMarkCooldown profileId]
     (setWorld
        (markAuthProfileCooldown (lockOk (attemptNo st) OpCooldown)
           (clock (attemptNo st)) profileId (world st)) st)).

Lemma afterAttempt_assistant_path (env : RunEnv) (o : Outcome) (st : RunState) :
  promptError o = None ∨ aborted o = true →
  afterAttempt' env o st = afterAssistant' env o st.
Proof.
  unfold afterAttempt. intros [-> | ->]; [done |].
  destruct (promptError o); [| done]. by rewrite andb_false_r.
Qed.

Lemma advance_at_end (env : RunEnv) (st : RunState) :
  (length (profileCandidates env) <= S (profileIndex st))%nat →
  advance env st = (Returned false, st).
Proof.
  intros H. unfold advanceAuthProfile. by rewrite drop_ge.
Qed.

Lemma markCurrentCooldown_eq (st : RunState) (profileId : string) :
  lastProfileId st = Some profileId → profileId ≠ "" →
  markCurrentCooldown clock lockOk st = cooldownMarked st profileId.
Proof.
  intros Hpid Hne. unfold markCurrentCooldown. rewrite Hpid.
  by destruct profileId.
Qed.

Lemma finishRun_eq (env : RunEnv) (o : Outcome) (st : RunState)
    (profileId : string) :
  lastProfileId st = Some profileId → profileId ≠ "" →
  finishRun clock lockOk env o st
  = (RunPayloads (buildPayloads o) (Some (aborted o)),
     logEvents [EvMarkGood profileId; EvMarkUsed profileId]
       (setWorld
          (markAuthProfileUsed (lockOk (attemptNo st) OpUsed)
             (clock (attemptNo st)) profileId
             (markAuthProfileGood (lockOk (attemptNo st) OpGood)
                (rp_provider (env_params env)) profileId (world st)))
          st)).
Proof.
  intros Hpid Hne. unfold finishRun. rewrite Hpid. by destruct profileId.
Qed.

(** The rotation branch on the last candidate: nothing is left to advance
    to. *)
Lemma afterAssistant_exhausted (env : RunEnv) (o : Outcome) (st : RunState)
    (profileId : string) :
  pickFallbackThinkingLevel normalizeThinkLevel
    (lastAssistant o ≫= errorMessage) (attemptedThinking st) = None
  ∨ aborted o = true →
  (negb (aborted o)
   && (isAuthAssistantError (lastAssistant o)
       || isRateLimitAssistantError (lastAssistant o)))
  || timedOut o = true →
  (length (profileCandidates env) <= S (profileIndex st))%nat →
  lastProfileId st = Some profileId → profileId ≠ "" →
  afterAssistant' env o st
  = if fallbackConfigured env
    then Finished
           (RunFailed
              (ErrorObject
                 (rotationFailureMessage o
                    (isRateLimitAssistantError (lastAssistant o)))))
           (cooldownMarked st profileId)
    else let '(r, st') :=
           finishRun clock lockOk env o (cooldownMarked st profileId) in
         Finished r st'.
Proof.
  intros Hnolevel Hrot Hlast Hpid Hne. unfold afterAssistant.
  rewrite Hrot, (markCurrentCooldown_eq _ _ Hpid Hne).
  rewrite advance_at_end by done.
  destruct Hnolevel as [-> | ->]; [done |].
  by destruct (pickFallbackThinkingLevel _ _ _).
Qed.

(** X20. A run that the caller aborts (no timeout) ends with that attempt,
    whatever the attempt left behind: it returns the payloads gathered so far
    with [aborted] set, does not retry at another thinking level, does not
    rotate, and puts no profile in cooldown. *)
Theorem user_abort_ends_run (env : RunEnv) (o : Outcome) (st : RunState)
    (Habort : aborted o = true) (Htimer : timedOut o = false) :
  ∃ st' evs,
    afterAttempt' env o st
      = Finished (RunPayloads (buildPayloads o) (Some true)) st'
    ∧ profileIndex st' = profileIndex st
    ∧ trace st' = (trace st ++ evs)%list
    ∧ Forall (λ e, isRotationEvent e = false) evs.
Proof.
  rewrite afterAttempt_assistant_path by by right.
  unfold afterAssistant. rewrite Habort, Htimer. cbn [negb andb orb].
  destruct (finishRun clock lockOk env o st) as [r st'] eqn:Hfin.
  apply finishRun_attempts in Hfin as (_ & Hi & -> & evs & Ht & Hev).
  rewrite Habort. exists st', evs.
  split; [by destruct (pickFallbackThinkingLevel _ _ _) | done].
Qed.

(** X21. When the last candidate fails with an auth error, a rate limit or a
    timeout and fallback models are configured, the run throws, so that the
    caller can move to the next model: the profile has its cooldown mark, no
    success is recorded, and the message of the error is never empty; it is
    the assistant's own error text when there is one. *)
Theorem exhausted_rotation_throws (env : RunEnv) (o : Outcome) (st : RunState)
    (profileId : string)
    (Hpath : promptError o = None ∨ aborted o = true)
    (Hnolevel :
       pickFallbackThinkingLevel normalizeThinkLevel
         (lastAssistant o ≫= errorMessage) (attemptedThinking st) = None
       ∨ aborted o = true)
    (Hrot :
       (negb (aborted o)
        && (isAuthAssistantError (lastAssistant o)
            || isRateLimitAssistantError (lastAssistant o)))
       || timedOut o = true)
    (Hlast : (length (profileCandidates env) <= S (profileIndex st))%nat)
    (Hpid : lastProfileId st = Some profileId) (Hne : profileId ≠ "")
    (Hfallback : fallbackConfigured env = true) :
  ∃ message,
    afterAttempt' env o st
      = Finished (RunFailed (ErrorObject message)) (cooldownMarked st profileId)
    ∧ message ≠ ""
    ∧ (∀ text, lastAssistant o ≫= errorMessage = Some text → trim text ≠ "" →
         message = trim text)
    ∧ (lastAssistant o = None →
       message = if timedOut o then "LLM request timed out."
                 else "LLM request unauthorized.").
Proof.
  rewrite afterAttempt_assistant_path by done.
  rewrite (afterAssistant_exhausted env o st profileId) by done.
  rewrite Hfallback. eexists. split; [done |].
  split; [apply rotationFailureMessage_nonempty |]. split.
  - intros text Htext Hnb. unfold rotationFailureMessage. rewrite Htext.
    cbn [default id]. cbv zeta. destruct (trim text); [by destruct Hnb | done].
  - intros Hnone. unfold rotationFailureMessage. rewrite Hnone. simpl.
    by destruct (timedOut o).
Qed.

(** X22. Without fallback models the same exhausted rotation falls through
    to the normal end of a run: the payloads are returned, and the success
    marks that follow undo the cooldown mark just made, so the profile ends
    with an error count of zero and no cooldown, on file and in the caller's
    copy. *)
Theorem exhausted_rotation_clears_cooldown (env : RunEnv) (o : Outcome)
    (st : RunState) (profileId : string)
    (Hpath : promptError o = None ∨ aborted o = true)
    (Hnolevel :
       pickFallbackThinkingLevel normalizeThinkLevel
         (lastAssistant o ≫= errorMessage) (attemptedThinking st) = None
       ∨ aborted o = true)
    (Hrot :
       (negb (aborted o)
        && (isAuthAssistantError (lastAssistant o)
            || isRateLimitAssistantError (lastAssistant o)))
       || timedOut o = true)
    (Hlast : (length (profileCandidates env) <= S (profileIndex st))%nat)
    (Hpid : lastProfileId st = Some profileId) (Hne : profileId ≠ "")
    (Hfallback : fallbackConfigured env = false)
    (Hdisk : is_Some (obj_get (profiles (disk (world st))) profileId))
    (Hmem : is_Some (obj_get (profiles (mem (world st))) profileId)) :
  ∃ st',
    afterAttempt' env o st
      = Finished (RunPayloads (buildPayloads o) (Some (aborted o))) st'
    ∧ trace st'
      = (trace st ++ [EvMarkCooldown profileId; EvMarkGood profileId;
                      EvMarkUsed profileId])%list
    ∧ usageStats (mem (world st')) !! profileId
      = Some {| lastUsed := Some (clock (attemptNo st)); cooldownUntil := None;
                errorCount := Some 0 |}
    ∧ usageStats (disk (world st')) !! profileId
      = usageStats (mem (world st')) !! profileId
    ∧ ∀ t, isProfileInCooldown t (mem (world st')) profileId = false.
Proof.
  rewrite afterAttempt_assistant_path by done.
  rewrite (afterAssistant_exhausted env o st profileId) by done.
  rewrite Hfallback.
  rewrite (finishRun_eq env o (cooldownMarked st profileId) profileId)
    by done.
  eexists. split; [done |]. cbn [trace logEvents setWorld world attemptNo].
  split; [by rewrite <-app_assoc |].
  set (w1 := markAuthProfileCooldown _ _ _ (world st)).
  assert (Hkeep : is_Some (obj_get (profiles (disk w1)) profileId)
                  ∧ is_Some (obj_get (profiles (mem w1)) profileId)).
  { subst w1. unfold markAuthProfileCooldown.
    set (locked := lockOk (attemptNo st) OpCooldown).
    assert (His : is_Some (obj_get
              (profiles (if locked then disk (world st) else mem (world st)))
              profileId)) by by destruct locked.
    destruct His as [cred Hcred].
    erewrite markWith_applied;
      [| unfold cooldownUpdater; rewrite Hcred; reflexivity].
    simpl. by destruct locked. }
  destruct Hkeep as [Hd1 Hm1].
  destruct (success_marks (lockOk (attemptNo st) OpGood)
              (lockOk (attemptNo st) OpUsed) (clock (attemptNo st))
              (rp_provider (env_params env)) profileId w1 Hd1 Hm1)
    as (Hs1 & Hs2 & _).
  split; [done |]. split; [by rewrite Hs1, Hs2 |].
  intros t. unfold isProfileInCooldown, statsOf. by rewrite Hs1.
Qed.

(** X23. A run that ends in the normal way on a stored profile records the
    success: the profile's statistics are reset with [lastUsed] at the time
    of the attempt, on file and in the caller's copy, and when the stored
    credential is of the run's provider the profile becomes the provider's
    last good one. *)
Theorem finish_records_success (env : RunEnv) (o : Outcome) (st : RunState)
    (profileId : string)
    (Hpid : lastProfileId st = Some profileId) (Hne : profileId ≠ "")
    (Hdisk : is_Some (obj_get (profiles (disk (world st))) profileId))
    (Hmem : is_Some (obj_get (profiles (mem (world st))) profileId)) :
  let result := finishRun clock lockOk env o st in
  let after := world result.2 in
  let clean := {| lastUsed := Some (clock (attemptNo st));
                  cooldownUntil := None; errorCount := Some 0 |} in
  result.1 = RunPayloads (buildPayloads o) (Some (aborted o))
  ∧ usageStats (mem after) !! profileId = Some clean
  ∧ usageStats (disk after) !! profileId = Some clean
  ∧ ((∀ s cred, s = disk (world st) ∨ s = mem (world st) →
        obj_get (profiles s) profileId = Some cred →
        cred_provider cred = rp_provider (env_params env)) →
     lastGood (mem after) !! rp_provider (env_params env) = Some profileId
     ∧ lastGood (disk after) !! rp_provider (env_params env) = Some profileId).
Proof.
  cbv zeta. rewrite (finishRun_eq env o st profileId) by done.
  cbn [fst snd world logEvents setWorld].
  destruct (success_marks (lockOk (attemptNo st) OpGood)
              (lockOk (attemptNo st) OpUsed) (clock (attemptNo st))
              (rp_provider (env_params env)) profileId (world st) Hdisk Hmem)
    as (Hs1 & Hs2 & Hg).
  split; [done |]. split; [done |]. split; [done |].
  intros Hprov. apply Hg. intros cred Hcred.
  apply (Hprov (if lockOk (attemptNo st) OpGood
                then disk (world st) else mem (world st))); [| done].
  destruct (lockOk (attemptNo st) OpGood); [by left | by right].
Qed.

(** X24. A value thrown by the prompt that is truthy (an [Error], a non-empty
    string, an object), that is no context overflow, no auth or rate-limit
    error and does not list supported values, is thrown on to the caller as
    it is: the loop state is untouched, so nothing is recorded against the
    profile. (A falsy thrown value does not pass [if (promptError)]: the run
    goes on as if nothing had been thrown.) *)
Theorem unclassified_prompt_error_is_rethrown (env : RunEnv) (o : Outcome)
    (st : RunState) (thrown : Thrown)
    (Hthrown : promptError o = Some thrown) (Hlive : aborted o = false)
    (Htruthy : thrownTruthy thrown = true)
    (Hoverflow :
       isContextOverflowError (Some (describeUnknownError thrown)) = false)
    (Hauth : isAuthErrorMessage (describeUnknownError thrown) = false)
    (Hrate : isRateLimitErrorMessage (describeUnknownError thrown) = false)
    (Hvalues :
       str_includes "supported values"
         (toLowerCase (describeUnknownError thrown)) = false) :
  afterAttempt' env o st = Finished (RunFailed thrown) st.
Proof using Type.
  unfold afterAttempt, afterPromptError. rewrite Hthrown, Htruthy, Hlive.
  cbn [negb andb]. cbv zeta. rewrite Hoverflow, Hauth, Hrate. cbn [orb].
  by rewrite (pickFallback_needs_phrase normalizeThinkLevel _ _ Hvalues).
Qed.

Lemma runLoop_ordered (env : RunEnv) (fuel : nat) (st st' : RunState)
    (r : RunResult) :
  loopInv (profileCandidates env) st →
  StronglySorted Nat.le (attemptsOf (trace st)).*1 →
  runLoop' env fuel st = Some (r, st') →
  StronglySorted Nat.le (attemptsOf (trace st')).*1
  ∧ Forall (λ i, (i < length (profileCandidates env))%nat)
      (attemptsOf (trace st')).*1.
Proof.
  revert st. induction fuel as [|fuel IH]; intros st Hinv Hsorted; simpl;
    [done |].
  assert (Hbegin :
    StronglySorted Nat.le (attemptsOf (trace (beginAttempt st))).*1
    ∧ Forall (λ i, (i < length (profileCandidates env))%nat)
        (attemptsOf (trace (beginAttempt st))).*1).
  { simpl. rewrite attemptsOf_app. simpl. rewrite fmap_app. simpl.
    destruct Hinv as (Hidx & _ & _ & _ & Hprev). split.
    - apply StronglySorted_app_2; [| done | repeat constructor].
      intros x1 x2 Hx1 Hx2. apply list_elem_of_singleton in Hx2 as ->.
      apply list_elem_of_fmap in Hx1 as [[i l] [-> Hin]]. simpl.
      destruct (Hprev _ _ Hin) as [?|[-> _]]; unfold Nat.le; lia.
    - apply Forall_app. split; [| by repeat constructor].
      apply Forall_fmap, Forall_forall. intros [i l] Hin. simpl.
      destruct (Hprev _ _ Hin) as [?|[-> _]]; lia. }
  destruct (engine (attemptNo st) (apiKeyInfo st) (thinkLevel st)) as [e|o].
  - by intros [= <- <-].
  - destruct (afterAttempt' env o (beginAttempt st)) as [st2|r2 st2] eqn:Hstep.
    + destruct (continue_preserves_inv normalizeThinkLevel resolveKey clock
                  lockOk env o st st2 Hinv Hstep) as [Hinv2 _].
      pose proof (afterAttempt_step normalizeThinkLevel resolveKey clock lockOk
                    env o (beginAttempt st)) as Hok.
      rewrite Hstep in Hok. destruct Hok as [Ha _].
      apply IH; [done |]. rewrite Ha. apply Hbegin.
    + intros [= <- <-]. apply finished_keeps_attempts in Hstep.
      by rewrite Hstep.
Qed.

(** X25. Within a run the candidates are tried in their order and never
    again once left: the candidate indices of the attempts, in the order of
    the attempts, never decrease, and each is an index of the candidate
    list. *)
Theorem profiles_tried_in_order (fuel : nat) (params : RunParams)
    (onDisk : AuthProfileStore) (r : RunResult) (st : RunState)
    (Hrun : run fuel params onDisk = Some (r, st)) :
  StronglySorted Nat.le (attemptsOf (trace st)).*1
  ∧ Forall
      (λ i, (i < length (profileCandidates (makeEnv' params onDisk)))%nat)
      (attemptsOf (trace st)).*1.
Proof.
  pose proof (makeEnv_candidates_nonempty normalizeProviderId clock params
                onDisk) as Hne.
  destruct (run_cases normalizeProviderId normalizeThinkLevel resolveKey engine
              clock lockOk fuel params onDisk)
    as [[e He]|[(e & st1 & Hsel & He)|(u & st1 & Hsel & He)]];
    rewrite He in Hrun.
  - injection Hrun as <- <-. simpl. split; constructor.
  - injection Hrun as <- <-.
    apply selectFirstProfile_spec in Hsel as [-> _]; [| done].
    split; constructor.
  - apply selectFirstProfile_spec in Hsel as [Hnil [Hinv _]]; [| done].
    eapply runLoop_ordered; [done | | done]. rewrite Hnil. constructor.
Qed.

Lemma advanceFrom_all_fail (env : RunEnv) (remaining : list (option string))
    (nextIndex : nat) (st : RunState) :
  Forall (λ c, ∃ e, resolveKey (mem (world st)) c = Threw e) remaining →
  ∃ res st',
    advanceFrom resolveKey env remaining nextIndex st = (res, st')
    ∧ res ≠ Returned true
    ∧ ∀ e, res = Threw e →
        ∃ c, c ∈ remaining ∧ resolveKey (mem (world st)) c = Threw e.
Proof.
  revert nextIndex st.
  induction remaining as [|candidate rest IH]; intros nextIndex st Hall; simpl.
  - eexists _, _. split; [done |]. split; [done |]. by intros e [=].
  - apply Forall_cons in Hall as [[err Herr] Hrest]. rewrite Herr.
    destruct (truthy candidate && bool_decide _).
    + eexists _, _. split; [done |]. split; [done |].
      intros e [= <-]. exists candidate. split; [by left | done].
    + destruct (IH (S nextIndex)
                  (logEvents [EvResolveKey candidate false] st) Hrest)
        as (res & st' & Heq & Hres & He).
      exists res, st'. split; [done |]. split; [done |].
      intros e Hthrew. destruct (He e Hthrew) as (c & Hc & Hk).
      exists c. split; [by right | done].
Qed.

(** X26. When no candidate's key can be resolved the run fails before any
    attempt is made and without touching the store: the error is the one of
    a candidate's key resolution (or the complaint that the requested profile
    is not configured). *)
Theorem no_key_no_attempt (fuel : nat) (params : RunParams)
    (onDisk : AuthProfileStore)
    (Hnone : ∀ c, c ∈ profileCandidates (makeEnv' params onDisk) →
               ∃ e, resolveKey onDisk c = Threw e) :
  ∃ e st,
    run fuel params onDisk = Some (RunFailed e, st)
    ∧ attemptsOf (trace st) = []
    ∧ world st = {| disk := onDisk; mem := onDisk |}
    ∧ ((∃ explicit,
          trim <$> rp_authProfileId params = Some explicit
          ∧ e = ErrorObject
                  (notConfiguredMessage explicit (rp_provider params)))
       ∨ ∃ c, c ∈ profileCandidates (makeEnv' params onDisk)
              ∧ resolveKey onDisk c = Threw e).
Proof using Type.
  set (env := makeEnv' params onDisk) in *.
  pose proof (makeEnv_candidates_nonempty normalizeProviderId clock params
                onDisk) as Hne. fold env in Hne.
  assert (Hsel : ∃ e st1,
    selectFirstProfile resolveKey env (initialState env onDisk)
      = (Threw e, st1)
    ∧ attemptsOf (trace st1) = []
    ∧ world st1 = {| disk := onDisk; mem := onDisk |}
    ∧ ∃ c, c ∈ profileCandidates env ∧ resolveKey onDisk c = Threw e).
  { unfold selectFirstProfile.
    destruct (profileCandidates env) as [|first rest] eqn:Hcands; [done |].
    change (default None (head (first :: rest))) with first.
    change (mem (world (initialState env onDisk))) with onDisk.
    destruct (Hnone first ltac:(by left)) as [err Herr]. rewrite Herr.
    destruct (bool_decide _).
    - eexists _, _. split; [done |]. split; [done |]. split; [done |].
      exists first. split; [by left | done].
    - set (st0 := logEvents [EvResolveKey first false] (initialState env onDisk)).
      assert (Hall : Forall (λ c, ∃ e, resolveKey (mem (world st0)) c = Threw e)
                       (drop (S (profileIndex st0)) (profileCandidates env))).
      { apply Forall_forall. intros c Hc. apply Hnone.
        rewrite <-Hcands. by eapply subseteq_drop. }
      destruct (advanceFrom_all_fail env _ (S (profileIndex st0)) st0 Hall)
        as (res & st' & Heq & Hres & He).
      unfold advanceAuthProfile. rewrite Heq.
      apply advanceFrom_spec in Heq as (Hw & _ & Ha & _).
      destruct res as [[|]|e]; [done | |].
      + eexists _, _. split; [done |]. split; [by rewrite Ha |].
        split; [by rewrite Hw |]. exists first. split; [by left | done].
      + destruct (He e eq_refl) as (c & Hc & Hk).
        eexists _, _. split; [done |]. split; [by rewrite Ha |].
        split; [by rewrite Hw |]. exists c.
        split; [| done]. rewrite <-Hcands. by eapply subseteq_drop. }
  destruct Hsel as (e & st1 & Hsel & Ha & Hw & Hc).
  unfold runEmbeddedPiAgent. fold env. rewrite Hsel.
  change (explicitProfileId env) with (trim <$> rp_authProfileId params).
  destruct (trim <$> rp_authProfileId params) as [explicit|].
  - destruct (truthy _ && negb _).
    + eexists _, _. split; [done |]. split; [done |]. split; [done |].
      left. by exists explicit.
    + exists e, st1. by repeat split; try right.
  - exists e, st1. by repeat split; try right.
Qed.

End RunnerMore.

Lemma user_abort_ends_run_witness :
  let env := makeEnv normalizeProviderId_model fixedClock (plainParams None)
               twoKeyStore in
  ∃ st' evs,
    afterAttempt normalizeThinkLevel_model resolveAnyKey fixedClock lockAlways
      env abortedOutcome (enteredState (plainParams None) twoKeyStore)
    = Finished (RunPayloads (buildPayloads abortedOutcome) (Some true)) st'
    ∧ profileIndex st' = 0%nat
    ∧ trace st'
      = (trace (enteredState (plainParams None) twoKeyStore) ++ evs)%list
    ∧ Forall (λ e, isRotationEvent e = false) evs.
Proof.
  intros env.
  apply (user_abort_ends_run normalizeThinkLevel_model resolveAnyKey fixedClock
           lockAlways env abortedOutcome
           (enteredState (plainParams None) twoKeyStore));
    reflexivity.
Defined.

Lemma exhausted_rotation_throws_witness :
  let env := makeEnv normalizeProviderId_model fixedClock fallbackModelParams
               singleKeyStore in
  ∃ st',
    afterAttempt normalizeThinkLevel_model resolveAnyKey fixedClock lockAlways
      env timedOutOutcome (enteredState fallbackModelParams singleKeyStore)
    = Finished (RunFailed (ErrorObject "LLM request timed out.")) st'.
Proof.
  intros env.
  destruct (exhausted_rotation_throws normalizeThinkLevel_model resolveAnyKey
              fixedClock lockAlways env timedOutOutcome
              (enteredState fallbackModelParams singleKeyStore) "p:a")
    as (message & Heq & _ & _ & Hmsg);
    [by left | by right | reflexivity | vm_compute; lia | reflexivity
    | discriminate | reflexivity |].
  rewrite (Hmsg eq_refl) in Heq. eexists. exact Heq.
Defined.

Lemma exhausted_rotation_clears_cooldown_witness :
  let env := makeEnv normalizeProviderId_model fixedClock (plainParams None)
               singleKeyStore in
  ∃ st',
    afterAttempt normalizeThinkLevel_model resolveAnyKey fixedClock lockAlways
      env timedOutOutcome (enteredState (plainParams None) singleKeyStore)
    = Finished (RunPayloads [] (Some true)) st'
    ∧ usageStats (mem (world st')) !! "p:a"
      = Some {| lastUsed := Some 1000; cooldownUntil := None;
                errorCount := Some 0 |}.
Proof.
  intros env.
  destruct (exhausted_rotation_clears_cooldown normalizeThinkLevel_model
              resolveAnyKey fixedClock lockAlways env timedOutOutcome
              (enteredState (plainParams None) singleKeyStore) "p:a")
    as (st' & Heq & _ & Hstats & _);
    [by left | by right | reflexivity | vm_compute; lia | reflexivity
    | discriminate | reflexivity | by eexists | by eexists |].
  exists st'. split; [exact Heq | exact Hstats].
Defined.

Lemma finish_records_success_witness :
  let env := makeEnv normalizeProviderId_model fixedClock (plainParams None)
               twoKeyStore in
  let result :=
    finishRun fixedClock lockAlways env successOutcome
      (enteredState (plainParams None) twoKeyStore) in
  usageStats (disk (world result.2)) !! "p:a"
    = Some {| lastUsed := Some 1000; cooldownUntil := None;
              errorCount := Some 0 |}
  ∧ lastGood (disk (world result.2)) !! "p" = Some "p:a".
Proof.
  intros env result.
  destruct (finish_records_success fixedClock lockAlways env successOutcome
              (enteredState (plainParams None) twoKeyStore) "p:a")
    as (_ & _ & Hstats & Hgood);
    [reflexivity | discriminate | by eexists | by eexists |].
  split; [exact Hstats |]. apply Hgood.
  intros s cred [-> | ->] [= <-]; reflexivity.
Defined.

Lemma unclassified_prompt_error_is_rethrown_witness :
  let env := makeEnv normalizeProviderId_model fixedClock (plainParams None)
               twoKeyStore in
  afterAttempt normalizeThinkLevel_model resolveAnyKey fixedClock lockAlways
    env (promptThrew "socket hang up")
    (enteredState (plainParams None) twoKeyStore)
  = Finished (RunFailed (ErrorObject "socket hang up"))
      (enteredState (plainParams None) twoKeyStore).
Proof.
  intros env.
  apply (unclassified_prompt_error_is_rethrown normalizeThinkLevel_model
           resolveAnyKey fixedClock lockAlways env
           (promptThrew "socket hang up")
           (enteredState (plainParams None) twoKeyStore)
           (ErrorObject "socket hang up"));
    reflexivity.
Defined.

(** A falsy value thrown by the prompt does not pass [if (promptError)]: the
    run ends in the normal way and marks the profile good and used. *)
Example falsy_thrown_value_ends_run_normally :
  let thrownEmpty :=
    {| promptError := Some (ThrownString ""); aborted := false;
       timedOut := false; lastAssistant := None; replyTexts := [] |} in
  match scriptedRun resolveAnyKey [thrownEmpty] None with
  | Some (r, st) =>
      r = RunPayloads [] (Some false)
      ∧ trace st
        = [EvResolveKey (Some "p:a") true; EvAttempt 0 (Some "p:a") off;
           EvMarkGood "p:a"; EvMarkUsed "p:a"]
  | None => False
  end.
Proof. vm_compute. repeat split; reflexivity. Qed.

Lemma profiles_tried_in_order_witness :
  ∃ r st,
    scriptedRun resolveAnyKey [assistantFailed "401 Unauthorized"] None
    = Some (r, st)
    ∧ StronglySorted Nat.le (attemptsOf (trace st)).*1.
Proof.
  destruct (scriptedRun resolveAnyKey [assistantFailed "401 Unauthorized"] None)
    as [[r st]|] eqn:Hrun; [| by vm_compute in Hrun].
  exists r, st. split; [done |].
  by destruct (profiles_tried_in_order normalizeProviderId_model
                 normalizeThinkLevel_model resolveAnyKey
                 (scriptedEngine [assistantFailed "401 Unauthorized"])
                 fixedClock lockAlways 10 (plainParams None) twoKeyStore r st
                 Hrun).
Defined.

Lemma no_key_no_attempt_witness :
  ∃ e st,
    scriptedRun resolveNoKey [] None = Some (RunFailed e, st)
    ∧ attemptsOf (trace st) = [].
Proof.
  destruct (no_key_no_attempt normalizeProviderId_model
              normalizeThinkLevel_model resolveNoKey (scriptedEngine [])
              fixedClock lockAlways 10 (plainParams None) twoKeyStore)
    as (e & st & Heq & Ha & _).
  - intros c _. by eexists.
  - by exists e, st.
Defined.

(** ** Turn order of the transcript *)

Lemma noAdjacentAssistants_snoc (l : list AgentMessage) (x : AgentMessage) :
  noAdjacentAssistants (l ++ [x])%list
  = noAdjacentAssistants l
    && negb (from_option (hasRole "assistant") false (last l)
             && hasRole "assistant" x).
Proof.
  induction l as [|a l IH]; [done |].
  destruct l as [|b l].
  - cbn. by rewrite !andb_true_r.
  - change ((a :: b :: l) ++ [x])%list with (a :: ((b :: l) ++ [x]))%list.
    change (last (a :: b :: l)) with (last (b :: l)).
    cbn [noAdjacentAssistants] in *. rewrite IH.
    change ((b :: l) ++ [x])%list with (b :: (l ++ [x]))%list. cbv iota.
    by rewrite !andb_assoc.
Qed.

Lemma allBlocks_app (l1 l2 : list AgentMessage) :
  allBlocks (l1 ++ l2)%list = (allBlocks l1 ++ allBlocks l2)%list.
Proof. apply flat_map_app. Qed.

Lemma otherTurns_app (l1 l2 : list AgentMessage) :
  otherTurns (l1 ++ l2)%list = (otherTurns l1 ++ otherTurns l2)%list.
Proof. apply List.filter_app. Qed.

Lemma truthy_role_assistant (role : option string) :
  role = Some "assistant" → truthy role = true.
Proof. by intros ->. Qed.

(** What the loop of [validateGeminiTurns] keeps true of [result] and
    [lastRole]: no two neighbours of [result] are assistant turns, and when
    [result] ends with a message that has a role, [lastRole] is that role. *)
Lemma geminiStep_inv (st : list AgentMessage * option string)
    (msg : AgentMessage) :
  noAdjacentAssistants st.1 = true →
  (∀ m, last st.1 = Some (MessageObj m) → truthy (am_role m) = true →
        st.2 = am_role m) →
  let st' := geminiStep st msg in
  noAdjacentAssistants st'.1 = true
  ∧ (∀ m, last st'.1 = Some (MessageObj m) → truthy (am_role m) = true →
          st'.2 = am_role m)
  ∧ allBlocks st'.1 = (allBlocks st.1 ++ allBlocks [msg])%list
  ∧ otherTurns st'.1 = (otherTurns st.1 ++ otherTurns [msg])%list
  ∧ (length st'.1 <= S (length st.1))%nat.
Proof.
  destruct st as [result lastRole]. cbn [fst snd]. intros Hadj Hrole.
  assert (Hpush : ∀ lastRole',
    (hasRole "assistant" msg = true →
     from_option (hasRole "assistant") false (last result) = false) →
    (∀ m, msg = MessageObj m → truthy (am_role m) = true →
          lastRole' = am_role m) →
    noAdjacentAssistants (result ++ [msg])%list = true
    ∧ (∀ m, last (result ++ [msg])%list = Some (MessageObj m) →
            truthy (am_role m) = true → lastRole' = am_role m)
    ∧ allBlocks (result ++ [msg])%list = (allBlocks result ++ allBlocks [msg])%list
    ∧ otherTurns (result ++ [msg])%list
      = (otherTurns result ++ otherTurns [msg])%list
    ∧ (length (result ++ [msg])%list <= S (length result))%nat).
  { intros lastRole' Hnot Hnew.
    split; [| split; [| split; [| split]]].
    - rewrite noAdjacentAssistants_snoc, Hadj.
      destruct (hasRole "assistant" msg); [| by rewrite andb_false_r].
      by rewrite Hnot.
    - intros m. rewrite last_snoc. intros [= ->]. by apply Hnew.
    - apply allBlocks_app.
    - apply otherTurns_app.
    - rewrite length_app. simpl. lia. }
  destruct msg as [|currentMsg]; cbn [geminiStep].
  { apply Hpush; [done | by intros m [=]]. }
  destruct (truthy (am_role currentMsg)) eqn:Htruthy; cbn [negb]; cbv iota.
  2: { apply Hpush.
       - unfold hasRole. cbn [roleOf]. intros Hr%bool_decide_eq_true.
         by rewrite Hr in Htruthy.
       - intros m [= <-]. by rewrite Htruthy. }
  destruct (bool_decide (am_role currentMsg = lastRole)
            && bool_decide (lastRole = Some "assistant")) eqn:Hcond.
  - apply andb_true_iff in Hcond as [Hsame%bool_decide_eq_true
                                       Hasst%bool_decide_eq_true].
    destruct (last result) as [[|lastAsst]|] eqn:Hlast.
    + apply Hpush; [done | by intros m [= <-]].
    + apply last_Some in Hlast as [kept ->]. rewrite removelast_last.
      assert (Hsamerole :
        hasRole "assistant" (MessageObj (mergeTurns lastAsst currentMsg))
        = hasRole "assistant" (MessageObj lastAsst)) by done.
      assert (Hlastrole : truthy (am_role lastAsst) = true →
                          am_role lastAsst = Some "assistant").
      { intros Ht. rewrite <-Hasst. symmetry. by apply Hrole. }
      cbn [fst snd].
      split; [| split; [| split; [| split]]].
      * rewrite noAdjacentAssistants_snoc in Hadj.
        by rewrite noAdjacentAssistants_snoc, Hsamerole.
      * intros m. rewrite last_snoc. intros [= <-]. cbn [mergeTurns am_role].
        intros Ht. by rewrite Hasst, Hlastrole.
      * rewrite !allBlocks_app. cbn.
        by rewrite !app_nil_r, <-app_assoc.
      * rewrite !otherTurns_app.
        assert (Hcur : otherTurns [MessageObj currentMsg] = []).
        { unfold otherTurns, hasRole. cbn. rewrite Hsame, Hasst. done. }
        assert (Hold : ∀ m, am_role m = am_role lastAsst →
                            otherTurns [MessageObj m] = []).
        { intros m Hm. unfold otherTurns, hasRole. cbn. rewrite Hm.
          destruct (truthy (am_role lastAsst)) eqn:Ht; [| done].
          by rewrite (Hlastrole eq_refl). }
        rewrite Hcur, (Hold lastAsst eq_refl), (Hold (mergeTurns _ _) eq_refl).
        by rewrite !app_nil_r.
      * rewrite !length_app. simpl. lia.
    + apply Hpush; [done | by intros m [= <-]].
  - apply Hpush; [| by intros m [= <-]].
    unfold hasRole. cbn [roleOf]. intros Hcur%bool_decide_eq_true.
    destruct (last result) as [[|lastMsg]|] eqn:Hlast; [done | | done].
    cbn. apply bool_decide_eq_false. intros Hprev.
    rewrite (Hrole lastMsg eq_refl (truthy_role_assistant _ Hprev)) in Hcond.
    by rewrite Hcur, Hprev in Hcond.
Qed.

Lemma geminiLoop_inv (messages : list AgentMessage)
    (st : list AgentMessage * option string) :
  noAdjacentAssistants st.1 = true →
  (∀ m, last st.1 = Some (MessageObj m) → truthy (am_role m) = true →
        st.2 = am_role m) →
  let st' := foldl geminiStep st messages in
  noAdjacentAssistants st'.1 = true
  ∧ allBlocks st'.1 = (allBlocks st.1 ++ allBlocks messages)%list
  ∧ otherTurns st'.1 = (otherTurns st.1 ++ otherTurns messages)%list
  ∧ (length st'.1 <= length st.1 + length messages)%nat.
Proof.
  revert st. induction messages as [|msg rest IH]; intros st Hadj Hrole.
  - simpl. rewrite !app_nil_r. repeat split; [done | lia].
  - destruct (geminiStep_inv st msg Hadj Hrole) as (Ha & Hr & Hb & Ho & Hl).
    destruct (IH (geminiStep st msg) Ha Hr) as (Ha' & Hb' & Ho' & Hl').
    cbn [foldl]. split; [done |].
    change (msg :: rest) with ([msg] ++ rest)%list.
    rewrite allBlocks_app, otherTurns_app.
    split; [by rewrite Hb', Hb, <-app_assoc |].
    split; [by rewrite Ho', Ho, <-app_assoc |].
    simpl. lia.
Qed.

Lemma geminiStep_fromInput (all : list AgentMessage)
    (st : list AgentMessage * option string) (msg : AgentMessage) :
  (∀ m, last st.1 = Some (MessageObj m) → truthy (am_role m) = true →
        st.2 = am_role m) →
  msg ∈ all →
  Forall (fromInput all) st.1 →
  Forall (fromInput all) (geminiStep st msg).1.
Proof.
  destruct st as [result lastRole]. cbn [fst snd]. intros Hrole Hmsg Hall.
  assert (Hpush : Forall (fromInput all) (result ++ [msg])%list).
  { apply Forall_app. split; [done |]. constructor; [by left | constructor]. }
  destruct msg as [|currentMsg]; cbn [geminiStep]; [done |].
  destruct (negb (truthy (am_role currentMsg))); [done |].
  destruct (bool_decide (am_role currentMsg = lastRole)
            && bool_decide (lastRole = Some "assistant")) eqn:Hcond;
    [| done].
  apply andb_true_iff in Hcond as [Hsame%bool_decide_eq_true
                                     Hasst%bool_decide_eq_true].
  destruct (last result) as [[|lastAsst]|] eqn:Hlast; [done | | done].
  apply last_Some in Hlast as [kept ->]. rewrite removelast_last.
  cbn [fst]. apply Forall_app in Hall as [Hkept Hlast].
  apply Forall_app. split; [done |]. constructor; [| constructor].
  assert (Hcur : am_role currentMsg = Some "assistant") by congruence.
  apply Forall_inv in Hlast. right.
  destruct Hlast as [Hin | (first & absorbed & Heq & Hne & Hfirst & Hfr & Habs)].
  - exists lastAsst, [currentMsg]. split; [done |]. split; [done |].
    split; [done |]. split; [| by repeat constructor].
    destruct (truthy (am_role lastAsst)) eqn:Ht; [| by right].
    left. rewrite <-Hasst. symmetry. by apply Hrole.
  - injection Heq as ->.
    exists first, (absorbed ++ [currentMsg])%list.
    split; [by rewrite foldl_app |].
    split; [by destruct absorbed |]. split; [done |]. split; [done |].
    apply Forall_app. split; [done |]. by repeat constructor.
Qed.

Lemma geminiLoop_fromInput (all messages : list AgentMessage)
    (st : list AgentMessage * option string) :
  noAdjacentAssistants st.1 = true →
  (∀ m, last st.1 = Some (MessageObj m) → truthy (am_role m) = true →
        st.2 = am_role m) →
  messages ⊆ all →
  Forall (fromInput all) st.1 →
  Forall (fromInput all) (foldl geminiStep st messages).1.
Proof.
  revert st. induction messages as [|msg rest IH];
    intros st Hadj Hrole Hsub Hall; [done |].
  destruct (geminiStep_inv st msg Hadj Hrole) as (Ha & Hr & _).
  cbn [foldl]. apply IH; [done | done | set_solver |].
  apply geminiStep_fromInput; [done | set_solver | done].
Qed.

(** X27. [validateGeminiTurns] leaves no two assistant turns next to each
    other, loses and reorders no content block, keeps every turn that has a
    role other than assistant as it is and in place, and never makes the
    transcript longer. Each message of the result is a message of the input
    as it was, or a message of the input that is an assistant turn or an
    object without a role, merged with assistant turns of the input: an
    assistant turn that follows an object without a role is merged into that
    object and loses its role, and turns of other roles are never merged. *)
Theorem gemini_turns_merged (messages : list AgentMessage) :
  let result := validateGeminiTurns messages in
  noAdjacentAssistants result = true
  ∧ allBlocks result = allBlocks messages
  ∧ otherTurns result = otherTurns messages
  ∧ (length result <= length messages)%nat
  ∧ Forall (fromInput messages) result.
Proof.
  unfold validateGeminiTurns. destruct messages as [|msg rest];
    [by repeat split |].
  destruct (geminiLoop_inv (msg :: rest) ([], None) eq_refl
              ltac:(by intros m [=])) as (Ha & Hb & Ho & Hl).
  split; [done |]. split; [done |]. split; [done |]. split; [done |].
  by apply geminiLoop_fromInput; [| intros m [=] | |].
Qed.

(** An assistant turn behind an object without a role is merged into that
    object: the object's own content is replaced by the turn's blocks and the
    result has no role. Two user turns in a row stay as they are. *)
Example roleless_object_absorbs_assistant_turn :
  validateGeminiTurns
    [assistantTurn ["a"]; rolelessObject "note"; assistantTurn ["b"]]
  = [assistantTurn ["a"];
     MessageObj
       {| am_role := None; am_content := ContentArray ["b"];
          am_usage := None; am_stopReason := None; am_errorMessage := None;
          am_timestamp := None; am_rest := "" |}]
  ∧ validateGeminiTurns [userTurn "one"; userTurn "two"]
    = [userTurn "one"; userTurn "two"].
Proof. split; reflexivity. Qed.

(** A transcript that the loop has produced goes through the loop
    unchanged. *)
Lemma geminiStep_settled (st : list AgentMessage * option string)
    (msg : AgentMessage) :
  foldl geminiStep ([], None) st.1 = st →
  let st' := geminiStep st msg in
  foldl geminiStep ([], None) st'.1 = st'.
Proof.
  destruct st as [result lastRole]. cbn [fst]. intros Hst.
  assert (Hpush : ∀ lastRole',
    geminiStep (result, lastRole) msg = ((result ++ [msg])%list, lastRole') →
    foldl geminiStep ([], None) (geminiStep (result, lastRole) msg).1
    = geminiStep (result, lastRole) msg).
  { intros lastRole' Heq. rewrite Heq at 1. cbn [fst].
    by rewrite foldl_app, Hst. }
  destruct msg as [|currentMsg]; [by eapply Hpush |].
  cbn [geminiStep] in *.
  destruct (negb (truthy (am_role currentMsg))) eqn:Htruthy;
    [by eapply Hpush |].
  destruct (bool_decide (am_role currentMsg = lastRole)
            && bool_decide (lastRole = Some "assistant")) eqn:Hcond;
    [| by eapply Hpush].
  destruct (last result) as [[|lastAsst]|] eqn:Hlast;
    [by eapply Hpush | | by eapply Hpush].
  apply last_Some in Hlast as [kept ->]. rewrite removelast_last. cbn [fst].
  rewrite foldl_app in Hst. cbn [foldl] in Hst.
  rewrite foldl_app. cbn [foldl].
  destruct (foldl geminiStep ([], None) kept) as [result0 lastRole0] eqn:Hkept.
  assert (Hlen : (length result0 <= length kept)%nat).
  { destruct (geminiLoop_inv kept ([], None) eq_refl ltac:(by intros m [=]))
      as (_ & _ & _ & Hl). rewrite Hkept in Hl. simpl in Hl. lia. }
  cbn [geminiStep mergeTurns am_role] in *.
  destruct (negb (truthy (am_role lastAsst))) eqn:Htruthy0.
  { injection Hst as H1 H2. apply app_inj_tail in H1 as [-> _].
    by rewrite H2. }
  destruct (bool_decide (am_role lastAsst = lastRole0)
            && bool_decide (lastRole0 = Some "assistant")) eqn:Hcond0.
  - destruct (last result0) as [[|prev]|] eqn:Hlast0.
    + injection Hst as H1 H2. apply app_inj_tail in H1 as [-> _].
      by rewrite H2.
    + exfalso. injection Hst as H1 H2.
      apply (f_equal length) in H1. rewrite !length_app in H1. simpl in H1.
      apply last_Some in Hlast0 as [kept0 ->].
      rewrite removelast_last in H1. rewrite !length_app in Hlen.
      simpl in Hlen. lia.
    + injection Hst as H1 H2. apply app_inj_tail in H1 as [-> _].
      by rewrite H2.
  - injection Hst as H1 H2. apply app_inj_tail in H1 as [-> _].
    by rewrite H2.
Qed.

Lemma geminiLoop_settled (messages : list AgentMessage)
    (st : list AgentMessage * option string) :
  foldl geminiStep ([], None) st.1 = st →
  let st' := foldl geminiStep st messages in
  foldl geminiStep ([], None) st'.1 = st'.
Proof.
  revert st. induction messages as [|msg rest IH]; intros st Hst; [done |].
  cbn [foldl]. apply IH. by apply geminiStep_settled.
Qed.

(** X28. [validateGeminiTurns] is idempotent: a transcript that went through
    it is returned unchanged by a second pass. *)
Theorem gemini_turns_idempotent (messages : list AgentMessage) :
  validateGeminiTurns (validateGeminiTurns messages)
  = validateGeminiTurns messages.
Proof.
  unfold validateGeminiTurns at 2. destruct messages as [|msg rest]; [done |].
  pose proof (geminiLoop_settled (msg :: rest) ([], None) eq_refl) as H.
  cbv zeta in H. unfold validateGeminiTurns.
  destruct (foldl geminiStep ([], None) (msg :: rest)) as [result lastRole].
  cbn [fst] in *. destruct result; [done |]. by rewrite H.
Qed.

Lemma sanitizeGoogleTurnOrdering_cases (now : Z)
    (messages : list AgentMessage) :
  sanitizeGoogleTurnOrdering now messages
  = if bool_decide (head messages ≫= roleOf = Some "assistant")
    then MessageObj
           {| am_role := Some "user";
              am_content := ContentString GOOGLE_TURN_ORDER_BOOTSTRAP_TEXT;
              am_usage := None; am_stopReason := None;
              am_errorMessage := None; am_timestamp := Some now;
              am_rest := "" |}
         :: messages
    else messages.
Proof.
  unfold sanitizeGoogleTurnOrdering.
  destruct (head messages) as [[|m]|]; cbn [mbind option_bind roleOf];
    [done | | done].
  destruct (bool_decide (am_role m = Some "user")) eqn:Huser; cbn [andb].
  - apply bool_decide_eq_true in Huser. rewrite Huser.
    by destruct (am_content m) as [text| |]; [destruct (String.eqb _ _) | |].
  - by destruct (bool_decide (am_role m = Some "assistant")).
Qed.

(** X29. [sanitizeGoogleTurnOrdering] returns a transcript that does not
    start with an assistant turn: the input itself when that does not start
    with one, else the input behind one synthetic user turn that carries the
    bootstrap text. A second pass, at any time, changes nothing. *)
Theorem google_turn_order (now later : Z) (messages : list AgentMessage) :
  let result := sanitizeGoogleTurnOrdering now messages in
  head result ≫= roleOf ≠ Some "assistant"
  ∧ (if bool_decide (head messages ≫= roleOf = Some "assistant")
     then ∃ bootstrap,
            result = MessageObj bootstrap :: messages
            ∧ am_role bootstrap = Some "user"
            ∧ am_content bootstrap
              = ContentString GOOGLE_TURN_ORDER_BOOTSTRAP_TEXT
            ∧ am_timestamp bootstrap = Some now
     else result = messages)
  ∧ sanitizeGoogleTurnOrdering later result = result.
Proof.
  cbv zeta. rewrite (sanitizeGoogleTurnOrdering_cases now messages).
  destruct (bool_decide (head messages ≫= roleOf = Some "assistant")) eqn:Hasst.
  - split; [done |]. split; [by eexists |].
    by rewrite sanitizeGoogleTurnOrdering_cases.
  - split; [by apply bool_decide_eq_false in Hasst |]. split; [done |].
    by rewrite sanitizeGoogleTurnOrdering_cases, Hasst.
Qed.

(** ** Suggesting an OAuth profile *)

Lemma find_truthy_elem (f : string → bool) (l : list string) :
  truthy (List.find f l) = true →
  ∃ id, List.find f l = Some id ∧ id ∈ l.
Proof.
  destruct (List.find f l) as [id|] eqn:Hfind; [| done].
  intros _. exists id. split; [done |].
  apply List.find_some in Hfind as [Hin _]. by apply list_elem_of_In.
Qed.

Lemma filter_singleton_elem (f : string → bool) (l : list string)
    (only : string) :
  List.filter f l = [only] → only ∈ l.
Proof.
  intros H. assert (Hin : In only (List.filter f l)) by (rewrite H; by left).
  apply List.filter_In in Hin as [Hin _]. by apply list_elem_of_In.
Qed.

(** X30. A profile id that [suggestOAuthProfileIdForLegacyDefault] returns is
    one of the store's profiles for the provider and its stored credential is
    an OAuth credential; and nothing is suggested unless the legacy id ends in
    [:default], nor when the config declares the legacy id for the provider
    with a mode other than oauth. *)
Theorem suggested_profile_is_stored_oauth
    (normalizeProviderId : string → string) (cfg : option ClawdbotConfig)
    (store : AuthProfileStore) (provider legacyProfileId : string) :
  let suggestion :=
    suggestOAuthProfileIdForLegacyDefault normalizeProviderId cfg store
      provider legacyProfileId in
  (∀ id, suggestion = Some id →
     getProfileSuffix legacyProfileId = "default"
     ∧ id ∈ listProfilesForProvider normalizeProviderId store
              (normalizeProviderId provider)
     ∧ ∃ cred, obj_get (profiles store) id = Some (OAuth cred))
  ∧ (getProfileSuffix legacyProfileId ≠ "default" → suggestion = None)
  ∧ (∀ legacyCfg,
       profileConfigOf cfg legacyProfileId = Some legacyCfg →
       normalizeProviderId (pc_provider legacyCfg)
         = normalizeProviderId provider →
       pc_mode legacyCfg ≠ oauth → suggestion = None).
Proof.
  cbv zeta. unfold suggestOAuthProfileIdForLegacyDefault.
  set (providerKey := normalizeProviderId provider).
  set (oauthProfiles :=
         List.filter (isStoredOAuth store)
           (listProfilesForProvider normalizeProviderId store providerKey)).
  assert (Hmember : ∀ id, id ∈ oauthProfiles →
    id ∈ listProfilesForProvider normalizeProviderId store providerKey
    ∧ ∃ cred, obj_get (profiles store) id = Some (OAuth cred)).
  { intros id Hin. apply list_elem_of_In, List.filter_In in Hin as [Hin Hoauth].
    split; [by apply list_elem_of_In |].
    unfold isStoredOAuth in Hoauth.
    destruct (obj_get (profiles store) id) as [[k|t|o]|]; try done.
    by exists o. }
  split; [| split].
  - intros id.
    destruct (String.eqb_spec (getProfileSuffix legacyProfileId) "default")
      as [Hsuffix|]; cbn [negb]; [| done].
    destruct (match profileConfigOf cfg legacyProfileId with
              | Some lc => _ | None => false end); [done |].
    destruct oauthProfiles as [|first others] eqn:Hlist; [done |].
    rewrite <-Hlist in *. clear Hlist first others. intros Hres.
    split; [done |]. apply Hmember.
    set (byEmail := match trim <$> _ with Some email => _ | None => None end)
      in Hres.
    assert (HbyEmail : truthy byEmail = true → ∃ id', byEmail = Some id'
                                                ∧ id' ∈ oauthProfiles).
    { subst byEmail. destruct (trim <$> _) as [email|]; [| done].
      destruct (truthy (Some email)); [| done]. apply find_truthy_elem. }
    destruct (truthy byEmail) eqn:Hby.
    { destruct (HbyEmail eq_refl) as (id' & Heq & Hin). congruence. }
    set (lastGoodId := match lastGood store !! providerKey with
                       | Some id => Some id
                       | None => lastGood store !! provider
                       end) in Hres.
    destruct (truthy lastGoodId
              && includes oauthProfiles (default "" lastGoodId)) eqn:Hgood.
    { apply andb_true_iff in Hgood as [_ Hinc]. rewrite Hres in Hinc.
      by apply includes_elem_of in Hinc. }
    set (nonLegacy := List.filter _ oauthProfiles) in Hres.
    assert (Hnon : ∀ x, x ∈ nonLegacy → x ∈ oauthProfiles).
    { intros x Hx. apply list_elem_of_In, List.filter_In in Hx as [Hx _].
      by apply list_elem_of_In. }
    assert (Hemail : ∀ only,
      List.filter (λ id, isEmailLike (getProfileSuffix id)) nonLegacy = [only] →
      only ∈ oauthProfiles).
    { intros only Hfilter. by apply Hnon, (filter_singleton_elem _ _ _ Hfilter). }
    destruct nonLegacy as [|n1 [|n2 rest]] eqn:Hnl.
    + by cbn in Hres.
    + injection Hres as <-. apply Hnon. by left.
    + destruct (List.filter _ (n1 :: n2 :: rest)) as [|e1 [|e2 es]] eqn:He;
        [done | | done].
      injection Hres as <-. by apply Hemail.
  - intros Hsuffix.
    by rewrite (proj2 (String.eqb_neq _ _) Hsuffix).
  - intros legacyCfg Hcfg Hprov Hmode.
    destruct (negb _); [done |]. rewrite Hcfg. fold providerKey in Hprov.
    rewrite Hprov, String.eqb_refl.
    by rewrite (bool_decide_eq_false_2 _ Hmode).
Qed.

(** The repair takes the profile keyed by email for the legacy default. *)
Example suggestion_prefers_the_other_oauth_profile :
  suggestOAuthProfileIdForLegacyDefault normalizeProviderId_model None
    legacyOAuthStore "anthropic" "anthropic:default"
  = Some "anthropic:me@example.com".
Proof. reflexivity. Qed.
